(** * swim-pacer: the HTML sync checker and the ESP32 HTML updater

    A shallow embedding of [sync_check.py] and [update_esp32_html.py]
    and the properties of their extraction, normalisation, comparison
    and splicing routines.

    A Python [str] is a sequence of Unicode code points: it is modelled
    as a list of code points.  File contents are the text Python's
    text-mode [read] returns; [UpdateOnDisk] runs the updater on the
    stored characters, with the line ends and the write of [open]. *)

From stdpp Require Import base numbers list strings gmap.

(** ** Python strings *)

Abbreviation char := N.
Abbreviation str := (list N).

(** The code points of an ASCII literal. *)
Definition lit (s : string) : str :=
  map Ascii.N_of_ascii (String.list_ascii_of_string s).

Definition dquote : char := 34%N.
Definition newline : char := 10%N.
Definition space : char := 32%N.

(** [str.isspace] for one character, which is also the class [\s] of
    the [re] module on [str] patterns: both are CPython's
    [Py_UNICODE_ISSPACE]. *)
Definition isspace (c : char) : bool :=
  ((9 <=? c) && (c <=? 13) || (28 <=? c) && (c <=? 32)
   || (c =? 133) || (c =? 160) || (c =? 5760)
   || (8192 <=? c) && (c <=? 8202)
   || (c =? 8232) || (c =? 8233) || (c =? 8239) || (c =? 8287)
   || (c =? 12288))%N.

(** [[\s\S]], and [.] under [re.DOTALL]. *)
Definition anychar (c : char) : bool := true.

(** [s.startswith(w)] *)
Fixpoint starts_with (w s : str) : bool :=
  match w, s with
  | [], _ => true
  | a :: w', b :: s' => (a =? b)%N && starts_with w' s'
  | _ :: _, [] => false
  end.

(** Offset of the leftmost occurrence of [w] in [s]. *)
Fixpoint index_of (w s : str) : option nat :=
  if starts_with w s then Some 0
  else match s with
       | [] => None
       | _ :: t => S <$> index_of w t
       end.

(** How Python turns a slice bound into an offset of a sequence of
    length [n]: a negative bound counts from the end, and every bound
    is clipped to [0..n]. *)
Definition clamp (i : Z) (n : nat) : nat :=
  if (i <? 0)%Z then Z.to_nat (Z.max 0 (i + Z.of_nat n))
  else Nat.min (Z.to_nat i) n.

(** [s[a:b]] *)
Definition slice (s : str) (a b : Z) : str :=
  let a' := clamp a (length s) in
  let b' := clamp b (length s) in
  take (b' - a') (drop a' s).

(** [s[a:]] *)
Definition slice_from (s : str) (a : Z) : str :=
  drop (clamp a (length s)) s.

(** [s[:b]] *)
Definition slice_to (s : str) (b : Z) : str :=
  take (clamp b (length s)) s.

(** [s.find(w, start)]: the lowest index at or after [start] where [w]
    occurs, [-1] when there is none. *)
Definition find (s w : str) (start : Z) : Z :=
  if (Z.of_nat (length s) <? start)%Z then (-1)%Z
  else
    let st := clamp start (length s) in
    match index_of w (drop st s) with
    | Some i => Z.of_nat (st + i)
    | None => (-1)%Z
    end.

(** [s.lstrip()], [s.rstrip()], [s.strip()] *)
Fixpoint lstrip (s : str) : str :=
  match s with
  | c :: t => if isspace c then lstrip t else s
  | [] => []
  end.

Definition rstrip (s : str) : str := reverse (lstrip (reverse s)).

Definition strip (s : str) : str := rstrip (lstrip s).

(** ** The fragment of [re] the two scripts use

    Literal text, a character class under [*], [*?] or [+], sequencing,
    a negative lookahead and one capturing group.  The matcher is the
    backtracking matcher of [re]: it takes the alternatives of every
    quantifier in priority order (greedy: longest first; lazy: shortest
    first) and hands each to the continuation [k], which matches the
    rest of the pattern. *)

Inductive regex : Type :=
| Lit (w : str)
| Star (p : char -> bool)
| Lazy (p : char -> bool)
| Plus (p : char -> bool)
| Seq (r1 r2 : regex)
| NotAhead (r : regex)
| Group (r : regex).

Declare Scope regex_scope.
Delimit Scope regex_scope with re.
Bind Scope regex_scope with regex.
Infix ">>" := Seq (at level 60, right associativity) : regex_scope.

Fixpoint greedy {A} (p : char -> bool) (s : str) (k : str -> option A)
  : option A :=
  match s with
  | c :: t =>
      if p c then
        match greedy p t k with
        | Some a => Some a
        | None => k s
        end
      else k s
  | [] => k []
  end.

Fixpoint lazy {A} (p : char -> bool) (s : str) (k : str -> option A)
  : option A :=
  match k s with
  | Some a => Some a
  | None =>
      match s with
      | c :: t => if p c then lazy p t k else None
      | [] => None
      end
  end.

(** [rmatch r A s g k]: match [r] at the head of [s]; [g] is the text
    of group 1 so far. *)
Fixpoint rmatch (r : regex) (A : Type) (s : str) (g : option str)
    (k : str -> option str -> option A) {struct r} : option A :=
  match r with
  | Lit w => if starts_with w s then k (drop (length w) s) g else None
  | Star p => greedy p s (fun t => k t g)
  | Lazy p => lazy p s (fun t => k t g)
  | Plus p =>
      match s with
      | c :: t => if p c then greedy p t (fun t' => k t' g) else None
      | [] => None
      end
  | Seq r1 r2 => rmatch r1 A s g (fun t g' => rmatch r2 A t g' k)
  | NotAhead r' =>
      match rmatch r' unit s g (fun _ _ => Some tt) with
      | Some _ => None
      | None => k s g
      end
  | Group r' =>
      rmatch r' A s g
        (fun t _ => k t (Some (take (length s - length t) s)))
  end.

(** A match object: [m.start()], [m.end()], [m.group(1)]. *)
Record match_obj : Type := MatchObj {
  m_start : nat;
  m_end : nat;
  m_group1 : option str
}.

(** A match of [r] that starts exactly at the head of [s]: the
    characters it consumes and group 1. *)
Definition match_here (r : regex) (s : str) : option (nat * option str) :=
  rmatch r _ s None
    (fun t g => Some (length s - length t, g)).

Fixpoint search_from (r : regex) (s : str) (pos : nat) : option match_obj :=
  match match_here r s with
  | Some (n, g) =>
      Some {| m_start := pos; m_end := pos + n; m_group1 := g |}
  | None =>
      match s with
      | [] => None
      | _ :: t => search_from r t (S pos)
      end
  end.

(** [re.search(r, s)]: the match with the leftmost start. *)
Definition re_search (r : regex) (s : str) : option match_obj :=
  search_from r s 0.

(** [re.sub(r, repl, s)] for a pattern that consumes at least one
    character, as all three patterns of [normalize_html] do (lemma
    [pattern_nonempty]): matches are taken left to right and do not
    overlap.  [skip] counts the characters of the current match that
    are still to be dropped. *)
Fixpoint sub_from (r : regex) (repl s : str) (skip : nat) : str :=
  match s with
  | [] => []
  | c :: t =>
      match skip with
      | S n => sub_from r repl t n
      | O =>
          match match_here r s with
          | Some (S n, _) => repl ++ sub_from r repl t n
          | _ => c :: sub_from r repl t 0
          end
      end
  end.

Definition re_sub (r : regex) (repl s : str) : str := sub_from r repl s 0.

(** ** The two documents and their delimiters *)

Definition standalone_path : string := "config_interface.html".
Definition ino_path : string := "swim_pacer.ino".

Definition start_marker : str :=
  lit "<!-- ========== SYNC MARKER: START ESP32 HTML ========== -->".
Definition end_marker : str :=
  lit "<!-- ========== SYNC MARKER: END ESP32 HTML ========== -->".

(** The tokens of the firmware document.  In the comments of this file
    [DQ] stands for the double quote character. *)
Definition handler_open : str := lit "void handleRoot() {".
(** [String html = R DQ (], written without the blanks around [DQ] *)
Definition literal_open : str := lit "String html = R" ++ [dquote] ++ lit "(".
(** The raw-string close token [) DQ], written without the blank *)
Definition raw_close : str := lit ")" ++ [dquote].
(** [) DQ ;], written without blanks: the close token and the statement
    terminator *)
Definition literal_close : str := raw_close ++ lit ";".

(** The file system: the text of every file that exists, by path. *)
Abbreviation files := (gmap string (list N)).

(** ** sync_check.py *)

Module SyncCheck.

(** The lines the script prints. *)
Inductive line : Type :=
| StandaloneNotFound            (* config_interface.html not found *)
| MarkersNotFound               (* Sync markers not found in config_interface.html *)
| InoNotFound                   (* swim_pacer.ino not found *)
| InoPatternNotFound            (* Could not find HTML content in swim_pacer.ino handleRoot() function *)
| Checking                      (* Checking HTML synchronization... *)
| Rule                          (* a rule of fifty = signs *)
| Synchronized                  (* HTML content is synchronized! *)
| ContentLength (n : nat)       (* Content length: n characters *)
| NotSynchronized               (* HTML content is NOT synchronized! *)
| StandaloneLength (n : nat)    (* Standalone HTML: n characters *)
| InoLength (n : nat)           (* ESP32 INO HTML: n characters *)
| FirstDifference (i : nat)     (* First difference at position i: *)
| StandaloneContext (w : str)   (* Standalone: ...w... *)
| InoContext (w : str)          (* ESP32:      ...w... *)
| Banner                        (* Swim Pacer HTML Sync Checker *)
| InSync                        (* Files are in sync! Ready for development. *)
| NeedSync                      (* Files need synchronization. *)
| Advice.                       (* Update the ESP32 code or standalone HTML to match. *)

(** A function that prints: the lines printed and the value returned. *)
Definition printing (A : Type) : Type := list line * A.

Definition extract_html_from_standalone (fs : files) : printing (option str) :=
  match fs !! standalone_path with
  | None => ([StandaloneNotFound], None)
  | Some content =>
      let start_idx := find content start_marker 0 in
      let end_idx := find content end_marker 0 in
      if (start_idx =? -1)%Z || (end_idx =? -1)%Z then
        ([MarkersNotFound], None)
      else
        let start_idx := (find content [newline] start_idx + 1)%Z in
        let html_content := strip (slice content start_idx end_idx) in
        ([], Some html_content)
  end.

(** [void handleRoot\(\) \{[\s\S]*?String html = R DQ \(\s*([\s\S]*?)\s*\) DQ ;],
    without the blanks around [DQ] *)
Definition pattern : regex :=
  (Lit handler_open >> Lazy anychar >> Lit literal_open >> Star isspace >>
   Group (Lazy anychar) >> Star isspace >> Lit literal_close)%re.

(** [match.group(1)]; group 1 takes part in every match of [pattern]. *)
Definition group1 (m : match_obj) : str := default [] (m_group1 m).

Definition extract_html_from_ino (fs : files) : printing (option str) :=
  match fs !! ino_path with
  | None => ([InoNotFound], None)
  | Some content =>
      match re_search pattern content with
      | None => ([InoPatternNotFound], None)
      | Some m =>
          let html_content := strip (group1 m) in
          ([], Some html_content)
      end
  end.

(** [<!--(?!.*SYNC MARKER).*?-->] with [re.DOTALL] *)
Definition comment_pattern : regex :=
  (Lit (lit "<!--") >> NotAhead (Star anychar >> Lit (lit "SYNC MARKER")) >>
   Lazy anychar >> Lit (lit "-->"))%re.

(** [\s+] *)
Definition whitespace_pattern : regex := Plus isspace.

(** [>\s+<] *)
Definition tag_gap_pattern : regex :=
  (Lit (lit ">") >> Plus isspace >> Lit (lit "<"))%re.

Definition normalize_html (html_content : str) : str :=
  match html_content with
  | [] => []
  | _ =>
      let html_content := re_sub comment_pattern [] html_content in
      let html_content := re_sub whitespace_pattern [space] html_content in
      let html_content := re_sub tag_gap_pattern (lit "><") html_content in
      strip html_content
  end.

(** The loop over [enumerate(zip(a, b))]: the index of the first pair of
    unequal characters, counted from [i]. *)
Fixpoint first_difference (a b : str) (i : nat) : option nat :=
  match a, b with
  | x :: a', y :: b' =>
      if (x =? y)%N then first_difference a' b' (S i) else Some i
  | _, _ => None
  end.

Definition show_first_difference (normalized_standalone normalized_ino : str)
  : list line :=
  match first_difference normalized_standalone normalized_ino 0 with
  | Some i =>
      let start := Z.max 0 (Z.of_nat i - 50) in
      let end_ := Z.min (Z.of_nat (length normalized_standalone))
                        (Z.of_nat i + 50) in
      [FirstDifference i;
       StandaloneContext (slice normalized_standalone start end_);
       InoContext (slice normalized_ino start end_)]
  | None => []
  end.

Definition compare_html (fs : files) : printing bool :=
  let '(out1, standalone_html) := extract_html_from_standalone fs in
  let '(out2, ino_html) := extract_html_from_ino fs in
  let out := [Checking; Rule] ++ out1 ++ out2 in
  match standalone_html, ino_html with
  | Some standalone_html, Some ino_html =>
      let normalized_standalone := normalize_html standalone_html in
      let normalized_ino := normalize_html ino_html in
      if decide (normalized_standalone = normalized_ino) then
        (out ++ [Synchronized; ContentLength (length normalized_standalone)],
         true)
      else
        (out ++ [NotSynchronized;
                 StandaloneLength (length normalized_standalone);
                 InoLength (length normalized_ino)]
             ++ show_first_difference normalized_standalone normalized_ino,
         false)
  | _, _ => (out, false)
  end.

(** The lines printed and the exit status. *)
Definition main (fs : files) : list line * Z :=
  let '(out, success) := compare_html fs in
  if success then ([Banner; Rule] ++ out ++ [InSync], 0%Z)
  else ([Banner; Rule] ++ out ++ [NeedSync; Advice], 1%Z).

End SyncCheck.

(** ** update_esp32_html.py *)

Module UpdateEsp32Html.

Inductive exn : Type :=
| FileNotFoundError (path : string)
| ValueError (msg : string)
| OSError (msg : string).

Inductive outcome (A : Type) : Type :=
| Return (a : A)
| Raise (e : exn).
Arguments Return {A} a.
Arguments Raise {A} e.

Inductive line : Type :=
| Extracting                    (* Extracting HTML content from standalone file... *)
| Extracted (n : nat)           (* Extracted n characters *)
| Updating                      (* Updating ESP32 .ino file... *)
| Updated                       (* Successfully updated ESP32 HTML content! *)
| ShouldBeSynchronized          (* The files should now be synchronized. *)
| Error (e : exn).              (* Error: e *)

Definition extract_html_content (file_path : string) (fs : files)
  : outcome str :=
  match fs !! file_path with
  | None => Raise (FileNotFoundError file_path)
  | Some content => Return (strip content)
  end.

(** [String html = R DQ \(] *)
Definition start_pattern : regex := Lit literal_open.
(** [\) DQ ;], which the function binds and never uses *)
Definition end_pattern : regex := Lit literal_close.

(** The function reads and rewrites [ino_file]: it returns the file
    system it leaves behind and how it ended. *)
Definition update_esp32_html (ino_file : string) (html_content : str)
    (fs : files) : files * outcome unit :=
  match fs !! ino_file with
  | None => (fs, Raise (FileNotFoundError ino_file))
  | Some ino_content =>
      match re_search start_pattern ino_content with
      | None =>
          (fs, Raise (ValueError "Could not find HTML string start in ESP32 file"))
      | Some start_match =>
          let start_pos := Z.of_nat (m_end start_match) in
          let end_marker_in_ino := find ino_content end_marker start_pos in
          if (end_marker_in_ino =? -1)%Z then
            (fs, Raise (ValueError "Could not find end marker in ESP32 file"))
          else
            let closing_pos :=
              find ino_content (literal_close ++ [newline]) end_marker_in_ino in
            if (closing_pos =? -1)%Z then
              (fs, Raise (ValueError "Could not find HTML string end in ESP32 file"))
            else
              let new_content :=
                slice_to ino_content start_pos ++
                [newline] ++ html_content ++ [newline] ++
                slice_from ino_content closing_pos in
              (<[ino_file := new_content]> fs, Return tt)
      end
  end.

(** The file system left behind, the lines printed and the value
    returned. *)
Definition main (fs : files) : files * list line * Z :=
  match extract_html_content standalone_path fs with
  | Raise e => (fs, [Extracting; Error e], 1%Z)
  | Return html_content =>
      match update_esp32_html ino_path html_content fs with
      | (fs', Return _) =>
          (fs', [Extracting; Extracted (length html_content); Updating;
                 Updated; ShouldBeSynchronized], 0%Z)
      | (fs', Raise e) =>
          (fs', [Extracting; Extracted (length html_content); Updating;
                 Error e], 1%Z)
      end
  end.

End UpdateEsp32Html.

(** ** Occurrences of a token in a string *)

(** [w] occurs in [s] at offset [i]: [s.startswith(w, i)]. *)
Definition occurs_at (w s : str) (i : nat) : Prop :=
  starts_with w (drop i s) = true.

(** [i] is the first offset at or after [st] where [w] occurs in [s]. *)
Definition first_at (w s : str) (st i : nat) : Prop :=
  st <= i /\ occurs_at w s i /\ forall j, st <= j < i -> ~ occurs_at w s j.

(** [w] does not occur in [s] at or after offset [st]. *)
Definition absent_from (w s : str) (st : nat) : Prop :=
  forall j, st <= j -> ~ occurs_at w s j.

(** ** The stages of the splicer *)

Module UpdateStages.
Import UpdateEsp32Html.

(** The offset just after the first literal-opening token. *)
Definition literal_start (ino : str) : Z :=
  (find ino literal_open 0 + Z.of_nat (length literal_open))%Z.

(** The offset of the first end marker at or after [literal_start]. *)
Definition marker_pos (ino : str) : Z :=
  find ino end_marker (literal_start ino).

(** The offset of the first literal-closing token followed by a newline,
    at or after [marker_pos]. *)
Definition closing_pos (ino : str) : Z :=
  find ino (literal_close ++ [newline]) (marker_pos ino).

(** The four ways [update_esp32_html] can end on a firmware document
    that exists. *)
Inductive splice (ino html : str) : option str -> outcome unit -> Prop :=
| splice_no_open :
    absent_from literal_open ino 0 ->
    find ino literal_open 0 = (-1)%Z ->
    splice ino html None
      (Raise (ValueError "Could not find HTML string start in ESP32 file"))
| splice_no_marker j :
    first_at literal_open ino 0 j ->
    literal_start ino = Z.of_nat (j + length literal_open) ->
    absent_from end_marker ino (j + length literal_open) ->
    marker_pos ino = (-1)%Z ->
    splice ino html None
      (Raise (ValueError "Could not find end marker in ESP32 file"))
| splice_no_close j em :
    first_at literal_open ino 0 j ->
    literal_start ino = Z.of_nat (j + length literal_open) ->
    first_at end_marker ino (j + length literal_open) em ->
    marker_pos ino = Z.of_nat em ->
    absent_from (literal_close ++ [newline]) ino em ->
    closing_pos ino = (-1)%Z ->
    splice ino html None
      (Raise (ValueError "Could not find HTML string end in ESP32 file"))
| splice_done j em cp :
    first_at literal_open ino 0 j ->
    literal_start ino = Z.of_nat (j + length literal_open) ->
    first_at end_marker ino (j + length literal_open) em ->
    marker_pos ino = Z.of_nat em ->
    first_at (literal_close ++ [newline]) ino em cp ->
    closing_pos ino = Z.of_nat cp ->
    splice ino html
      (Some (take (j + length literal_open) ino ++ [newline] ++ html ++
             [newline] ++ drop cp ino))
      (Return tt).

Definition written (ino_file : string) (new : option str) (fs : files) : files :=
  match new with
  | Some content => <[ino_file := content]> fs
  | None => fs
  end.

End UpdateStages.

(** ** Sample documents *)

Module Samples.

(** A firmware document as the scripts expect it. *)
Definition ino_sample : str :=
  handler_open ++ [newline] ++ literal_open ++ [newline] ++
  lit "<p>old</p>" ++ [newline] ++ end_marker ++ [newline] ++
  literal_close ++ [newline] ++ lit "}" ++ [newline].

(** The closing token ends the file: no newline follows it. *)
Definition ino_no_newline : str :=
  handler_open ++ [newline] ++ literal_open ++ [newline] ++
  end_marker ++ [newline] ++ literal_close.

(** The literal stands outside any handler routine. *)
Definition ino_no_handler : str :=
  literal_open ++ [newline] ++ end_marker ++ [newline] ++
  literal_close ++ [newline].

(** A standalone document with both sentinel lines. *)
Definition standalone_sample : str :=
  lit "<html>" ++ [newline] ++ start_marker ++ [newline] ++
  lit "<p>new</p>" ++ [newline] ++ end_marker ++ [newline] ++
  lit "</html>" ++ [newline].

Definition fs_sample : files :=
  {[ standalone_path := standalone_sample; ino_path := ino_sample ]}.

Definition fs_no_newline : files :=
  {[ standalone_path := standalone_sample; ino_path := ino_no_newline ]}.

(** A standalone document without the sentinel lines. *)
Definition standalone_plain : str := lit "<p>hello</p>" ++ [newline].

Definition fs_plain : files :=
  {[ standalone_path := standalone_plain; ino_path := ino_sample ]}.

Definition fs_no_handler : files :=
  {[ standalone_path := standalone_sample; ino_path := ino_no_handler ]}.

End Samples.

(** ** Whitespace at the ends of a string *)

(** Every character of [l] is whitespace. *)
Definition blank (l : str) : Prop := Forall (fun c => isspace c = true) l.

(** [t] neither begins nor ends with whitespace. *)
Definition trimmed (t : str) : Prop :=
  (forall c u, t = c :: u -> isspace c = false) /\
  (forall c u, t = u ++ [c] -> isspace c = false).

(** ** Occurrences of the firmware pattern *)

(** [content] reads: [a], the handler opening, [b], the literal opening,
    [body], the closing token with its terminator, [rest]. *)
Definition pattern_occurrence (content a b body rest : str) : Prop :=
  content =
  a ++ handler_open ++ b ++ literal_open ++ body ++ literal_close ++ rest.

(** The occurrence the non-greedy search settles on: the leftmost
    handler opening, the nearest literal opening after it, the nearest
    closing token after that. *)
Definition first_occurrence (content a b body rest : str) : Prop :=
  pattern_occurrence content a b body rest /\
  first_at handler_open content 0 (length a) /\
  first_at literal_open content (length a + length handler_open)
    (length a + length handler_open + length b) /\
  first_at literal_close content
    (length a + length handler_open + length b + length literal_open)
    (length a + length handler_open + length b + length literal_open +
     length body).

(** ** The steps of the normalizer *)

Module NormalizeSteps.
Import SyncCheck.

(** The three substitutions of [normalize_html], one by one. *)
Definition strip_comments (s : str) : str := re_sub comment_pattern [] s.
Definition collapse (s : str) : str := re_sub whitespace_pattern [space] s.
Definition join_tags (s : str) : str := re_sub tag_gap_pattern (lit "><") s.

(** Every whitespace character of [z] is a space that no whitespace
    follows. *)
Fixpoint collapsed (z : str) : Prop :=
  match z with
  | [] => True
  | c :: t =>
      (isspace c = true ->
       c = space /\ forall d u, t = d :: u -> isspace d = false) /\
      collapsed t
  end.

(** The tag-gap pattern matches nowhere in [z]. *)
Definition tag_free (z : str) : Prop :=
  forall i, match_here tag_gap_pattern (drop i z) = None.

(** No character of [v] is whitespace or the closing angle bracket. *)
Definition plain (v : str) : Prop :=
  Forall (fun c => isspace c = false /\ c <> 62%N) v.

(** The comment-open delimiter. *)
Definition comment_open : str := lit "<!--".

(** A text in which stripping a comment leaves a new one behind. *)
Definition nested_comment : str := lit "<!<!-- x -->-- y -->".

(** A page fragment with a note and, after it, a sentinel comment. *)
Definition note_before_sentinel : str :=
  lit "<!-- note --><p>x</p><!-- SYNC MARKER -->".

End NormalizeSteps.

(** ** More tokens of the normalizer *)

Module NormalizeTokens.

(** The text the comment pattern's lookahead searches for. *)
Definition sentinel_text : str := lit "SYNC MARKER".

(** The comment-close delimiter. *)
Definition comment_close : str := lit "-->".

End NormalizeTokens.

(** ** A word of the sentinel text *)

Module SentinelWord.

(** The last word of the sentinel text; it has no whitespace in it. *)
Definition marker_word : str := lit "MARKER".

End SentinelWord.

(** ** Text files

    Both scripts open their files with [open(path, mode,
    encoding='utf-8')] and leave [newline] at its default.  Reading
    then turns every line end of the file, a line feed, a carriage
    return or the two in a row, into one line feed; writing turns every
    line feed of the text into the line separator of the platform.  A
    file is the sequence of its characters, line ends as they are
    stored. *)

Definition cr : char := 13%N.

Inductive platform : Type := Posix | Windows.

(** [os.linesep] *)
Definition linesep (p : platform) : str :=
  match p with
  | Posix => [newline]
  | Windows => [cr; newline]
  end.

(** What [read] in text mode makes of the characters of a file;
    [pending] says that the character before was a carriage return,
    which has been turned into a line feed already. *)
Fixpoint decode_newlines (pending : bool) (raw : str) : str :=
  match raw with
  | [] => []
  | c :: t =>
      if (c =? cr)%N then newline :: decode_newlines true t
      else if (c =? newline)%N && pending then decode_newlines false t
      else c :: decode_newlines false t
  end.

Definition universal_newlines (raw : str) : str := decode_newlines false raw.

(** What [write] in text mode sends to the file. *)
Fixpoint write_newlines (p : platform) (text : str) : str :=
  match text with
  | [] => []
  | c :: t =>
      (if (c =? newline)%N then linesep p else [c]) ++ write_newlines p t
  end.

(** The text of every file as the scripts read it. *)
Definition text_view (d : files) : files := universal_newlines <$> d.

(** ** update_esp32_html.py on the files themselves

    [UpdateEsp32Html] above gives the script on the text its reads
    return, with a write that goes through.  Here the script runs on the
    stored files: its reads and its write translate line ends, and the
    write can fail.  A file that exists can be read and holds UTF-8
    text; a write that fails stops between two characters. *)

Module UpdateOnDisk.
Import UpdateEsp32Html.

(** How [with open(path, 'w', encoding='utf-8') as f: f.write(text)]
    ends.  [open] can raise before it touches the file.  Once [open]
    has returned, the file is empty, and [write] or the [close] that
    ends the [with] block can raise when only the first [reached]
    characters are in the file. *)
Inductive fault : Type :=
| NoFault
| OpenFault (msg : string)
| WriteFault (reached : nat) (msg : string).

Record io : Type := IO {
  io_platform : platform;
  io_fault : fault
}.

(** [with open(path, 'r', encoding='utf-8') as f: f.read()] *)
Definition read_text (path : string) (d : files) : outcome str :=
  match d !! path with
  | None => Raise (FileNotFoundError path)
  | Some raw => Return (universal_newlines raw)
  end.

(** [with open(path, 'w', encoding='utf-8') as f: f.write(text)] *)
Definition write_text (env : io) (path : string) (text : str) (d : files)
  : files * outcome unit :=
  match io_fault env with
  | NoFault =>
      (<[path := write_newlines (io_platform env) text]> d, Return tt)
  | OpenFault msg => (d, Raise (OSError msg))
  | WriteFault reached msg =>
      (<[path := take reached (write_newlines (io_platform env) text)]> d,
       Raise (OSError msg))
  end.

Definition extract_html_content (file_path : string) (d : files)
  : outcome str :=
  match read_text file_path d with
  | Raise e => Raise e
  | Return content => Return (strip content)
  end.

Definition update_esp32_html (env : io) (ino_file : string)
    (html_content : str) (d : files) : files * outcome unit :=
  match read_text ino_file d with
  | Raise e => (d, Raise e)
  | Return ino_content =>
      match re_search start_pattern ino_content with
      | None =>
          (d, Raise (ValueError "Could not find HTML string start in ESP32 file"))
      | Some start_match =>
          let start_pos := Z.of_nat (m_end start_match) in
          let end_marker_in_ino := find ino_content end_marker start_pos in
          if (end_marker_in_ino =? -1)%Z then
            (d, Raise (ValueError "Could not find end marker in ESP32 file"))
          else
            let closing_pos :=
              find ino_content (literal_close ++ [newline]) end_marker_in_ino in
            if (closing_pos =? -1)%Z then
              (d, Raise (ValueError "Could not find HTML string end in ESP32 file"))
            else
              let new_content :=
                slice_to ino_content start_pos ++
                [newline] ++ html_content ++ [newline] ++
                slice_from ino_content closing_pos in
              write_text env ino_file new_content d
      end
  end.

(** The files left behind, the lines printed and the value returned. *)
Definition main (env : io) (d : files) : files * list line * Z :=
  match extract_html_content standalone_path d with
  | Raise e => (d, [Extracting; Error e], 1%Z)
  | Return html_content =>
      match update_esp32_html env ino_path html_content d with
      | (d', Return _) =>
          (d', [Extracting; Extracted (length html_content); Updating;
                Updated; ShouldBeSynchronized], 0%Z)
      | (d', Raise e) =>
          (d', [Extracting; Extracted (length html_content); Updating;
                Error e], 1%Z)
      end
  end.

End UpdateOnDisk.

(** ** More sample documents *)

Module MoreSamples.
Import Samples.

(** A standalone document in which, after the end marker, a script line
    ends with a bracketed string, that is, with the closing token and
    the statement terminator. *)
Definition standalone_closing : str :=
  start_marker ++ [newline] ++ lit "<p>new</p>" ++ [newline] ++
  end_marker ++ [newline] ++
  lit "<script>s = " ++ [dquote] ++ lit "(x" ++ literal_close ++ [newline] ++
  lit "</script>" ++ [newline].

Definition fs_closing : files :=
  {[ standalone_path := standalone_closing; ino_path := ino_sample ]}.

(** The firmware document [ino_sample] stored with a carriage return
    and a line feed at the end of every line. *)
Definition ino_crlf : str := write_newlines Windows ino_sample.

(** A standalone document that neither begins nor ends with
    whitespace. *)
Definition standalone_tight : str :=
  start_marker ++ [newline] ++ lit "<p>new</p>" ++ [newline] ++ end_marker.

Definition disk_crlf : files :=
  {[ standalone_path := standalone_tight; ino_path := ino_crlf ]}.

End MoreSamples.

(** * Proofs *)

Section Occurrences.

Implicit Types w s t : str.

Lemma starts_with_take w s :
  starts_with w s = true <-> take (length w) s = w.
Proof.
  revert s. induction w as [|a w IH]; intros [|b s]; simpl; try done.
  rewrite andb_true_iff, N.eqb_eq, IH. split.
  - intros [-> ->]. done.
  - intros [= -> ->]. done.
Qed.

Lemma starts_with_app w t : starts_with w (w ++ t) = true.
Proof.
  apply starts_with_take. by rewrite take_app_length.
Qed.

Lemma starts_with_split w s :
  starts_with w s = true -> s = w ++ drop (length w) s.
Proof.
  intros H%starts_with_take.
  rewrite <- (take_drop (length w) s) at 1. by rewrite H.
Qed.

Lemma starts_with_length w s :
  starts_with w s = true -> length w <= length s.
Proof.
  intros H%starts_with_split. rewrite H, length_app. lia.
Qed.

Lemma starts_with_nil_r w : w <> [] -> starts_with w [] = false.
Proof. by destruct w. Qed.

Lemma occurs_at_split w s i :
  w <> [] ->
  occurs_at w s i <->
  s = take i s ++ w ++ drop (i + length w) s /\ i + length w <= length s.
Proof.
  intros Hw. unfold occurs_at. split.
  - intros H. pose proof (starts_with_length _ _ H) as Hl.
    rewrite length_drop in Hl.
    apply starts_with_split in H. rewrite drop_drop in H.
    split.
    + rewrite <- H. by rewrite take_drop.
    + destruct (decide (i <= length s)); [lia|].
      rewrite drop_ge in H by lia. destruct w; done.
  - intros [H Hl]. rewrite H. rewrite drop_app_length'.
    + apply starts_with_app.
    + rewrite length_take. lia.
Qed.

Lemma occurs_at_app w a b : occurs_at w (a ++ w ++ b) (length a).
Proof.
  unfold occurs_at. rewrite drop_app_length. apply starts_with_app.
Qed.

Lemma occurs_at_bound w s i : w <> [] -> occurs_at w s i -> i + length w <= length s.
Proof. intros Hw H. apply occurs_at_split in H; [lia|done]. Qed.

Lemma index_of_Some w s i :
  index_of w s = Some i -> first_at w s 0 i.
Proof.
  revert i. induction s as [|c s IH]; intros i; simpl.
  - destruct (starts_with w []) eqn:E; [|done].
    intros [= <-]. split; [lia|]. split; [done|]. intros j ?. lia.
  - destruct (starts_with w (c :: s)) eqn:E.
    + intros [= <-]. split; [lia|]. split; [done|]. intros j ?. lia.
    + destruct (index_of w s) as [i'|] eqn:Ei; [|done].
      intros [= <-]. destruct (IH _ eq_refl) as (_ & Ho & Hn).
      split; [lia|]. split; [done|].
      intros [|j] Hj; unfold occurs_at; simpl.
      * by rewrite E.
      * apply Hn. lia.
Qed.

Lemma index_of_None w s :
  index_of w s = None -> absent_from w s 0.
Proof.
  induction s as [|c s IH]; simpl.
  - destruct (starts_with w []) eqn:E; [done|].
    intros _ j _. unfold occurs_at. rewrite drop_nil. by rewrite E.
  - destruct (starts_with w (c :: s)) eqn:E; [done|].
    destruct (index_of w s) eqn:Ei; [done|]. intros _.
    intros [|j] _; unfold occurs_at; simpl.
    + by rewrite E.
    + apply IH; [done|lia].
Qed.

Lemma first_at_unique w s st i j :
  first_at w s st i -> first_at w s st j -> i = j.
Proof.
  intros (H1 & H2 & H3) (H4 & H5 & H6).
  destruct (decide (i < j)); [exfalso; apply (H6 i); [lia|done]|].
  destruct (decide (j < i)); [exfalso; apply (H3 j); [lia|done]|]. lia.
Qed.

Lemma first_at_not_absent w s st i :
  first_at w s st i -> absent_from w s st -> False.
Proof. intros (H1 & H2 & _) H. by apply (H i). Qed.

Lemma occurs_at_drop w s n i : occurs_at w (drop n s) i <-> occurs_at w s (n + i).
Proof. unfold occurs_at. by rewrite drop_drop. Qed.

(** [s.find(w, st)] either finds the first occurrence at or after [st]
    or answers [-1] because there is none. *)
Lemma find_cases w s st :
  w <> [] ->
  (find s w (Z.of_nat st) = (-1)%Z /\ absent_from w s st) \/
  (exists i, find s w (Z.of_nat st) = Z.of_nat i /\ first_at w s st i).
Proof.
  intros Hw. unfold find.
  destruct (Z.ltb_spec (Z.of_nat (length s)) (Z.of_nat st)) as [Hlt|Hge].
  - left. split; [done|]. intros j Hj Ho.
    apply occurs_at_bound in Ho; [|done].
    destruct w; [done|]. simpl in Ho. lia.
  - assert (clamp (Z.of_nat st) (length s) = st) as ->.
    { unfold clamp. destruct (Z.ltb_spec (Z.of_nat st) 0); lia. }
    destruct (index_of w (drop st s)) as [i|] eqn:E.
    + right. exists (st + i). split; [done|].
      apply index_of_Some in E as (_ & Ho & Hn).
      split; [lia|]. split; [by apply occurs_at_drop|].
      intros j Hj Hoj. apply (Hn (j - st)); [lia|].
      apply occurs_at_drop. by replace (st + (j - st)) with j by lia.
    + left. split; [done|]. apply index_of_None in E.
      intros j Hj Hoj. apply (E (j - st)); [lia|].
      apply occurs_at_drop. by replace (st + (j - st)) with j by lia.
Qed.

Lemma find_first_at w s st i :
  w <> [] -> first_at w s st i -> find s w (Z.of_nat st) = Z.of_nat i.
Proof.
  intros Hw H. destruct (find_cases w s st Hw) as [[_ Ha]|(j & -> & Hj)].
  - destruct (first_at_not_absent _ _ _ _ H Ha).
  - f_equal. eapply first_at_unique; eauto.
Qed.

Lemma find_absent w s st :
  w <> [] -> absent_from w s st -> find s w (Z.of_nat st) = (-1)%Z.
Proof.
  intros Hw H. destruct (find_cases w s st Hw) as [[-> _]|(j & _ & Hj)]; [done|].
  destruct (first_at_not_absent _ _ _ _ Hj H).
Qed.

Lemma find_found_inv w s st i :
  w <> [] -> find s w (Z.of_nat st) = Z.of_nat i -> first_at w s st i.
Proof.
  intros Hw H. destruct (find_cases w s st Hw) as [[E _]|(j & E & Hj)].
  - rewrite E in H. lia.
  - rewrite E in H. by apply Nat2Z.inj in H; subst.
Qed.

Lemma find_missing_inv w s st :
  w <> [] -> find s w (Z.of_nat st) = (-1)%Z -> absent_from w s st.
Proof.
  intros Hw H. destruct (find_cases w s st Hw) as [[_ E]|(j & E & Hj)]; [done|].
  rewrite E in H. lia.
Qed.

Lemma occurs_at_take_drop w s i :
  occurs_at w s i <-> take (length w) (drop i s) = w.
Proof. apply starts_with_take. Qed.

Lemma occurs_at_app_r w a b p :
  occurs_at w (a ++ b) (length a + p) <-> occurs_at w b p.
Proof.
  unfold occurs_at. by rewrite <- drop_drop, drop_app_length.
Qed.

Lemma occurs_at_app_l w a b p :
  p + length w <= length a ->
  occurs_at w (a ++ b) p <-> occurs_at w a p.
Proof.
  intros Hp. rewrite !occurs_at_take_drop.
  rewrite drop_app_le by lia. rewrite take_app_le; [done|].
  rewrite length_drop. lia.
Qed.

Lemma occurs_at_take w s n p :
  p + length w <= n ->
  occurs_at w (take n s) p <-> occurs_at w s p.
Proof.
  intros Hp. rewrite <- (take_drop n s) at 2.
  destruct (decide (n <= length s)).
  - rewrite occurs_at_app_l; [done|]. rewrite length_take. lia.
  - by rewrite take_ge, drop_ge, app_nil_r by lia.
Qed.

Lemma occurs_at_cat u v s p :
  occurs_at (u ++ v) s p <-> occurs_at u s p /\ occurs_at v s (p + length u).
Proof.
  unfold occurs_at. rewrite <- drop_drop.
  generalize (drop p s). clear s p. intros s. revert s.
  induction u as [|a u IH]; intros s; simpl.
  - rewrite drop_0. tauto.
  - destruct s as [|b s]; simpl; [by split; [|intros []]|].
    rewrite !andb_true_iff, IH. tauto.
Qed.

Lemma occurs_at_singleton c s p : occurs_at [c] s p <-> s !! p = Some c.
Proof.
  unfold occurs_at. rewrite <- (Nat.add_0_r p) at 2. rewrite <- lookup_drop.
  destruct (drop p s) as [|b t]; simpl; [done|].
  rewrite andb_true_r, N.eqb_eq. split; [by intros ->|by intros [= ->]].
Qed.

(** A separator character that is not in [w] splits the occurrences of
    [w]: each lies wholly before it or wholly after it. *)
Lemma occurs_at_sep w a c b p :
  w <> [] -> c ∉ w ->
  occurs_at w (a ++ c :: b) p ->
  (p + length w <= length a /\ occurs_at w a p) \/
  (length a < p /\ occurs_at w b (p - length a - 1)).
Proof.
  intros Hw Hc Ho.
  destruct (decide (p + length w <= length a)) as [Hl|Hl].
  { left. split; [done|]. by apply occurs_at_app_l in Ho. }
  destruct (decide (length a < p)) as [Hr|Hr].
  { right. split; [done|].
    replace p with (length (a ++ [c]) + (p - length a - 1)) in Ho
      by (rewrite length_app; simpl; lia).
    rewrite (cons_middle c a b), app_assoc in Ho.
    by apply occurs_at_app_r in Ho. }
  exfalso. apply Hc.
  apply occurs_at_take_drop in Ho.
  assert ((a ++ c :: b) !! length a = Some c) as Hlk
    by (by rewrite list_lookup_middle).
  assert (w !! (length a - p) = Some c) as Hw'.
  { rewrite <- Ho. rewrite lookup_take_lt by lia.
    rewrite lookup_drop. by replace (p + (length a - p)) with (length a) by lia. }
  by eapply list_elem_of_lookup_2.
Qed.

Lemma first_at_intro w s st i :
  st <= i -> occurs_at w s i ->
  (forall j, st <= j < i -> ~ occurs_at w s j) -> first_at w s st i.
Proof. by intros; repeat split. Qed.

Lemma first_at_occurs w s st i : first_at w s st i -> occurs_at w s i.
Proof. by intros (_ & ? & _). Qed.

Lemma first_at_le w s st i : first_at w s st i -> st <= i.
Proof. by intros (? & _). Qed.

(** Some occurrence at or after [st] gives a first one. *)
Lemma first_at_exists w s st i :
  w <> [] -> st <= i -> occurs_at w s i ->
  exists i', first_at w s st i' /\ i' <= i.
Proof.
  intros Hw Hi Ho.
  destruct (find_cases w s st Hw) as [[_ Ha]|(i' & _ & Hi')].
  - by destruct (Ha i Hi).
  - exists i'. split; [done|].
    destruct Hi' as (_ & _ & Hn).
    destruct (decide (i' <= i)); [done|]. destruct (Hn i); [lia|done].
Qed.

(** The first occurrence from a later start, when nothing lies between. *)
Lemma first_at_later w s st st' i :
  first_at w s st i -> st <= st' <= i -> first_at w s st' i.
Proof.
  intros (H1 & H2 & H3) Hs. repeat split; [lia|done|].
  intros j Hj. apply H3. lia.
Qed.

End Occurrences.

(** ** The matcher on the shapes the patterns are made of *)

Section Matcher.

Implicit Types w s t : str.

Lemma match_here_Lit w s :
  match_here (Lit w) s =
  if starts_with w s then Some (length w, None) else None.
Proof.
  unfold match_here. simpl. destruct (starts_with w s) eqn:E; [|done].
  apply starts_with_length in E. rewrite length_drop.
  do 2 f_equal. lia.
Qed.

Lemma search_from_Lit w s pos :
  search_from (Lit w) s pos =
  (fun i => MatchObj (pos + i) (pos + i + length w) None) <$> index_of w s.
Proof.
  revert pos. induction s as [|c s IH]; intros pos.
  - simpl. rewrite match_here_Lit.
    destruct (starts_with w []); simpl; [|done].
    by rewrite Nat.add_0_r.
  - cbn [search_from index_of]. rewrite match_here_Lit.
    destruct (starts_with w (c :: s)); simpl.
    + by rewrite Nat.add_0_r.
    + rewrite IH. destruct (index_of w s); simpl; [|done].
      do 2 f_equal; lia.
Qed.

Lemma find_0 w s :
  find s w 0 = match index_of w s with Some i => Z.of_nat i | None => (-1)%Z end.
Proof.
  unfold find. destruct (Z.ltb_spec (Z.of_nat (length s)) 0); [lia|].
  unfold clamp. simpl. by rewrite ?Nat.min_0_l, ?drop_0.
Qed.

(** Searching for a literal pattern is [find]. *)
Lemma re_search_Lit w s :
  re_search (Lit w) s =
  if (find s w 0 =? -1)%Z then None
  else Some (MatchObj (Z.to_nat (find s w 0))
               (Z.to_nat (find s w 0 + Z.of_nat (length w))) None).
Proof.
  unfold re_search. rewrite search_from_Lit, find_0.
  destruct (index_of w s) as [i|]; simpl; [|done].
  destruct (Z.eqb_spec (Z.of_nat i) (-1)); [lia|].
  f_equal. f_equal; lia.
Qed.

End Matcher.

(** ** Slices with bounds that are offsets *)

Section Slices.

Implicit Types s : str.

Lemma clamp_nat n len : clamp (Z.of_nat n) len = n `min` len.
Proof.
  unfold clamp. destruct (Z.ltb_spec (Z.of_nat n) 0); [lia|].
  by rewrite Nat2Z.id.
Qed.

Lemma slice_to_nat s n : slice_to s (Z.of_nat n) = take n s.
Proof.
  unfold slice_to. rewrite clamp_nat.
  destruct (decide (n <= length s)).
  - by rewrite Nat.min_l.
  - rewrite Nat.min_r by lia. by rewrite !take_ge by lia.
Qed.

Lemma slice_from_nat s n : slice_from s (Z.of_nat n) = drop n s.
Proof.
  unfold slice_from. rewrite clamp_nat.
  destruct (decide (n <= length s)).
  - by rewrite Nat.min_l.
  - rewrite Nat.min_r by lia. by rewrite !drop_ge by lia.
Qed.

Lemma slice_nat s a b :
  slice s (Z.of_nat a) (Z.of_nat b) = take (b - a) (drop a s).
Proof.
  unfold slice. rewrite !clamp_nat.
  destruct (decide (a <= length s)).
  - rewrite (Nat.min_l a) by lia.
    destruct (decide (b <= length s)).
    + by rewrite Nat.min_l.
    + rewrite Nat.min_r by lia.
      rewrite !take_ge; [done|rewrite length_drop; lia..].
  - rewrite (Nat.min_r a) by lia. by rewrite !drop_ge, !take_nil by lia.
Qed.

End Slices.

(** ** The tokens are not empty *)

Section Tokens.

Lemma handler_open_nonempty : handler_open <> [].
Proof. done. Qed.
Lemma literal_open_nonempty : literal_open <> [].
Proof. done. Qed.
Lemma literal_close_nonempty : literal_close <> [].
Proof. done. Qed.
Lemma closing_line_nonempty : literal_close ++ [newline] <> [].
Proof. done. Qed.
Lemma start_marker_nonempty : start_marker <> [].
Proof. done. Qed.
Lemma end_marker_nonempty : end_marker <> [].
Proof. done. Qed.
Lemma newline_nonempty : [newline] <> [].
Proof. done. Qed.

End Tokens.

(** ** The splicer, stage by stage *)

Module UpdateFacts.
Import UpdateEsp32Html UpdateStages.

(** The body of [update_esp32_html] with the search for the opening
    token written as [find]. *)
Lemma update_esp32_html_unfold ino_file html fs ino :
  fs !! ino_file = Some ino ->
  update_esp32_html ino_file html fs =
  if (find ino literal_open 0 =? -1)%Z then
    (fs, Raise (ValueError "Could not find HTML string start in ESP32 file"))
  else if (marker_pos ino =? -1)%Z then
    (fs, Raise (ValueError "Could not find end marker in ESP32 file"))
  else if (closing_pos ino =? -1)%Z then
    (fs, Raise (ValueError "Could not find HTML string end in ESP32 file"))
  else
    (<[ino_file := slice_to ino (literal_start ino) ++ [newline] ++ html ++
                   [newline] ++ slice_from ino (closing_pos ino)]> fs,
     Return tt).
Proof.
  intros Hf. unfold update_esp32_html. rewrite Hf.
  unfold start_pattern. rewrite re_search_Lit.
  destruct (Z.eqb_spec (find ino literal_open 0) (-1)) as [|Hne]; [done|].
  cbn [m_end].
  assert (0 <= find ino literal_open 0)%Z as Hpos.
  { rewrite find_0 in *. destruct (index_of literal_open ino); lia. }
  unfold closing_pos, marker_pos, literal_start.
  rewrite Z2Nat.id by lia. done.
Qed.

End UpdateFacts.

Module UpdateCases.
Import UpdateEsp32Html UpdateStages UpdateFacts.


Lemma update_cases ino_file html fs ino :
  fs !! ino_file = Some ino ->
  exists new r,
    splice ino html new r /\
    update_esp32_html ino_file html fs = (written ino_file new fs, r).
Proof.
  intros Hf. rewrite (update_esp32_html_unfold _ _ _ _ Hf).
  destruct (find_cases literal_open ino 0 literal_open_nonempty)
    as [[E Ha]|(j & E & Hj)].
  { change (Z.of_nat 0) with 0%Z in E. rewrite E. simpl.
    eexists None, _. split; [by constructor|done]. }
  change (Z.of_nat 0) with 0%Z in E.
  assert (literal_start ino = Z.of_nat (j + length literal_open)) as Hs.
  { unfold literal_start. rewrite E. lia. }
  rewrite E. destruct (Z.eqb_spec (Z.of_nat j) (-1)); [lia|].
  destruct (find_cases end_marker ino (j + length literal_open)
              end_marker_nonempty) as [[Em Ha]|(em & Em & Hem)];
    rewrite <- Hs in Em; fold (marker_pos ino) in Em.
  { rewrite Em. simpl. eexists None, _. split; [|done].
    by eapply splice_no_marker. }
  rewrite Em. destruct (Z.eqb_spec (Z.of_nat em) (-1)); [lia|].
  destruct (find_cases (literal_close ++ [newline]) ino em
              closing_line_nonempty) as [[Ec Ha]|(cp & Ec & Hcp)];
    rewrite <- Em in Ec; fold (closing_pos ino) in Ec.
  { rewrite Ec. simpl. eexists None, _. split; [|done].
    by eapply splice_no_close. }
  rewrite Ec. destruct (Z.eqb_spec (Z.of_nat cp) (-1)); [lia|].
  rewrite Hs, slice_to_nat, slice_from_nat.
  eexists (Some _), _. split; [|done].
  by eapply splice_done.
Qed.

End UpdateCases.


(** ** [strip] *)

Section Strip.

Implicit Types s t l r : str.

Lemma lstrip_blank_app l s : blank l -> lstrip (l ++ s) = lstrip s.
Proof.
  induction 1 as [|c l Hc _ IH]; simpl; [done|]. by rewrite Hc.
Qed.

Lemma lstrip_head_nonspace c t : isspace c = false -> lstrip (c :: t) = c :: t.
Proof. simpl. by intros ->. Qed.

Lemma lstrip_decomp s : exists l, s = l ++ lstrip s /\ blank l.
Proof.
  induction s as [|c s (l & E & Hl)]; simpl.
  - exists []. split; [done|constructor].
  - destruct (isspace c) eqn:Hc.
    + exists (c :: l). split; [simpl; by f_equal|by constructor].
    + exists []. split; [done|constructor].
Qed.

Lemma lstrip_first s c t : lstrip s = c :: t -> isspace c = false.
Proof.
  induction s as [|b s IH]; simpl; [done|].
  destruct (isspace b) eqn:Hb; [done|]. by intros [= <- _].
Qed.

Lemma lstrip_snoc_nonspace s c :
  isspace c = false -> lstrip (s ++ [c]) = lstrip s ++ [c].
Proof.
  intros Hc. induction s as [|b s IH]; simpl.
  - by rewrite Hc.
  - by destruct (isspace b).
Qed.

Lemma blank_reverse l : blank l -> blank (reverse l).
Proof. unfold blank. by rewrite Forall_reverse. Qed.

Lemma rstrip_app_blank s r : blank r -> rstrip (s ++ r) = rstrip s.
Proof.
  intros Hr. unfold rstrip. rewrite reverse_app.
  by rewrite lstrip_blank_app by by apply blank_reverse.
Qed.

Lemma rstrip_snoc_nonspace s c : isspace c = false -> rstrip (s ++ [c]) = s ++ [c].
Proof.
  intros Hc. unfold rstrip. rewrite reverse_snoc.
  rewrite lstrip_head_nonspace by done.
  by rewrite reverse_cons, reverse_involutive.
Qed.

Lemma rstrip_nil : rstrip [] = [].
Proof. done. Qed.

Lemma rstrip_decomp s : exists r, s = rstrip s ++ r /\ blank r.
Proof.
  unfold rstrip. destruct (lstrip_decomp (reverse s)) as (l & E & Hl).
  exists (reverse l). split; [|by apply blank_reverse].
  rewrite <- reverse_app, <- E. by rewrite reverse_involutive.
Qed.

Lemma rstrip_last s c u : rstrip s = u ++ [c] -> isspace c = false.
Proof.
  unfold rstrip. intros H.
  apply (f_equal reverse) in H.
  rewrite reverse_involutive, reverse_snoc in H.
  by apply lstrip_first in H.
Qed.

Lemma rstrip_cons_nonspace c s :
  isspace c = false -> rstrip (c :: s) = c :: rstrip s.
Proof.
  intros Hc. unfold rstrip. rewrite reverse_cons.
  rewrite lstrip_snoc_nonspace by done.
  by rewrite reverse_snoc.
Qed.

Lemma trimmed_nil : trimmed [].
Proof. split; intros c u H; [done|]. by destruct u. Qed.

(** A string framed by whitespace strips to its trimmed middle. *)
Lemma strip_unique l t r :
  blank l -> blank r -> trimmed t -> strip (l ++ t ++ r) = t.
Proof.
  intros Hl Hr [Hh Ht]. unfold strip. rewrite lstrip_blank_app by done.
  destruct t as [|c t].
  - simpl. destruct (lstrip_decomp r) as (l' & E & Hl').
    assert (lstrip r = []) as ->.
    { destruct (lstrip r) as [|b u] eqn:Eb; [done|].
      apply lstrip_first in Eb. rewrite E in Hr.
      apply Forall_app in Hr as [_ Hr]. inversion Hr; congruence. }
    done.
  - rewrite <- app_comm_cons, lstrip_head_nonspace by eauto.
    rewrite app_comm_cons, rstrip_app_blank by done.
    destruct (exists_last (l:=c :: t)) as (u & b & E); [done|].
    rewrite E. apply rstrip_snoc_nonspace. eauto.
Qed.

Lemma strip_trimmed s : trimmed (strip s).
Proof.
  unfold strip. split.
  - intros c u E. destruct (lstrip s) as [|b t] eqn:El; [done|].
    pose proof (lstrip_first _ _ _ El) as Hb.
    rewrite rstrip_cons_nonspace in E by done. by injection E as <- _.
  - intros c u E. by apply rstrip_last in E.
Qed.

Lemma strip_decomp s :
  exists l r, s = l ++ strip s ++ r /\ blank l /\ blank r.
Proof.
  destruct (lstrip_decomp s) as (l & El & Hl).
  destruct (rstrip_decomp (lstrip s)) as (r & Er & Hr).
  exists l, r. unfold strip. by rewrite <- Er.
Qed.

Lemma strip_id t : trimmed t -> strip t = t.
Proof.
  intros Ht. rewrite <- (app_nil_r t) at 1.
  by apply (strip_unique [] t []); [constructor|constructor|].
Qed.

Lemma strip_idemp s : strip (strip s) = strip s.
Proof. apply strip_id, strip_trimmed. Qed.

Lemma occurs_at_lookup w s i k :
  occurs_at w s i -> k < length w -> s !! (i + k) = w !! k.
Proof.
  intros Ho%occurs_at_take_drop Hk.
  rewrite <- lookup_drop, <- (lookup_take_lt _ (length w)) by done.
  by rewrite Ho.
Qed.

Lemma blank_lookup l i c : blank l -> l !! i = Some c -> isspace c = true.
Proof.
  intros Hl Hi. unfold blank in Hl. rewrite Forall_lookup in Hl. eauto.
Qed.

(** A token that begins and ends with a visible character and occurs in
    a string framed by whitespace occurs in the middle. *)
Lemma occurs_at_framed w l t r i :
  w <> [] -> trimmed w -> blank l -> blank r ->
  occurs_at w (l ++ t ++ r) i ->
  length l <= i /\ occurs_at w t (i - length l).
Proof.
  intros Hw [Hh Ht] Hl Hr Ho.
  destruct w as [|c w']; [done|]. clear Hw.
  assert (length l <= i) as Hi.
  { destruct (decide (length l <= i)); [done|]. exfalso.
    pose proof (occurs_at_lookup _ _ _ 0 Ho ltac:(simpl; lia)) as Hk.
    rewrite Nat.add_0_r, lookup_app_l in Hk by lia. simpl in Hk.
    apply (blank_lookup _ _ _ Hl) in Hk. rewrite (Hh c w') in Hk; done. }
  split; [done|].
  replace i with (length l + (i - length l)) in Ho by lia.
  apply occurs_at_app_r in Ho.
  destruct (decide (i - length l + length (c :: w') <= length t)) as [Hb|Hb].
  { by apply occurs_at_app_l in Ho. }
  exfalso.
  destruct (exists_last (l:=c :: w')) as (u & b & E); [done|].
  rewrite E in *. rewrite length_app in Hb. simpl in Hb.
  pose proof (occurs_at_lookup _ _ _ (length u) Ho
    ltac:(rewrite length_app; simpl; lia)) as Hk.
  rewrite lookup_app_r in Hk by lia.
  rewrite list_lookup_middle in Hk by done.
  apply (blank_lookup _ _ _ Hr) in Hk. rewrite (Ht b u) in Hk; done.
Qed.

Lemma absent_from_framed w l t r :
  absent_from w (l ++ t ++ r) 0 -> absent_from w t 0.
Proof.
  intros H i _ Ho. apply (H (length l + i)); [lia|].
  apply occurs_at_app_r.
  destruct (decide (w = [])) as [->|Hw].
  - unfold occurs_at. by destruct (drop i (t ++ r)).
  - pose proof (occurs_at_bound _ _ _ Hw Ho). by apply occurs_at_app_l.
Qed.

End Strip.

(** ** The update operation *)

Module UpdateProofs.
Import UpdateEsp32Html UpdateStages UpdateFacts UpdateCases Samples.

Lemma update_success_inv ino_file html fs ino fs' :
  fs !! ino_file = Some ino ->
  update_esp32_html ino_file html fs = (fs', Return tt) ->
  exists j em cp,
    first_at literal_open ino 0 j /\
    first_at end_marker ino (j + length literal_open) em /\
    first_at (literal_close ++ [newline]) ino em cp /\
    fs' = <[ino_file := take (j + length literal_open) ino ++ [newline] ++
                        html ++ [newline] ++ drop cp ino]> fs.
Proof.
  intros Hf Hu.
  destruct (update_cases ino_file html fs ino Hf) as (new & r & Hs & E).
  rewrite E in Hu. injection Hu as <- ->.
  inversion Hs; subst. by exists j, em, cp.
Qed.

Lemma update_success_intro ino_file html fs ino j em cp :
  fs !! ino_file = Some ino ->
  first_at literal_open ino 0 j ->
  first_at end_marker ino (j + length literal_open) em ->
  first_at (literal_close ++ [newline]) ino em cp ->
  update_esp32_html ino_file html fs =
  (<[ino_file := take (j + length literal_open) ino ++ [newline] ++
                 html ++ [newline] ++ drop cp ino]> fs, Return tt).
Proof.
  intros Hf Hj Hem Hcp.
  destruct (update_cases ino_file html fs ino Hf) as (new & r & Hs & ->).
  inversion Hs; subst.
  - destruct (first_at_not_absent _ _ _ _ Hj); done.
  - pose proof (first_at_unique _ _ _ _ _ Hj H) as <-.
    destruct (first_at_not_absent _ _ _ _ Hem); done.
  - pose proof (first_at_unique _ _ _ _ _ Hj H) as <-.
    pose proof (first_at_unique _ _ _ _ _ Hem H1) as <-.
    destruct (first_at_not_absent _ _ _ _ Hcp); done.
  - pose proof (first_at_unique _ _ _ _ _ Hj H) as <-.
    pose proof (first_at_unique _ _ _ _ _ Hem H1) as <-.
    pose proof (first_at_unique _ _ _ _ _ Hcp H3) as <-.
    done.
Qed.

Lemma update_raise_unchanged ino_file html fs fs' e :
  update_esp32_html ino_file html fs = (fs', Raise e) -> fs' = fs.
Proof.
  destruct (fs !! ino_file) as [ino|] eqn:Hf.
  - destruct (update_cases ino_file html fs ino Hf) as (new & r & Hs & ->).
    intros [= <- ->]. by inversion Hs.
  - unfold update_esp32_html. rewrite Hf. by intros [= <- _].
Qed.

(** No closing token followed by a newline, said with [find] and said
    position by position. *)
Lemma no_closing_line ino em :
  find ino (literal_close ++ [newline]) (Z.of_nat em) = (-1)%Z <->
  forall i, em <= i -> occurs_at literal_close ino i ->
            ino !! (i + length literal_close) <> Some newline.
Proof.
  split.
  - intros H%find_missing_inv; [|done]. intros i Hi Ho Hn.
    apply (H i Hi). apply occurs_at_cat. split; [done|].
    by apply occurs_at_singleton.
  - intros H. apply find_absent; [done|]. intros i Hi Ho.
    apply occurs_at_cat in Ho as [Ho Hn]. apply (H i Hi Ho).
    by apply occurs_at_singleton.
Qed.

(** C10: the splicer looks for the closing token and statement
    terminator followed by a newline.  On a firmware document that has
    the opening token, the end marker after it and the closing token
    with its terminator after the marker, but no such closing token is
    immediately followed by a newline, the splicer raises the
    pattern-not-found error for the string end and leaves the file
    system as it was. *)
Theorem closing_token_needs_newline ino_file html fs ino :
  fs !! ino_file = Some ino ->
  find ino literal_open 0 <> (-1)%Z ->
  marker_pos ino <> (-1)%Z ->
  find ino literal_close (marker_pos ino) <> (-1)%Z ->
  (forall i, (marker_pos ino <= Z.of_nat i)%Z ->
             occurs_at literal_close ino i ->
             ino !! (i + length literal_close) <> Some newline) ->
  update_esp32_html ino_file html fs =
  (fs, Raise (ValueError "Could not find HTML string end in ESP32 file")).
Proof.
  intros Hf Ho Hm _ Hn.
  destruct (update_cases ino_file html fs ino Hf) as (new & r & Hs & ->).
  inversion Hs; subst; try done. exfalso.
  destruct H3 as (Hle & Hocc & _).
  apply occurs_at_cat in Hocc as [Hc Hnl].
  apply (Hn cp); [lia|done|]. by apply occurs_at_singleton.
Qed.

Lemma closing_token_needs_newline_witness :
  update_esp32_html ino_path (lit "x") fs_no_newline =
  (fs_no_newline,
   Raise (ValueError "Could not find HTML string end in ESP32 file")).
Proof.
  apply (closing_token_needs_newline ino_path (lit "x") fs_no_newline
           ino_no_newline).
  - reflexivity.
  - vm_compute. discriminate.
  - vm_compute. discriminate.
  - vm_compute. discriminate.
  - intros i Hi.
    apply (proj1 (no_closing_line ino_no_newline 38)); [by vm_compute|].
    assert (marker_pos ino_no_newline = 38%Z) as E by (by vm_compute).
    rewrite E in Hi. lia.
Defined.

Lemma main_success_inv fs standalone ino fs' out :
  fs !! standalone_path = Some standalone ->
  fs !! ino_path = Some ino ->
  main fs = (fs', out, 0%Z) ->
  update_esp32_html ino_path (strip standalone) fs = (fs', Return tt).
Proof.
  intros Hs Hi. unfold main, extract_html_content. rewrite Hs.
  destruct (update_esp32_html ino_path (strip standalone) fs)
    as [fs1 [[]|e]]; by intros [= <- _].
Qed.

Lemma main_success_intro fs standalone fs' :
  fs !! standalone_path = Some standalone ->
  update_esp32_html ino_path (strip standalone) fs = (fs', Return tt) ->
  main fs =
  (fs', [Extracting; Extracted (length (strip standalone)); Updating;
         Updated; ShouldBeSynchronized], 0%Z).
Proof.
  intros Hs Hu. unfold main, extract_html_content. by rewrite Hs, Hu.
Qed.

(** The document around the spliced body: everything up to the end of
    the opening token and everything from the closing token on. *)
Lemma splice_frame ino j em cp :
  first_at literal_open ino 0 j ->
  first_at end_marker ino (j + length literal_open) em ->
  first_at (literal_close ++ [newline]) ino em cp ->
  let body := take (cp - (j + length literal_open))
                (drop (j + length literal_open) ino) in
  let rest := drop (cp + length (literal_close ++ [newline])) ino in
  take (j + length literal_open) ino = take j ino ++ literal_open /\
  drop cp ino = literal_close ++ [newline] ++ rest /\
  ino = take j ino ++ literal_open ++ body ++ literal_close ++ [newline] ++ rest /\
  length body = cp - (j + length literal_open) /\
  j + length literal_open <= em <= cp.
Proof.
  intros (_ & Ho & _) (Hle1 & _ & _) (Hle2 & Hc & _) body rest.
  apply occurs_at_split in Ho as [Eo Hlo]; [|done].
  apply occurs_at_split in Hc as [Ec Hlc]; [|done].
  assert (take (j + length literal_open) ino = take j ino ++ literal_open) as E1.
  { rewrite Eo at 1. rewrite take_app_add'; [|rewrite length_take; lia].
    by rewrite take_app_length. }
  assert (drop cp ino = literal_close ++ [newline] ++ rest) as E2.
  { rewrite Ec at 1. rewrite drop_app_length'; [|rewrite length_take; lia].
    by rewrite <- app_assoc. }
  assert (length body = cp - (j + length literal_open)) as E3.
  { unfold body. rewrite length_take, length_drop. lia. }
  split; [done|]. split; [done|]. split; [|split; [done|lia]].
  rewrite <- E2. rewrite (app_assoc (take j ino)), <- E1.
  rewrite <- (take_drop (j + length literal_open) ino) at 1. f_equal.
  unfold body. rewrite <- (take_drop (cp - (j + length literal_open))
    (drop (j + length literal_open) ino)) at 1.
  f_equal. rewrite drop_drop. f_equal. lia.
Qed.

Lemma trimmed_by_ends t a b :
  head t = Some a -> last t = Some b ->
  isspace a = false -> isspace b = false -> trimmed t.
Proof.
  intros Hh Hl Ha Hb. split; intros c u ->.
  - simpl in Hh. congruence.
  - rewrite last_snoc in Hl. congruence.
Qed.

Lemma trimmed_end_marker : trimmed end_marker.
Proof. by apply (trimmed_by_ends _ 60%N 62%N). Qed.

Lemma newline_not_in_close : newline ∉ literal_close.
Proof.
  intros H. repeat (apply elem_of_cons in H as [H|H]; [done|]).
  by apply elem_of_nil in H.
Qed.

Lemma paths_differ : ino_path <> standalone_path.
Proof. done. Qed.

(** The firmware document the splicer writes, by its parts. *)
Lemma spliced_open a html suffix :
  first_at literal_open (a ++ literal_open) 0 (length a) ->
  first_at literal_open (a ++ literal_open ++ [newline] ++ html ++ suffix) 0
    (length a).
Proof.
  intros (_ & _ & Hn). apply first_at_intro; [lia|apply occurs_at_app|].
  intros j Hj Ho. apply (Hn j Hj).
  rewrite app_assoc in Ho. apply occurs_at_app_l in Ho; [done|].
  rewrite length_app. lia.
Qed.

Lemma first_open_prefix ino j :
  first_at literal_open ino 0 j ->
  first_at literal_open (take j ino ++ literal_open) 0 (length (take j ino)).
Proof.
  intros (_ & Ho & Hn).
  pose proof (occurs_at_bound _ _ _ literal_open_nonempty Ho) as Hb.
  apply occurs_at_split in Ho as [E _]; [|done].
  assert (length (take j ino) = j) as Hl by (rewrite length_take; lia).
  apply first_at_intro; [lia| |].
  - rewrite <- (app_nil_r literal_open). apply occurs_at_app.
  - intros i Hi Hoi. apply (Hn i); [lia|].
    rewrite E, app_assoc. apply occurs_at_app_l; [|done].
    rewrite length_app. lia.
Qed.

(** In the spliced text, no closing token begins inside the new body
    when the new body has none. *)
Lemma spliced_close html rest p :
  absent_from literal_close html 0 ->
  occurs_at literal_close
    ([newline] ++ html ++ [newline] ++ literal_close ++ rest) p ->
  length html + 2 <= p.
Proof.
  intros Ha Ho.
  apply (occurs_at_sep _ [] newline) in Ho
    as [[Hl _]|[_ Ho]]; [| |done|apply newline_not_in_close].
  { simpl in Hl. lia. }
  simpl in Ho.
  apply (occurs_at_sep _ html newline) in Ho
    as [[_ Ho]|[Hl _]]; [| |done|apply newline_not_in_close].
  - destruct (Ha _ ltac:(lia) Ho).
  - lia.
Qed.

End UpdateProofs.

(** ** Running the update twice *)

Module UpdateTwice.
Import UpdateEsp32Html UpdateStages UpdateFacts UpdateCases UpdateProofs.
Import Samples MoreSamples.

Lemma newline_not_in_marker : newline ∉ end_marker.
Proof.
  intros H. repeat (apply elem_of_cons in H as [H|H]; [done|]).
  by apply elem_of_nil in H.
Qed.

Lemma marker_not_at_close suffix :
  ~ occurs_at end_marker (literal_close ++ suffix) 0.
Proof. done. Qed.

(** An end marker that begins in the spliced text no later than the
    closing token lies inside the new body. *)
Lemma spliced_marker_inv pre T suffix e :
  occurs_at end_marker
    (pre ++ [newline] ++ T ++ [newline] ++ literal_close ++ suffix) e ->
  length pre <= e <= length pre + length T + 2 ->
  exists m, e = length pre + 1 + m /\ occurs_at end_marker T m.
Proof.
  intros Ho He.
  replace e with (length pre + (e - length pre)) in Ho by lia.
  apply occurs_at_app_r in Ho.
  apply (occurs_at_sep _ [] newline) in Ho
    as [[Hl _]|[Hl Ho]]; [| |done|apply newline_not_in_marker].
  { assert (length end_marker = 58) by done. simpl in Hl. lia. }
  cbn [length] in Hl, Ho.
  apply (occurs_at_sep _ T newline) in Ho
    as [[Hb Ho]|[Hl2 Ho]]; [| |done|apply newline_not_in_marker].
  - exists (e - length pre - 0 - 1). split; [lia|done].
  - replace (e - length pre - 0 - 1 - length T - 1) with 0 in Ho by lia.
    by apply marker_not_at_close in Ho.
Qed.

Lemma spliced_marker_intro pre T suffix m :
  occurs_at end_marker T m ->
  occurs_at end_marker (pre ++ [newline] ++ T ++ suffix) (length pre + 1 + m).
Proof.
  intros Ho.
  pose proof (occurs_at_bound _ _ _ end_marker_nonempty Ho) as Hb.
  replace (length pre + 1 + m)
    with (length pre + (length [newline] + m)) by (simpl; lia).
  apply occurs_at_app_r. apply (occurs_at_app_r _ [newline]).
  by apply occurs_at_app_l.
Qed.

(** A closing token with its line end that begins in the spliced text
    before the old closing token lies inside the new body and the line
    feed after it. *)
Lemma spliced_closing_inv pre T rest c :
  occurs_at (literal_close ++ [newline])
    (pre ++ [newline] ++ T ++ [newline] ++
     literal_close ++ [newline] ++ rest) c ->
  length pre <= c < length pre + length T + 2 ->
  exists i, c = length pre + 1 + i /\
            occurs_at (literal_close ++ [newline]) (T ++ [newline]) i.
Proof.
  intros Ho Hc.
  pose proof Ho as Hlc. apply occurs_at_cat in Hlc as [Hlc _].
  replace c with (length pre + (c - length pre)) in Hlc by lia.
  apply occurs_at_app_r in Hlc.
  apply (occurs_at_sep _ [] newline) in Hlc
    as [[Hl _]|[Hl Hlc]]; [| |done|apply newline_not_in_close].
  { assert (length literal_close = 3) by done. simpl in Hl. lia. }
  cbn [length] in Hl, Hlc.
  apply (occurs_at_sep _ T newline) in Hlc
    as [[Hb _]|[Hl2 _]]; [|lia|done|apply newline_not_in_close].
  assert (length literal_close = 3) as H3 by done. rewrite H3 in Hb.
  exists (c - length pre - 1). split; [lia|].
  assert (pre ++ [newline] ++ T ++ [newline] ++
          literal_close ++ [newline] ++ rest =
          (pre ++ [newline]) ++ (T ++ [newline]) ++
          literal_close ++ [newline] ++ rest) as E
    by (by rewrite <- !app_assoc).
  rewrite E in Ho.
  replace c with (length (pre ++ [newline]) + (c - length pre - 1)) in Ho
    by (rewrite length_app; simpl; lia).
  apply occurs_at_app_r in Ho. apply occurs_at_app_l in Ho; [done|].
  rewrite !length_app. simpl. lia.
Qed.

Lemma spliced_closing_intro pre T suffix i :
  occurs_at (literal_close ++ [newline]) (T ++ [newline]) i ->
  occurs_at (literal_close ++ [newline])
    (pre ++ [newline] ++ T ++ [newline] ++ suffix) (length pre + 1 + i).
Proof.
  intros Ho.
  pose proof (occurs_at_bound _ _ _ closing_line_nonempty Ho) as Hb.
  replace (length pre + 1 + i)
    with (length pre + (length [newline] + i)) by (simpl; lia).
  apply occurs_at_app_r. apply (occurs_at_app_r _ [newline]).
  rewrite (app_assoc T). by apply occurs_at_app_l.
Qed.

(** The second and third search of a second run, when the new body has
    an end marker and, from the first one on, no closing token at the
    end of a line. *)
Lemma second_run_finds pre T rest m :
  first_at end_marker T 0 m ->
  absent_from (literal_close ++ [newline]) (T ++ [newline]) m ->
  first_at end_marker
    (pre ++ [newline] ++ T ++ [newline] ++
     literal_close ++ [newline] ++ rest) (length pre) (length pre + 1 + m) /\
  first_at (literal_close ++ [newline])
    (pre ++ [newline] ++ T ++ [newline] ++
     literal_close ++ [newline] ++ rest)
    (length pre + 1 + m) (length pre + length T + 2).
Proof.
  intros (_ & Hm & Hfirst) Ha.
  pose proof (occurs_at_bound _ _ _ end_marker_nonempty Hm) as Hb.
  assert (length end_marker = 58) as H58 by done.
  split.
  - apply first_at_intro; [lia|by apply spliced_marker_intro|].
    intros e He Ho.
    apply spliced_marker_inv in Ho as (m' & -> & Ho); [|lia].
    apply (Hfirst m'); [lia|done].
  - apply first_at_intro; [lia| |].
    + assert (pre ++ [newline] ++ T ++ [newline] ++
              literal_close ++ [newline] ++ rest =
              (pre ++ [newline] ++ T ++ [newline]) ++
              (literal_close ++ [newline]) ++ rest) as ->
        by (by rewrite <- !app_assoc).
      replace (length pre + length T + 2)
        with (length (pre ++ [newline] ++ T ++ [newline]))
        by (rewrite !length_app; simpl; lia).
      apply occurs_at_app.
    + intros c Hc Ho.
      apply spliced_closing_inv in Ho as (i & -> & Ho); [|lia].
      apply (Ha i); [lia|done].
Qed.

(** Conversely, a second run whose third search stops at the old
    closing token found its end marker inside the new body, and no
    closing token at the end of a line from there on. *)
Lemma second_run_found pre T rest em1 :
  first_at end_marker
    (pre ++ [newline] ++ T ++ [newline] ++
     literal_close ++ [newline] ++ rest) (length pre) em1 ->
  first_at (literal_close ++ [newline])
    (pre ++ [newline] ++ T ++ [newline] ++
     literal_close ++ [newline] ++ rest) em1 (length pre + length T + 2) ->
  exists m,
    first_at end_marker T 0 m /\
    absent_from (literal_close ++ [newline]) (T ++ [newline]) m.
Proof.
  intros (Hle & Ho & Hfirst) (Hle2 & _ & Hnone).
  apply spliced_marker_inv in Ho as (m & -> & Hm); [|lia].
  exists m. split.
  - apply first_at_intro; [lia|done|]. intros m' Hm' Ho.
    apply (Hfirst (length pre + 1 + m')); [lia|].
    by apply spliced_marker_intro.
  - intros i Hi Ho.
    pose proof (occurs_at_bound _ _ _ closing_line_nonempty Ho) as Hb.
    rewrite !length_app in Hb. simpl in Hb.
    apply (Hnone (length pre + 1 + i)); [lia|].
    by apply spliced_closing_intro.
Qed.

(** The condition on the new body, said with [find]. *)
Lemma body_condition T :
  (exists m,
     first_at end_marker T 0 m /\
     absent_from (literal_close ++ [newline]) (T ++ [newline]) m) <->
  find T end_marker 0 <> (-1)%Z /\
  find (T ++ [newline]) (literal_close ++ [newline]) (find T end_marker 0)
    = (-1)%Z.
Proof.
  split.
  - intros (m & Hm & Ha).
    pose proof (find_first_at _ _ _ _ end_marker_nonempty Hm) as E.
    change (Z.of_nat 0) with 0%Z in E. rewrite E. split; [lia|].
    by apply find_absent.
  - intros [Hf Hc].
    destruct (find_cases end_marker T 0 end_marker_nonempty)
      as [[E _]|(m & E & Hm)]; change (Z.of_nat 0) with 0%Z in E; [done|].
    exists m. split; [done|]. rewrite E in Hc.
    by apply find_missing_inv in Hc.
Qed.

(** What the first run leaves behind. *)
Lemma first_run fs standalone fs1 out :
  fs !! standalone_path = Some standalone ->
  main fs = (fs1, out, 0%Z) ->
  exists pre rest j,
    length pre = j + length literal_open /\
    first_at literal_open
      (pre ++ [newline] ++ strip standalone ++ [newline] ++
       literal_close ++ [newline] ++ rest) 0 j /\
    fs1 = <[ino_path := pre ++ [newline] ++ strip standalone ++ [newline] ++
                        literal_close ++ [newline] ++ rest]> fs /\
    out = [Extracting; Extracted (length (strip standalone)); Updating;
           Updated; ShouldBeSynchronized].
Proof.
  intros Hs Hrun.
  destruct (fs !! ino_path) as [ino|] eqn:Hi; cycle 1.
  { unfold main, extract_html_content, update_esp32_html in Hrun.
    by rewrite Hs, Hi in Hrun. }
  pose proof (main_success_inv _ _ _ _ _ Hs Hi Hrun) as Hu.
  pose proof (main_success_intro _ _ _ Hs Hu) as Hrun'.
  rewrite Hrun in Hrun'. injection Hrun' as ->.
  apply (update_success_inv _ _ _ _ _ Hi) in Hu
    as (j & em & cp & Hj & Hem & Hcp & ->).
  destruct (splice_frame ino j em cp Hj Hem Hcp) as (E1 & E2 & _ & _ & _).
  assert (length (take j ino) = j) as Hla.
  { rewrite length_take. destruct Hj as (_ & Ho & _).
    apply occurs_at_bound in Ho; [lia|done]. }
  exists (take j ino ++ literal_open),
    (drop (cp + length (literal_close ++ [newline])) ino), j.
  split; [rewrite length_app; lia|]. split; [|split; [|done]].
  - pose proof (first_open_prefix ino j Hj) as Hp.
    rewrite Hla in Hp. rewrite <- !app_assoc.
    rewrite <- Hla at 2. apply (spliced_open (take j ino)). by rewrite Hla.
  - by rewrite E1, E2.
Qed.

(** C3, amended: let the update operation succeed once.  Running it
    again with the standalone document unchanged succeeds and leaves the
    firmware document as the first run left it exactly when the
    standalone content, trimmed as it is spliced, contains the sync end
    marker and, from its first end marker on, no literal-closing token
    with its statement terminator at the end of a line or at the very
    end of the content.  When it does, every file and every printed
    line is as after the first run. *)
Theorem update_twice fs standalone fs1 out :
  fs !! standalone_path = Some standalone ->
  main fs = (fs1, out, 0%Z) ->
  (find (strip standalone) end_marker 0 <> (-1)%Z /\
   find (strip standalone ++ [newline]) (literal_close ++ [newline])
     (find (strip standalone) end_marker 0) = (-1)%Z ->
   main fs1 = (fs1, out, 0%Z)) /\
  ((main fs1).2 = 0%Z ->
   (main fs1).1.1 !! ino_path = fs1 !! ino_path ->
   find (strip standalone) end_marker 0 <> (-1)%Z /\
   find (strip standalone ++ [newline]) (literal_close ++ [newline])
     (find (strip standalone) end_marker 0) = (-1)%Z).
Proof.
  intros Hs Hrun.
  destruct (first_run _ _ _ _ Hs Hrun) as (pre & rest & j & Hlp & Hj1 & -> & ->).
  set (T := strip standalone) in *.
  set (ino1 := pre ++ [newline] ++ T ++ [newline] ++
               literal_close ++ [newline] ++ rest) in *.
  assert ((<[ino_path := ino1]> fs) !! standalone_path = Some standalone)
    as Hs1 by (by rewrite lookup_insert_ne by apply paths_differ).
  assert ((<[ino_path := ino1]> fs) !! ino_path = Some ino1) as Hi1
    by apply lookup_insert_eq.
  assert (drop (length pre + length T + 2) ino1 =
          literal_close ++ [newline] ++ rest) as Hdrop.
  { unfold ino1.
    rewrite !(app_assoc _ _ (literal_close ++ [newline] ++ rest)).
    rewrite drop_app_length'; [done|]. rewrite !length_app. simpl. lia. }
  assert (take (j + length literal_open) ino1 = pre) as Htake.
  { rewrite <- Hlp. unfold ino1. by rewrite take_app_length. }
  split.
  - intros (m & Hm & Ha)%body_condition.
    destruct (second_run_finds pre T rest m Hm Ha) as [Hem1 Hcp1].
    fold ino1 in Hem1, Hcp1. rewrite Hlp in Hem1. rewrite Hlp in Hcp1 at 1.
    rewrite (main_success_intro _ _ (<[ino_path := ino1]> fs) Hs1); [done|].
    fold T.
    rewrite (update_success_intro _ _ _ ino1 j _ _ Hi1 Hj1 Hem1 Hcp1).
    f_equal. rewrite insert_insert_eq. f_equal.
    by rewrite Htake, Hdrop.
  - intros Hret Hsame. apply body_condition.
    destruct (main (<[ino_path := ino1]> fs)) as [[fs2 out2] ret] eqn:Hrun2.
    cbn [fst snd] in Hret, Hsame. subst ret.
    pose proof (main_success_inv _ _ _ _ _ Hs1 Hi1 Hrun2) as Hu. fold T in Hu.
    apply (update_success_inv _ _ _ _ _ Hi1) in Hu
      as (j1 & em1 & cp1 & Hj & Hem1 & Hcp1 & ->).
    pose proof (first_at_unique _ _ _ _ _ Hj Hj1) as ->.
    rewrite lookup_insert_eq, Hi1 in Hsame. apply (inj Some) in Hsame.
    rewrite Htake in Hsame. unfold ino1 in Hsame at 2.
    do 4 apply app_inv_head in Hsame.
    assert (cp1 = length pre + length T + 2) as ->.
    { pose proof (first_at_occurs _ _ _ _ Hcp1) as Ho.
      apply occurs_at_bound in Ho; [|done].
      assert (length (drop cp1 ino1) =
              length (drop (length pre + length T + 2) ino1)) as Hl
        by (by rewrite Hdrop, Hsame).
      rewrite !length_drop in Hl.
      assert (length pre + length T + 2 <= length ino1)
        by (unfold ino1; rewrite !length_app; simpl; lia).
      lia. }
    rewrite <- Hlp in Hem1.
    by apply (second_run_found pre T rest em1).
Qed.

Lemma update_twice_witness :
  main (main fs_sample).1.1 =
  ((main fs_sample).1.1, (main fs_sample).1.2, 0%Z).
Proof.
  apply (update_twice fs_sample standalone_sample).
  - reflexivity.
  - by vm_compute.
  - split; [vm_compute; discriminate|by vm_compute].
Defined.

(** C3 as stated fails in two ways.  With the standalone document
    [standalone_plain], which lacks the end marker, the first run
    succeeds and replaces the literal body, end marker included; the
    second run then ends in the error exit.  With the standalone
    document [standalone_closing], where a line after the end marker
    ends with the closing token and the statement terminator, both runs
    succeed, and the second one leaves another firmware document than
    the first. *)
Lemma second_update_fails :
  ((main fs_plain).2 = 0%Z /\
   main (main fs_plain).1.1 =
     ((main fs_plain).1.1,
      [Extracting; Extracted 12; Updating;
       Error (ValueError "Could not find end marker in ESP32 file")],
      1%Z)) /\
  ((main fs_closing).2 = 0%Z /\
   (main (main fs_closing).1.1).2 = 0%Z /\
   (main (main fs_closing).1.1).1.1 !! ino_path <>
     (main fs_closing).1.1 !! ino_path).
Proof.
  split; [split; by vm_compute|].
  split; [by vm_compute|]. split; [by vm_compute|].
  vm_compute. discriminate.
Qed.

End UpdateTwice.

(** ** The quantifiers of the matcher *)

Section Quantifiers.

Context {A : Type}.
Implicit Types (s t : str) (K : str -> option A).

Lemma lazy_any_hit K s a : K s = Some a -> lazy anychar s K = Some a.
Proof. intros H. destruct s; simpl; by rewrite H. Qed.

Lemma lazy_any_skip K s n :
  n <= length s -> (forall i, i < n -> K (drop i s) = None) ->
  lazy anychar s K = lazy anychar (drop n s) K.
Proof.
  revert s. induction n as [|n IH]; intros s Hn HK.
  - by rewrite drop_0.
  - destruct s as [|c s]; simpl in Hn; [lia|].
    cbn [lazy]. rewrite (HK 0 ltac:(lia) : K (c :: s) = None).
    cbn [anychar drop].
    apply IH; [lia|]. intros i Hi. apply (HK (S i)). lia.
Qed.

Lemma lazy_any_miss K s :
  (forall i, i <= length s -> K (drop i s) = None) -> lazy anychar s K = None.
Proof.
  induction s as [|c s IH]; intros HK.
  - cbn [lazy]. by rewrite (HK 0 ltac:(done) : K [] = None).
  - cbn [lazy]. rewrite (HK 0 ltac:(lia) : K (c :: s) = None).
    cbn [anychar].
    apply IH. intros i Hi. apply (HK (S i)). simpl. lia.
Qed.

(** The lazy star stops at the first suffix the rest of the pattern
    accepts. *)
Lemma lazy_any_first K s n a :
  n <= length s -> (forall i, i < n -> K (drop i s) = None) ->
  K (drop n s) = Some a -> lazy anychar s K = Some a.
Proof.
  intros Hn HK Ha. rewrite (lazy_any_skip K s n Hn HK).
  by apply lazy_any_hit.
Qed.

(** The greedy star first hands over what is left after the longest run
    of whitespace. *)
Lemma greedy_space_hit K s a :
  K (lstrip s) = Some a -> greedy isspace s K = Some a.
Proof.
  induction s as [|c s IH]; simpl; [done|].
  destruct (isspace c); [|done]. intros H. by rewrite (IH H).
Qed.

Lemma greedy_miss p K s :
  (forall i, i <= length s -> K (drop i s) = None) -> greedy p s K = None.
Proof.
  induction s as [|c s IH]; intros HK.
  - apply (HK 0). done.
  - cbn [greedy]. rewrite IH.
    + destruct (p c); apply (HK 0); simpl; lia.
    + intros i Hi. apply (HK (S i)). simpl. lia.
Qed.

(** Whitespace followed by a token that begins with a visible
    character: the whitespace run is taken whole. *)
Lemma greedy_space_token K w s :
  (forall c u, w = c :: u -> isspace c = false) -> w <> [] ->
  greedy isspace s (fun t => if starts_with w t then K t else None) =
  if starts_with w (lstrip s) then K (lstrip s) else None.
Proof.
  intros Hw Hne. induction s as [|c s IH]; [done|].
  cbn [greedy lstrip]. destruct (isspace c) eqn:Hc; [|done].
  rewrite IH.
  assert (starts_with w (c :: s) = false) as ->.
  { destruct w as [|b u]; [done|]. simpl.
    destruct (N.eqb_spec b c) as [->|]; [|done].
    rewrite (Hw c u) in Hc; done. }
  by destruct (starts_with w (lstrip s)), (K (lstrip s)).
Qed.

End Quantifiers.

(** ** Offsets in a suffix *)

Section Shift.

Implicit Types w s : str.

Lemma first_at_drop w s n st i :
  first_at w (drop n s) st i <-> first_at w s (n + st) (n + i).
Proof.
  unfold first_at. rewrite occurs_at_drop. split.
  - intros (H1 & H2 & H3). split; [lia|]. split; [done|].
    intros j Hj Ho. apply (H3 (j - n)); [lia|].
    apply occurs_at_drop. by replace (n + (j - n)) with j by lia.
  - intros (H1 & H2 & H3). split; [lia|]. split; [done|].
    intros j Hj Ho%occurs_at_drop. apply (H3 (n + j)); [lia|done].
Qed.

Lemma absent_from_drop w s n st :
  absent_from w (drop n s) st <-> absent_from w s (n + st).
Proof.
  unfold absent_from. split.
  - intros H j Hj Ho. apply (H (j - n)); [lia|].
    apply occurs_at_drop. by replace (n + (j - n)) with j by lia.
  - intros H j Hj Ho%occurs_at_drop. apply (H (n + j)); [lia|done].
Qed.

Lemma absent_from_later w s st st' :
  absent_from w s st -> st <= st' -> absent_from w s st'.
Proof. intros H Hs j Hj. apply H. lia. Qed.

(** After any whitespace, [w] begins: so [w] occurs past a blank run. *)
Lemma starts_after_space w s :
  starts_with w (lstrip s) = true ->
  exists q, occurs_at w s q /\ blank (take q s).
Proof.
  intros H. destruct (lstrip_decomp s) as (l & E & Hl).
  assert (drop (length l) s = lstrip s) as Ed
    by (rewrite E at 1; by rewrite drop_app_length).
  assert (take (length l) s = l) as Et
    by (rewrite E at 1; by rewrite take_app_length).
  exists (length l). unfold occurs_at. by rewrite Ed, Et.
Qed.

Lemma search_from_skip r s pos n :
  n <= length s -> (forall i, i < n -> match_here r (drop i s) = None) ->
  search_from r s pos = search_from r (drop n s) (pos + n).
Proof.
  revert s pos. induction n as [|n IH]; intros s pos Hn Hm.
  - by rewrite drop_0, Nat.add_0_r.
  - destruct s as [|c s]; simpl in Hn; [lia|].
    cbn [search_from]. rewrite (Hm 0 ltac:(lia) : match_here r (c :: s) = None).
    cbn [drop]. rewrite IH; [f_equal; lia|lia|].
    intros i Hi. apply (Hm (S i)). lia.
Qed.

Lemma search_from_hit r s pos m g :
  match_here r s = Some (m, g) ->
  search_from r s pos = Some (MatchObj pos (pos + m) g).
Proof. intros H. destruct s; cbn [search_from]; by rewrite H. Qed.

Lemma search_from_miss r s pos :
  (forall i, i <= length s -> match_here r (drop i s) = None) ->
  search_from r s pos = None.
Proof.
  revert pos. induction s as [|c s IH]; intros pos Hm.
  - cbn [search_from]. by rewrite (Hm 0 ltac:(done) : match_here r [] = None).
  - cbn [search_from]. rewrite (Hm 0 ltac:(lia) : match_here r (c :: s) = None).
    apply IH. intros i Hi. apply (Hm (S i)). simpl. lia.
Qed.

End Shift.

(** ** The pattern of the firmware extractor *)

Module ExtractorMatch.
Import SyncCheck.

Local Abbreviation closing := (Star isspace >> Lit literal_close)%re.
Local Abbreviation body := (Star isspace >> Group (Lazy anychar) >> closing)%re.
Local Abbreviation opening := (Lazy anychar >> Lit literal_open >> body)%re.

Lemma literal_close_head c u : literal_close = c :: u -> isspace c = false.
Proof. by intros [= <- _]. Qed.

Lemma lstrip_close rest :
  lstrip (literal_close ++ rest) = literal_close ++ rest.
Proof. reflexivity. Qed.

Section Continuation.

Context {A : Type}.
Implicit Types (k : str -> option str -> option A) (g : option str).

Lemma closing_match v g k :
  rmatch closing A v g k =
  if starts_with literal_close (lstrip v)
  then k (drop (length literal_close) (lstrip v)) g else None.
Proof.
  cbn [rmatch].
  apply (greedy_space_token
           (fun t => k (drop (length literal_close) t) g) literal_close).
  - apply literal_close_head.
  - done.
Qed.

Lemma body_unfold u g k :
  rmatch body A u g k =
  greedy isspace u (fun t =>
    lazy anychar t (fun t0 =>
      rmatch closing A t0 (Some (take (length t - length t0) t)) k)).
Proof. reflexivity. Qed.

Lemma opening_unfold s g k :
  rmatch opening A s g k =
  lazy anychar s (fun t =>
    if starts_with literal_open t
    then rmatch body A (drop (length literal_open) t) g k else None).
Proof. reflexivity. Qed.

Lemma closing_after_blank r rest g k :
  blank r ->
  rmatch closing A (r ++ literal_close ++ rest) g k = k rest g.
Proof.
  intros Hr. rewrite closing_match, lstrip_blank_app by done.
  rewrite lstrip_close.
  by rewrite starts_with_app, drop_app_length.
Qed.

(** The body of the literal: the group is the text up to the first
    closing token, without the whitespace at its ends. *)
Lemma body_found u n g k a :
  first_at literal_close u 0 n ->
  k (drop (n + length literal_close) u) (Some (strip (take n u))) = Some a ->
  rmatch body A u g k = Some a.
Proof.
  intros (_ & Ho & Hfirst) Hk.
  apply occurs_at_split in Ho as [Eu Hn]; [|done].
  set (rest := drop (n + length literal_close) u) in *.
  destruct (lstrip_decomp (take n u)) as (l & El & Hl).
  destruct (rstrip_decomp (lstrip (take n u))) as (r & Er & Hr).
  fold (strip (take n u)) in Er. set (T := strip (take n u)) in *.
  pose proof (strip_trimmed (take n u)) as [HTh HTl]. fold T in HTh, HTl.
  assert (length (take n u) = n) as Hlen by (rewrite length_take; lia).
  assert (u = l ++ T ++ r ++ literal_close ++ rest) as Eu'.
  { rewrite Eu at 1. rewrite El at 1. rewrite Er. by rewrite <- !app_assoc. }
  assert (lstrip u = T ++ r ++ literal_close ++ rest) as Els.
  { rewrite Eu' at 1. rewrite lstrip_blank_app by done.
    destruct T as [|c T'].
    - cbn [app] in *. destruct r as [|b r'].
      + exact (lstrip_close rest).
      + apply lstrip_first in Er. inversion Hr; congruence.
    - rewrite <- app_comm_cons. apply lstrip_head_nonspace. eauto. }
  rewrite body_unfold. apply greedy_space_hit. rewrite Els.
  apply (lazy_any_first _ _ (length T)).
  - rewrite length_app. lia.
  - intros i Hi. rewrite closing_match.
    destruct (starts_with literal_close
                (lstrip (drop i (T ++ r ++ literal_close ++ rest)))) eqn:E;
      [|done].
    exfalso. apply starts_after_space in E as (q & Hq & Hb).
    apply occurs_at_drop in Hq.
    assert (occurs_at literal_close u (length l + (i + q))) as Hu.
    { rewrite Eu'. by apply occurs_at_app_r. }
    assert (n <= length l + (i + q)) as Hge.
    { destruct (decide (n <= length l + (i + q))); [done|].
      destruct (Hfirst (length l + (i + q))); [lia|done]. }
    assert (n = length l + length T + length r) as En.
    { rewrite <- Hlen. rewrite El at 1. rewrite Er.
      rewrite !length_app. lia. }
    destruct (exists_last (l:=T)) as (T' & b & ET);
      [by intros ->; simpl in Hi; lia|].
    assert (isspace b = true) as Hsp.
    { apply (blank_lookup _ (length T' - i) _ Hb).
      rewrite lookup_take_lt; cycle 1.
      { rewrite ET, length_app in *. simpl in *. lia. }
      rewrite lookup_drop, ET.
      rewrite ET, length_app in Hi. simpl in Hi.
      replace (i + (length T' - i)) with (length T') by lia.
      rewrite lookup_app_l by (rewrite length_app; simpl; lia).
      by rewrite list_lookup_middle. }
    by rewrite (HTl b T') in Hsp.
  - rewrite drop_app_length, closing_after_blank by done.
    rewrite (length_app T).
    replace (length T + length (r ++ literal_close ++ rest) -
             length (r ++ literal_close ++ rest)) with (length T) by lia.
    by rewrite take_app_length.
Qed.

Lemma body_missing u g k :
  absent_from literal_close u 0 -> rmatch body A u g k = None.
Proof.
  intros Ha. rewrite body_unfold. apply greedy_miss. intros i _.
  apply lazy_any_miss. intros i' _. rewrite closing_match.
  destruct (starts_with literal_close (lstrip (drop i' (drop i u)))) eqn:E;
    [|done].
  apply starts_after_space in E as (q & Hq & _).
  rewrite !occurs_at_drop in Hq. by destruct (Ha _ ltac:(lia) Hq).
Qed.

(** From just after the handler opening: the first literal-opening
    token, then the body. *)
Lemma opening_found s j n g k a :
  first_at literal_open s 0 j ->
  first_at literal_close s (j + length literal_open) n ->
  k (drop (n + length literal_close) s)
    (Some (strip (take (n - (j + length literal_open))
                    (drop (j + length literal_open) s)))) = Some a ->
  rmatch opening A s g k = Some a.
Proof.
  intros (_ & Ho & Hfirst) Hn Hk. rewrite opening_unfold.
  pose proof (occurs_at_bound _ _ _ literal_open_nonempty Ho) as Hb.
  apply (lazy_any_first _ _ j); [lia| |].
  - intros i Hi.
    destruct (starts_with literal_open (drop i s)) eqn:E; [|done].
    destruct (Hfirst i); [lia|done].
  - unfold occurs_at in Ho. rewrite Ho, drop_drop.
    pose proof (first_at_le _ _ _ _ Hn) as Hle.
    apply (body_found _ (n - (j + length literal_open))).
    + apply first_at_drop. rewrite Nat.add_0_r.
      by replace (j + length literal_open + (n - (j + length literal_open)))
        with n by lia.
    + rewrite drop_drop.
      by replace (j + length literal_open +
                  (n - (j + length literal_open) + length literal_close))
        with (n + length literal_close) by lia.
Qed.

Lemma opening_missing s g k :
  absent_from literal_open s 0 \/
  (exists j, first_at literal_open s 0 j /\
             absent_from literal_close s (j + length literal_open)) ->
  rmatch opening A s g k = None.
Proof.
  intros H. rewrite opening_unfold. apply lazy_any_miss. intros i _.
  destruct (starts_with literal_open (drop i s)) eqn:E; [|done].
  destruct H as [Ha|(j & (_ & _ & Hfirst) & Ha)].
  - by destruct (Ha i ltac:(lia)).
  - assert (j <= i) as Hji.
    { destruct (decide (j <= i)); [done|]. destruct (Hfirst i); [lia|done]. }
    rewrite drop_drop. apply body_missing.
    apply absent_from_drop. eapply absent_from_later; [done|lia].
Qed.

End Continuation.

Lemma match_here_pattern s :
  match_here pattern s =
  if starts_with handler_open s
  then rmatch opening _ (drop (length handler_open) s) None
         (fun t g => Some (length s - length t, g))
  else None.
Proof. reflexivity. Qed.

(** The search takes the leftmost handler opening, then the nearest
    literal opening, then the nearest closing token. *)
Lemma search_pattern_found content i j n :
  first_at handler_open content 0 i ->
  first_at literal_open content (i + length handler_open) j ->
  first_at literal_close content (j + length literal_open) n ->
  re_search pattern content =
  Some (MatchObj i (n + length literal_close)
          (Some (strip (take (n - (j + length literal_open))
                          (drop (j + length literal_open) content))))).
Proof.
  intros (_ & Hi & Hfirst) Hj Hn.
  pose proof (occurs_at_bound _ _ _ handler_open_nonempty Hi) as Hbi.
  pose proof (first_at_le _ _ _ _ Hj) as Hlej.
  pose proof (first_at_le _ _ _ _ Hn) as Hlen.
  pose proof (occurs_at_bound _ _ _ literal_close_nonempty
                (first_at_occurs _ _ _ _ Hn)) as Hbn.
  unfold re_search. rewrite (search_from_skip _ _ _ i); [|lia|].
  2:{ intros i' Hi'. rewrite match_here_pattern.
      destruct (starts_with handler_open (drop i' content)) eqn:E; [|done].
      destruct (Hfirst i'); [lia|done]. }
  rewrite (search_from_hit _ _ _ (n + length literal_close - i)
             (Some (strip (take (n - (j + length literal_open))
                             (drop (j + length literal_open) content))))).
  { f_equal. f_equal. lia. }
  rewrite match_here_pattern. unfold occurs_at in Hi. rewrite Hi.
  rewrite drop_drop.
  apply (opening_found _ (j - (i + length handler_open))
           (n - (i + length handler_open))).
  - apply first_at_drop. rewrite Nat.add_0_r.
    by replace (i + length handler_open + (j - (i + length handler_open)))
      with j by lia.
  - apply first_at_drop.
    replace (i + length handler_open +
             (j - (i + length handler_open) + length literal_open))
      with (j + length literal_open) by lia.
    by replace (i + length handler_open + (n - (i + length handler_open)))
      with n by lia.
  - rewrite !drop_drop.
    replace (i + length handler_open +
             (n - (i + length handler_open) + length literal_close))
      with (n + length literal_close) by lia.
    replace (i + length handler_open +
             (j - (i + length handler_open) + length literal_open))
      with (j + length literal_open) by lia.
    replace (n - (i + length handler_open) -
             (j - (i + length handler_open) + length literal_open))
      with (n - (j + length literal_open)) by lia.
    rewrite !length_drop. do 2 f_equal. lia.
Qed.

Lemma search_pattern_missing content :
  absent_from handler_open content 0 \/
  (exists i, first_at handler_open content 0 i /\
             absent_from literal_open content (i + length handler_open)) \/
  (exists i j, first_at handler_open content 0 i /\
               first_at literal_open content (i + length handler_open) j /\
               absent_from literal_close content (j + length literal_open)) ->
  re_search pattern content = None.
Proof.
  intros H. apply search_from_miss. intros i' _. rewrite match_here_pattern.
  destruct (starts_with handler_open (drop i' content)) eqn:E; [|done].
  rewrite drop_drop.
  destruct H as [Ha|[(i & (_ & _ & Hfirst) & Ha)
                    |(i & j & (_ & _ & Hfirst) & (_ & _ & Hfj) & Ha)]].
  - by destruct (Ha i' ltac:(lia)).
  - assert (i <= i') as Hle.
    { destruct (decide (i <= i')); [done|]. destruct (Hfirst i'); [lia|done]. }
    apply opening_missing. left. apply absent_from_drop.
    eapply absent_from_later; [done|lia].
  - assert (i <= i') as Hle.
    { destruct (decide (i <= i')); [done|]. destruct (Hfirst i'); [lia|done]. }
    apply opening_missing.
    destruct (find_cases literal_open (drop (i' + length handler_open) content)
                0 literal_open_nonempty) as [[_ Hab]|(j' & _ & Hj')];
      [by left|right].
    exists j'. split; [done|].
    apply absent_from_drop. eapply absent_from_later; [done|].
    destruct Hj' as (_ & Ho%occurs_at_drop & _).
    assert (j <= i' + length handler_open + j'); [|lia].
    destruct (decide (j <= i' + length handler_open + j')); [done|].
    destruct (Hfj (i' + length handler_open + j')); [lia|done].
Qed.

End ExtractorMatch.

(** ** The check operation: the two extractors *)

Module ExtractProofs.
Import SyncCheck ExtractorMatch Samples.

Lemma pattern_occurrence_offsets content a b body rest :
  pattern_occurrence content a b body rest ->
  occurs_at handler_open content (length a) /\
  occurs_at literal_open content (length a + length handler_open + length b) /\
  occurs_at literal_close content
    (length a + length handler_open + length b + length literal_open +
     length body).
Proof.
  unfold pattern_occurrence. intros ->. split; [apply occurs_at_app|].
  split.
  - replace (length a + length handler_open + length b)
      with (length (a ++ handler_open ++ b))
      by (rewrite !length_app; lia).
    assert (a ++ handler_open ++ b ++ literal_open ++ body ++
            literal_close ++ rest =
            (a ++ handler_open ++ b) ++ literal_open ++
            (body ++ literal_close ++ rest)) as ->
      by (by rewrite <- !app_assoc).
    apply occurs_at_app.
  - replace (length a + length handler_open + length b +
             length literal_open + length body)
      with (length (a ++ handler_open ++ b ++ literal_open ++ body))
      by (rewrite !length_app; lia).
    assert (a ++ handler_open ++ b ++ literal_open ++ body ++
            literal_close ++ rest =
            (a ++ handler_open ++ b ++ literal_open ++ body) ++
            literal_close ++ rest) as ->
      by (by rewrite <- !app_assoc).
    apply occurs_at_app.
Qed.

(** What the search of the firmware pattern finds, decided by three
    [find]s. *)
Lemma search_pattern_cases content :
  (re_search pattern content = None /\
   ~ exists a b body rest, pattern_occurrence content a b body rest) \/
  (exists a b body rest,
     first_occurrence content a b body rest /\
     re_search pattern content =
     Some (MatchObj (length a)
             (length a + length handler_open + length b +
              length literal_open + length body + length literal_close)
             (Some (strip body)))).
Proof.
  destruct (find_cases handler_open content 0 handler_open_nonempty)
    as [[_ Hah]|(i & _ & Hi)].
  { left. split; [apply search_pattern_missing; by left|].
    intros (a & b & body & rest & Ho).
    apply pattern_occurrence_offsets in Ho as (Ho & _).
    by destruct (Hah (length a) ltac:(lia)). }
  destruct (find_cases literal_open content (i + length handler_open)
              literal_open_nonempty) as [[_ Hao]|(j & _ & Hj)].
  { left. split; [apply search_pattern_missing; right; left; by exists i|].
    intros (a & b & body & rest & Ho).
    apply pattern_occurrence_offsets in Ho as (Hh & Ho & _).
    destruct Hi as (_ & _ & Hfirst).
    assert (i <= length a) as Hle.
    { destruct (decide (i <= length a)); [done|].
      destruct (Hfirst (length a)); [lia|done]. }
    by destruct (Hao (length a + length handler_open + length b) ltac:(lia)). }
  destruct (find_cases literal_close content (j + length literal_open)
              literal_close_nonempty) as [[_ Hac]|(n & _ & Hn)].
  { left. split.
    { apply search_pattern_missing; right; right. by exists i, j. }
    intros (a & b & body & rest & Ho).
    apply pattern_occurrence_offsets in Ho as (Hh & Ho & Hc).
    destruct Hi as (_ & _ & Hfirst). destruct Hj as (_ & _ & Hfj).
    assert (i <= length a) as Hle.
    { destruct (decide (i <= length a)); [done|].
      destruct (Hfirst (length a)); [lia|done]. }
    assert (j <= length a + length handler_open + length b) as Hlej.
    { destruct (decide (j <= length a + length handler_open + length b));
        [done|].
      destruct (Hfj (length a + length handler_open + length b)); [lia|done]. }
    by destruct (Hac (length a + length handler_open + length b +
                      length literal_open + length body) ltac:(lia)). }
  right.
  pose proof (occurs_at_bound _ _ _ handler_open_nonempty
                (first_at_occurs _ _ _ _ Hi)) as Hbi.
  pose proof (occurs_at_bound _ _ _ literal_open_nonempty
                (first_at_occurs _ _ _ _ Hj)) as Hbj.
  pose proof (occurs_at_bound _ _ _ literal_close_nonempty
                (first_at_occurs _ _ _ _ Hn)) as Hbn.
  pose proof (first_at_le _ _ _ _ Hj) as Hlej.
  pose proof (first_at_le _ _ _ _ Hn) as Hlen.
  set (a := take i content).
  set (b := take (j - (i + length handler_open))
              (drop (i + length handler_open) content)).
  set (body := take (n - (j + length literal_open))
                 (drop (j + length literal_open) content)).
  set (rest := drop (n + length literal_close) content).
  assert (length a = i) as Ha by (unfold a; rewrite length_take; lia).
  assert (length b = j - (i + length handler_open)) as Hb
    by (unfold b; rewrite length_take, length_drop; lia).
  assert (length body = n - (j + length literal_open)) as Hbody
    by (unfold body; rewrite length_take, length_drop; lia).
  exists a, b, body, rest. unfold first_occurrence.
  replace (length a + length handler_open + length b) with j by lia.
  replace (j + length literal_open + length body) with n by lia.
  rewrite Ha.
  split; [|by apply search_pattern_found].
  split; [|done].
  unfold pattern_occurrence.
  apply first_at_occurs, occurs_at_take_drop in Hi, Hj, Hn.
  rewrite <- (take_drop i content) at 1. fold a. f_equal.
  rewrite <- (take_drop (length handler_open) (drop i content)) at 1.
  rewrite Hi. f_equal. rewrite drop_drop.
  rewrite <- (take_drop (j - (i + length handler_open))
                (drop (i + length handler_open) content)) at 1.
  fold b. f_equal. rewrite drop_drop.
  replace (i + length handler_open + (j - (i + length handler_open)))
    with j by lia.
  rewrite <- (take_drop (length literal_open) (drop j content)) at 1.
  rewrite Hj. f_equal. rewrite drop_drop.
  rewrite <- (take_drop (n - (j + length literal_open))
                (drop (j + length literal_open) content)) at 1.
  fold body. f_equal. rewrite drop_drop.
  replace (j + length literal_open + (n - (j + length literal_open)))
    with n by lia.
  rewrite <- (take_drop (length literal_close) (drop n content)) at 1.
  rewrite Hn. f_equal. by rewrite drop_drop.
Qed.





Lemma find_absent_0 w s :
  w <> [] -> absent_from w s 0 -> find s w 0 = (-1)%Z.
Proof. exact (find_absent w s 0). Qed.

Lemma find_first_at_0 w s i :
  w <> [] -> first_at w s 0 i -> find s w 0 = Z.of_nat i.
Proof. exact (find_first_at w s 0 i). Qed.

Lemma find_found_inv_0 w s i :
  w <> [] -> find s w 0 = Z.of_nat i -> first_at w s 0 i.
Proof. exact (find_found_inv w s 0 i). Qed.

(** C7: when both sentinels occur in the standalone document (the start
    sentinel first at offset [s], the end sentinel first at offset [e],
    [s] before [e]) and a newline follows the start sentinel's first
    occurrence (the first one at offset [n]), the standalone extractor
    succeeds and returns the text from just after that newline up to
    just before offset [e], trimmed of leading and trailing whitespace;
    when either sentinel is absent it reports the missing markers and
    returns nothing. *)
Theorem extract_html_from_standalone_between_markers fs content :
  fs !! standalone_path = Some content ->
  (absent_from start_marker content 0 \/ absent_from end_marker content 0 ->
   extract_html_from_standalone fs = ([MarkersNotFound], None)) /\
  (forall s e n,
     first_at start_marker content 0 s ->
     first_at end_marker content 0 e ->
     s < e ->
     first_at [newline] content s n ->
     extract_html_from_standalone fs =
     ([], Some (strip (take (e - (n + 1)) (drop (n + 1) content))))).
Proof.
  intros Hf. unfold extract_html_from_standalone. rewrite Hf. split.
  - intros [Ha|Ha].
    + by rewrite (find_absent_0 _ _ start_marker_nonempty Ha).
    + rewrite (find_absent_0 _ _ end_marker_nonempty Ha).
      by rewrite orb_true_r.
  - intros s e n Hs He _ Hn.
    rewrite (find_first_at_0 _ _ s start_marker_nonempty Hs).
    rewrite (find_first_at_0 _ _ e end_marker_nonempty He).
    destruct (Z.eqb_spec (Z.of_nat s) (-1)); [lia|].
    destruct (Z.eqb_spec (Z.of_nat e) (-1)); [lia|].
    cbn [orb].
    rewrite (find_first_at _ _ s n newline_nonempty Hn).
    replace (Z.of_nat n + 1)%Z with (Z.of_nat (n + 1)) by lia.
    by rewrite slice_nat.
Qed.

Lemma extract_html_from_standalone_between_markers_witness :
  extract_html_from_standalone fs_sample = ([], Some (lit "<p>new</p>")).
Proof.
  apply (extract_html_from_standalone_between_markers fs_sample
           standalone_sample eq_refl) with (s := 7) (e := 79) (n := 67).
  - apply find_found_inv_0; [done|by vm_compute].
  - apply find_found_inv_0; [done|by vm_compute].
  - lia.
  - apply find_found_inv; [done|by vm_compute].
Defined.

End ExtractProofs.

(** ** Update, then extract *)

Module RoundTrip.
Import UpdateEsp32Html UpdateStages UpdateFacts UpdateCases UpdateProofs.
Import SyncCheck ExtractorMatch ExtractProofs Samples.

(** The handler opening and the literal opening cannot overlap: the
    first character of the literal opening is not in the handler
    opening. *)
Lemma handler_before_open s h j :
  occurs_at handler_open s h -> occurs_at literal_open s j -> h < j ->
  h + length handler_open <= j.
Proof.
  intros Hh Hj Hlt.
  destruct (decide (h + length handler_open <= j)) as [|Hn]; [done|].
  exfalso.
  pose proof (occurs_at_lookup _ _ _ (j - h) Hh ltac:(lia)) as E1.
  pose proof (occurs_at_lookup _ _ _ 0 Hj ltac:(cbv; lia)) as E2.
  replace (h + (j - h)) with j in E1 by lia. rewrite Nat.add_0_r in E2.
  rewrite E2 in E1. symmetry in E1.
  apply list_elem_of_lookup_2 in E1.
  revert E1. clear. intros H.
  repeat (apply elem_of_cons in H as [H|H]; [done|]).
  by apply elem_of_nil in H.
Qed.

Lemma absent_raw_close s :
  absent_from raw_close s 0 -> absent_from literal_close s 0.
Proof.
  intros H i Hi Ho. apply (H i Hi).
  unfold literal_close in Ho. by apply occurs_at_cat in Ho as [Ho _].
Qed.

Lemma blank_newline : blank [newline].
Proof. by repeat constructor. Qed.

(** The round trip under the weaker condition that the standalone
    document has no closing token followed by the terminator. *)
Lemma round_trip_general fs standalone ino fs1 out h j :
  fs !! standalone_path = Some standalone ->
  fs !! ino_path = Some ino ->
  absent_from literal_close standalone 0 ->
  first_at handler_open ino 0 h ->
  first_at literal_open ino 0 j ->
  h < j ->
  UpdateEsp32Html.main fs = (fs1, out, 0%Z) ->
  extract_html_from_ino fs1 = ([], Some (strip standalone)).
Proof.
  intros Hs Hi Hc Hh Hj Hlt Hrun.
  pose proof (main_success_inv _ _ _ _ _ Hs Hi Hrun) as Hu.
  apply (update_success_inv _ _ _ _ _ Hi) in Hu
    as (j' & em & cp & Hj' & Hem & Hcp & ->).
  pose proof (first_at_unique _ _ _ _ _ Hj Hj') as <-.
  destruct (splice_frame ino j em cp Hj Hem Hcp) as (E1 & E2 & _ & _ & _).
  set (T := strip standalone) in *.
  set (a := take j ino) in *.
  set (rest := drop (cp + length (literal_close ++ [newline])) ino) in *.
  set (pre := a ++ literal_open) in *.
  pose proof (occurs_at_bound _ _ _ literal_open_nonempty
                (first_at_occurs _ _ _ _ Hj)) as Hbj.
  assert (length a = j) as Hla by (unfold a; rewrite length_take; lia).
  assert (length pre = j + length literal_open) as Hlp
    by (unfold pre; rewrite length_app; lia).
  rewrite E1, E2.
  set (ino1 := pre ++ [newline] ++ T ++ [newline] ++
               literal_close ++ [newline] ++ rest).
  destruct (strip_decomp standalone) as (l & r & ES & Hl & Hr). fold T in ES.
  assert (absent_from literal_close T 0) as HcT.
  { rewrite ES in Hc. by apply absent_from_framed in Hc. }
  pose proof (handler_before_open _ _ _ (first_at_occurs _ _ _ _ Hh)
                (first_at_occurs _ _ _ _ Hj) Hlt) as Hhj.
  (* the three tokens the extractor looks for, in the new document *)
  assert (forall i, i + length handler_open <= j ->
            occurs_at handler_open ino1 i <-> occurs_at handler_open ino i)
    as Hsame.
  { intros i Hi'. unfold ino1. rewrite occurs_at_app_l by lia.
    fold pre in E1. rewrite <- E1. apply occurs_at_take. lia. }
  assert (first_at handler_open ino1 0 h) as Hh1.
  { destruct Hh as (_ & Ho & Hn). apply first_at_intro; [lia| |].
    - by apply Hsame.
    - intros i Hi' Ho'. apply (Hn i Hi'). apply Hsame; [lia|done]. }
  assert (first_at literal_open ino1 (h + length handler_open) j) as Hj1.
  { apply (first_at_later _ _ 0); [|lia].
    pose proof (first_open_prefix ino j Hj) as Hp. fold a in Hp.
    rewrite <- Hla. unfold ino1, pre. rewrite <- !app_assoc.
    by apply (spliced_open a T). }
  assert (first_at literal_close ino1 (j + length literal_open)
            (length pre + length T + 2)) as Hc1.
  { apply first_at_intro; [lia| |].
    - unfold ino1.
      assert (pre ++ [newline] ++ T ++ [newline] ++
              literal_close ++ [newline] ++ rest =
              (pre ++ [newline] ++ T ++ [newline]) ++
              literal_close ++ [newline] ++ rest) as ->
        by (by rewrite <- !app_assoc).
      replace (length pre + length T + 2)
        with (length (pre ++ [newline] ++ T ++ [newline]))
        by (rewrite !length_app; simpl; lia).
      apply occurs_at_app.
    - intros i Hi' Ho.
      replace i with (length pre + (i - length pre)) in Ho by lia.
      apply occurs_at_app_r in Ho.
      apply spliced_close in Ho; [lia|done]. }
  unfold extract_html_from_ino. rewrite lookup_insert_eq.
  rewrite (search_pattern_found ino1 h j _ Hh1 Hj1 Hc1).
  unfold group1. cbn [m_group1 from_option id].
  rewrite strip_idemp. do 2 f_equal.
  rewrite <- Hlp. unfold ino1. rewrite drop_app_length.
  replace (length pre + length T + 2 - length pre)
    with (length ([newline] ++ T ++ [newline]))
    by (rewrite !length_app; simpl; lia).
  assert ([newline] ++ T ++ [newline] ++ literal_close ++ [newline] ++ rest =
          ([newline] ++ T ++ [newline]) ++ literal_close ++ [newline] ++ rest)
    as -> by (by rewrite <- !app_assoc).
  rewrite take_app_length.
  apply strip_unique; [apply blank_newline..|apply strip_trimmed].
Qed.

(** C2, amended: for a standalone document that contains no raw-string
    close token and a firmware document whose first handler opening
    precedes its first literal opening, when the update operation
    succeeds, the firmware extractor run on the rewritten firmware
    document returns the standalone content trimmed of leading and
    trailing whitespace. *)
Theorem update_then_extract fs standalone ino fs1 out :
  fs !! standalone_path = Some standalone ->
  fs !! ino_path = Some ino ->
  find standalone raw_close 0 = (-1)%Z ->
  (0 <= find ino handler_open 0 < find ino literal_open 0)%Z ->
  UpdateEsp32Html.main fs = (fs1, out, 0%Z) ->
  extract_html_from_ino fs1 = ([], Some (strip standalone)).
Proof.
  intros Hs Hi Hc Hh Hrun.
  destruct (find_cases handler_open ino 0 handler_open_nonempty)
    as [[E _]|(h & Eh & Hh')]; change (Z.of_nat 0) with 0%Z in *; [lia|].
  destruct (find_cases literal_open ino 0 literal_open_nonempty)
    as [[E _]|(j & Ej & Hj')]; change (Z.of_nat 0) with 0%Z in *; [lia|].
  apply (round_trip_general fs standalone ino fs1 out h j);
    try done; [|lia].
  apply absent_raw_close. by apply (find_missing_inv _ _ 0).
Qed.

Lemma update_then_extract_witness :
  extract_html_from_ino (UpdateEsp32Html.main fs_sample).1.1 =
  ([], Some (strip standalone_sample)).
Proof.
  apply (update_then_extract fs_sample standalone_sample ino_sample _
           (UpdateEsp32Html.main fs_sample).1.2).
  - reflexivity.
  - reflexivity.
  - by vm_compute.
  - by vm_compute.
  - by vm_compute.
Defined.

(** C2 as stated fails: the splicer succeeds on [ino_no_handler], whose
    literal stands outside any handler routine, and the firmware
    extractor then finds no match in the rewritten document. *)
Lemma extract_after_update_fails :
  find standalone_sample raw_close 0 = (-1)%Z /\
  (UpdateEsp32Html.main fs_no_handler).2 = 0%Z /\
  extract_html_from_ino (UpdateEsp32Html.main fs_no_handler).1.1 =
    ([InoPatternNotFound], None).
Proof. repeat split; by vm_compute. Qed.

End RoundTrip.

(** ** The comparator *)

Module CompareProofs.
Import SyncCheck Samples.

Lemma first_difference_Some a b k i :
  first_difference a b k = Some i ->
  k <= i /\ i - k < length a /\ i - k < length b /\
  a !! (i - k) <> b !! (i - k) /\
  forall j, j < i - k -> a !! j = b !! j.
Proof.
  revert b k. induction a as [|x a IH]; intros [|y b] k; simpl; try done.
  destruct (N.eqb_spec x y) as [->|Hne].
  - intros H. apply IH in H as (H1 & H2 & H3 & H4 & H5).
    replace (i - k) with (S (i - S k)) by lia. simpl.
    split; [lia|]. split; [lia|]. split; [lia|]. split; [done|].
    intros [|j] Hj; simpl; [done|]. apply H5. lia.
  - intros [= <-]. rewrite Nat.sub_diag. simpl.
    split; [lia|]. split; [lia|]. split; [lia|].
    split; [congruence|]. intros j Hj. lia.
Qed.

Lemma first_difference_None a b k :
  first_difference a b k = None -> a `prefix_of` b \/ b `prefix_of` a.
Proof.
  revert b k. induction a as [|x a IH]; intros [|y b] k; simpl.
  - intros _. by left.
  - intros _. left. apply prefix_nil.
  - intros _. right. apply prefix_nil.
  - destruct (N.eqb_spec x y) as [->|Hne]; [|done].
    intros H. apply IH in H as [H|H]; [left|right]; by apply prefix_cons.
Qed.

Lemma prefix_lookup_agree (a b : list N) i :
  a `prefix_of` b \/ b `prefix_of` a ->
  i < length a -> i < length b -> a !! i = b !! i.
Proof.
  intros [[k ->]|[k ->]] Ha Hb.
  - by rewrite lookup_app_l.
  - by rewrite lookup_app_l.
Qed.

(** C9: when the two normalised texts differ, the comparator's verdict
    is failure and it reports both lengths.  Its scan then finds the
    smallest index, below both lengths, where the texts differ, and
    reports from each text the window that begins at most 50 characters
    before that index and ends at most 50 characters after it; or one
    text is a prefix of the other, no index of the overlap differs, and
    nothing is reported after the two lengths. *)
Theorem compare_html_mismatch fs out1 out2 standalone_html ino_html ns ni :
  extract_html_from_standalone fs = (out1, Some standalone_html) ->
  extract_html_from_ino fs = (out2, Some ino_html) ->
  ns = normalize_html standalone_html ->
  ni = normalize_html ino_html ->
  ns <> ni ->
  exists diagnostic,
    compare_html fs =
      ([Checking; Rule] ++ out1 ++ out2 ++
       [NotSynchronized; StandaloneLength (length ns); InoLength (length ni)]
       ++ diagnostic, false) /\
    ((exists i,
        i < length ns /\ i < length ni /\ ns !! i <> ni !! i /\
        (forall j, j < i -> ns !! j = ni !! j) /\
        ~ (ns `prefix_of` ni \/ ni `prefix_of` ns) /\
        i - (i - 50) <= 50 /\ (length ns `min` (i + 50)) - i <= 50 /\
        diagnostic =
          [FirstDifference i;
           StandaloneContext
             (take ((length ns `min` (i + 50)) - (i - 50)) (drop (i - 50) ns));
           InoContext
             (take ((length ns `min` (i + 50)) - (i - 50)) (drop (i - 50) ni))])
     \/
     ((ns `prefix_of` ni \/ ni `prefix_of` ns) /\
      length ns <> length ni /\
      (forall i, i < length ns -> i < length ni -> ns !! i = ni !! i) /\
      diagnostic = [])).
Proof.
  intros H1 H2 -> -> Hne. unfold compare_html. rewrite H1, H2.
  destruct (decide (normalize_html standalone_html = normalize_html ino_html))
    as [|_]; [done|].
  set (ns := normalize_html standalone_html) in *.
  set (ni := normalize_html ino_html) in *.
  eexists. split.
  { rewrite <- !app_assoc. reflexivity. }
  unfold show_first_difference.
  destruct (first_difference ns ni 0) as [i|] eqn:E.
  - left. exists i.
    apply first_difference_Some in E as (_ & Ha & Hb & Hd & Hsame).
    rewrite Nat.sub_0_r in *.
    split; [done|]. split; [done|]. split; [done|]. split; [done|].
    split.
    { intros Hp. apply Hd. by apply prefix_lookup_agree. }
    split; [lia|]. split; [lia|].
    replace (Z.max 0 (Z.of_nat i - 50)) with (Z.of_nat (i - 50)) by lia.
    replace (Z.min (Z.of_nat (length ns)) (Z.of_nat i + 50))
      with (Z.of_nat (length ns `min` (i + 50))) by lia.
    by rewrite !slice_nat.
  - right. apply first_difference_None in E.
    split; [done|]. split.
    { intros Hl. apply Hne. destruct E as [E|E].
      - by apply prefix_length_eq; [|lia].
      - symmetry. by apply prefix_length_eq; [|lia]. }
    split; [|done]. intros i. by apply prefix_lookup_agree.
Qed.

Lemma compare_html_mismatch_witness :
  exists diagnostic,
    compare_html fs_sample =
      ([Checking; Rule] ++ [] ++ [] ++
       [NotSynchronized;
        StandaloneLength (length (normalize_html (lit "<p>new</p>")));
        InoLength
          (length (normalize_html
                     (lit "<p>old</p>" ++ [newline] ++ end_marker)))]
       ++ diagnostic, false) /\
    diagnostic <> [].
Proof.
  destruct (compare_html_mismatch fs_sample [] [] (lit "<p>new</p>")
              (lit "<p>old</p>" ++ [newline] ++ end_marker) _ _
              ltac:(by vm_compute) ltac:(by vm_compute) eq_refl eq_refl
              ltac:(by vm_compute))
    as (diagnostic & E & [(i & _ & _ & _ & _ & _ & _ & _ & ->)
                         |(Hp & _ & _ & _)]).
  - eexists. split; [exact E|done].
  - exfalso. revert Hp. vm_compute.
    intros [[k Hk]|[k Hk]]; discriminate.
Defined.

End CompareProofs.

(** ** Substitution *)

Section Substitution.

Implicit Types (r : regex) (repl s t : str).

Lemma sub_from_skip r repl s n :
  sub_from r repl s n = re_sub r repl (drop n s).
Proof.
  revert n. induction s as [|c s IH]; intros [|n]; try done.
  simpl. apply IH.
Qed.

Lemma re_sub_nil r repl : re_sub r repl [] = [].
Proof. done. Qed.

Lemma re_sub_cons r repl c t :
  re_sub r repl (c :: t) =
  match match_here r (c :: t) with
  | Some (S n, _) => repl ++ re_sub r repl (drop n t)
  | _ => c :: re_sub r repl t
  end.
Proof.
  unfold re_sub at 1. cbn [sub_from].
  destruct (match_here r (c :: t)) as [[[|n] g]|]; try done.
  by rewrite sub_from_skip.
Qed.

(** Induction on the way [re_sub] walks the string. *)
Lemma re_sub_ind r repl (P : str -> str -> Prop) :
  P [] [] ->
  (forall c t n g out,
     match_here r (c :: t) = Some (S n, g) ->
     P (drop n t) out -> P (c :: t) (repl ++ out)) ->
  (forall c t out,
     (forall n g, match_here r (c :: t) <> Some (S n, g)) ->
     P t out -> P (c :: t) (c :: out)) ->
  forall s, P s (re_sub r repl s).
Proof.
  intros Hnil Hhit Hmiss s.
  assert (forall m s, length s <= m -> P s (re_sub r repl s)) as H;
    [|by apply (H (length s))].
  clear s. induction m as [|m IH]; intros [|c t] Hlen; simpl in Hlen;
    try done; try lia.
  rewrite re_sub_cons.
  destruct (match_here r (c :: t)) as [[[|n] g]|] eqn:E.
  - apply Hmiss; [by rewrite E|apply IH; lia].
  - apply (Hhit _ _ n g); [done|]. apply IH. rewrite length_drop. lia.
  - apply Hmiss; [by rewrite E|apply IH; lia].
Qed.

(** Replacing matches by nothing only deletes characters. *)
Lemma re_sub_delete_length r s : length (re_sub r [] s) <= length s.
Proof.
  apply (re_sub_ind r [] (fun s out => length out <= length s)).
  - done.
  - intros c t n g out _ H. rewrite length_drop in H. simpl. lia.
  - intros c t out _ H. simpl. lia.
Qed.

Lemma re_sub_delete_fixed r s :
  length (re_sub r [] s) = length s -> re_sub r [] s = s.
Proof.
  induction s as [|c t IH]; [done|].
  rewrite re_sub_cons.
  destruct (match_here r (c :: t)) as [[[|n] g]|] eqn:E.
  - simpl. intros [= H]. by rewrite IH.
  - cbn [app]. intros H.
    pose proof (re_sub_delete_length r (drop n t)) as Hl.
    rewrite length_drop in Hl. simpl in H. lia.
  - simpl. intros [= H]. by rewrite IH.
Qed.

(** Where the pattern matches nowhere, nothing is replaced. *)
Lemma re_sub_no_match r repl s :
  (forall i, match_here r (drop i s) = None) -> re_sub r repl s = s.
Proof.
  induction s as [|c t IH]; intros H; [done|].
  rewrite re_sub_cons. rewrite (H 0 : match_here r (c :: t) = None).
  f_equal. apply IH. intros i. apply (H (S i)).
Qed.

End Substitution.

(** ** The normalizer *)

Module NormalizeProofs.
Import SyncCheck NormalizeSteps Samples.

Lemma normalize_html_steps x :
  normalize_html x =
  match x with
  | [] => []
  | _ => strip (join_tags (collapse (strip_comments x)))
  end.
Proof. by destruct x. Qed.

(** *** Whitespace runs *)

Lemma lstrip_length t : length (lstrip t) <= length t.
Proof.
  destruct (lstrip_decomp t) as (l & E & _).
  rewrite E at 2. rewrite length_app. lia.
Qed.

Lemma drop_lstrip t : drop (length t - length (lstrip t)) t = lstrip t.
Proof.
  destruct (lstrip_decomp t) as (l & E & _).
  assert (length t - length (lstrip t) = length l) as ->.
  { rewrite E at 1. rewrite length_app. lia. }
  rewrite E at 1. by rewrite drop_app_length.
Qed.

Lemma match_here_whitespace_nil : match_here whitespace_pattern [] = None.
Proof. done. Qed.

Lemma match_here_whitespace c t :
  match_here whitespace_pattern (c :: t) =
  if isspace c then Some (S (length t - length (lstrip t)), None) else None.
Proof.
  unfold match_here, whitespace_pattern. cbn [rmatch].
  destruct (isspace c); [|done].
  rewrite (greedy_space_hit _ _ (length (c :: t) - length (lstrip t), None));
    [|done].
  pose proof (lstrip_length t). simpl. do 2 f_equal. lia.
Qed.

Lemma collapse_cons c t :
  collapse (c :: t) =
  if isspace c then space :: collapse (lstrip t) else c :: collapse t.
Proof.
  unfold collapse. rewrite re_sub_cons, match_here_whitespace.
  destruct (isspace c); [|done]. by rewrite drop_lstrip.
Qed.

Lemma lstrip_id t :
  (forall d u, t = d :: u -> isspace d = false) -> lstrip t = t.
Proof.
  destruct t as [|d u]; [done|]. intros H. simpl. by rewrite (H d u).
Qed.

Lemma collapsed_fixed z : collapsed z -> collapse z = z.
Proof.
  induction z as [|c t IH]; [done|]. intros [Hc Ht].
  rewrite collapse_cons. destruct (isspace c) eqn:E.
  - destruct (Hc eq_refl) as [-> Hn]. rewrite lstrip_id by done.
    by rewrite IH.
  - by rewrite IH.
Qed.

Lemma collapse_collapsed s : collapsed (collapse s).
Proof.
  enough (collapsed (collapse s) /\
          forall d u, collapse s = d :: u -> isspace d = true ->
                      exists d' u', s = d' :: u' /\ isspace d' = true)
    as [H _] by done.
  unfold collapse.
  apply (re_sub_ind whitespace_pattern [space]
           (fun s out => collapsed out /\
              forall d u, out = d :: u -> isspace d = true ->
                          exists d' u', s = d' :: u' /\ isspace d' = true)).
  - split; [done|]. intros d u H. done.
  - intros c t n g out Hm [Hc Hh].
    rewrite match_here_whitespace in Hm.
    destruct (isspace c) eqn:Ec; [|done].
    injection Hm as <- <-. rewrite drop_lstrip in Hh.
    change ([space] ++ out) with (space :: out).
    split; [|by eauto].
    split; [|done]. intros _. split; [done|].
    intros d u -> . destruct (isspace d) eqn:Ed; [|done].
    destruct (Hh d u eq_refl Ed) as (d' & u' & E & Hd').
    apply lstrip_first in E. congruence.
  - intros c t out Hm [Hc Hh].
    rewrite match_here_whitespace in Hm.
    destruct (isspace c) eqn:Ec; [by destruct (Hm _ _ eq_refl)|].
    split.
    + split; [|done]. intros ?. congruence.
    + intros d u [= <- <-] ?. congruence.
Qed.

Lemma collapsed_app_r a b : collapsed (a ++ b) -> collapsed b.
Proof. induction a as [|c a IH]; [done|]. intros [_ H]. by apply IH. Qed.

Lemma collapsed_app_l a b : collapsed (a ++ b) -> collapsed a.
Proof.
  induction a as [|c a IH]; [done|]. intros [Hc H].
  split; [|by apply IH]. intros Hs. destruct (Hc Hs) as [-> Hn].
  split; [done|]. intros d u ->. by apply (Hn d (u ++ b)).
Qed.

Lemma collapsed_drop n s : collapsed s -> collapsed (drop n s).
Proof.
  intros H. rewrite <- (take_drop n s) in H. by apply collapsed_app_r in H.
Qed.

(** *** Gaps between tags *)

Lemma match_here_tag_gap s :
  match_here tag_gap_pattern s =
  match s with
  | c :: d :: t =>
      if (62 =? c)%N && isspace d && starts_with (lit "<") (lstrip t)
      then Some (length s - length (drop 1 (lstrip t)), None) else None
  | _ => None
  end.
Proof.
  unfold match_here, tag_gap_pattern. cbn [rmatch].
  change (lit ">") with [62%N].
  destruct s as [|c [|d t]]; cbn [starts_with length drop].
  - done.
  - by destruct (62 =? c)%N.
  - rewrite andb_true_r. destruct (62 =? c)%N; [|done]. cbn [andb].
    destruct (isspace d); [|done]. cbn [andb].
    rewrite (greedy_space_token
               (fun t' => Some (length (c :: d :: t) - length (drop 1 t'), None))
               (lit "<")); [done| |done].
    by intros ? ? [= <- _].
Qed.

Lemma match_here_tag_gap_Some s n g :
  match_here tag_gap_pattern s = Some (n, g) ->
  exists run rest,
    s = 62%N :: run ++ 60%N :: rest /\ run <> [] /\ blank run /\
    n = length run + 2 /\ g = None.
Proof.
  rewrite match_here_tag_gap. destruct s as [|c [|d t]]; try done.
  destruct (N.eqb_spec 62 c) as [<-|]; [|done].
  destruct (isspace d) eqn:Ed; [|done].
  destruct (starts_with (lit "<") (lstrip t)) eqn:Es; [|done].
  cbn [andb]. intros [= <- <-].
  apply starts_with_split in Es. change (lit "<") with [60%N] in Es.
  cbn [length app] in Es.
  destruct (lstrip_decomp t) as (l & El & Hl).
  exists (d :: l), (drop 1 (lstrip t)).
  split; [|split; [done|split; [by constructor|split; [|done]]]].
  - rewrite El at 1. rewrite Es at 1. by rewrite <- app_comm_cons.
  - rewrite El at 1. rewrite Es at 1. rewrite Es at 1.
    cbn [length drop]. rewrite length_app. cbn [length].
    rewrite drop_0. lia.
Qed.

Lemma match_here_tag_gap_intro run rest :
  run <> [] -> blank run ->
  match_here tag_gap_pattern (62%N :: run ++ 60%N :: rest) =
  Some (length run + 2, None).
Proof.
  intros Hne Hb. rewrite match_here_tag_gap.
  destruct run as [|d l]; [done|]. inversion Hb as [|? ? Hd Hl]; subst.
  rewrite <- app_comm_cons. rewrite Hd. cbn [N.eqb Pos.eqb andb].
  rewrite lstrip_blank_app by done.
  rewrite lstrip_head_nonspace by done.
  change (starts_with (lit "<") (60%N :: rest)) with true.
  cbn [drop length]. rewrite drop_0, length_app. cbn [length].
  do 2 f_equal. lia.
Qed.

Lemma join_tags_gap run rest :
  run <> [] -> blank run ->
  join_tags (62%N :: run ++ 60%N :: rest) = 62%N :: 60%N :: join_tags rest.
Proof.
  intros Hne Hb. unfold join_tags. rewrite re_sub_cons.
  rewrite (match_here_tag_gap_intro run rest Hne Hb).
  replace (length run + 2) with (S (length run + 1)) by lia.
  rewrite (cons_middle 60%N run rest), app_assoc.
  rewrite drop_app_length'; [done|]. rewrite length_app. simpl. lia.
Qed.

Lemma join_tags_tag_free s : tag_free (join_tags s).
Proof.
  enough (tag_free (join_tags s) /\
          forall run rest, blank run -> join_tags s = run ++ 60%N :: rest ->
                           exists rest', s = run ++ 60%N :: rest')
    as [H _] by done.
  unfold join_tags.
  apply (re_sub_ind tag_gap_pattern (lit "><")
           (fun s out => tag_free out /\
              forall run rest, blank run -> out = run ++ 60%N :: rest ->
                               exists rest', s = run ++ 60%N :: rest')).
  - split; [by intros [|i]|]. intros [|? ?] ? _ ?; done.
  - intros c t n g out Hm [Hf Hq].
    change (lit "><" ++ out) with (62%N :: 60%N :: out).
    split.
    + intros [|[|i]]; cbn [drop].
      * rewrite match_here_tag_gap. by destruct out.
      * rewrite match_here_tag_gap. by destruct out as [|? [|? ?]].
      * apply Hf.
    + intros [|d run] rest Hb; [done|]. intros [= <- _].
      by inversion Hb.
  - intros c t out Hm [Hf Hq]. split.
    + intros [|i]; cbn [drop]; [|apply Hf].
      destruct (match_here tag_gap_pattern (c :: out)) as [[n g]|] eqn:E;
        [|done].
      exfalso.
      apply match_here_tag_gap_Some in E
        as (run & rest & [= -> ->] & Hne & Hb & -> & ->).
      destruct (Hq run rest Hb eq_refl) as (rest' & ->).
      apply (Hm (length run + 1) None).
      rewrite (match_here_tag_gap_intro run rest' Hne Hb).
      do 2 f_equal. lia.
    + intros [|d run] rest Hb.
      * intros [= -> ->]. by exists t.
      * intros [= <- Ho]. inversion Hb; subst.
        destruct (Hq run rest ltac:(done) eq_refl) as (rest' & ->).
        by exists rest'.
Qed.

Lemma tag_free_fixed z : tag_free z -> join_tags z = z.
Proof. apply re_sub_no_match. Qed.

Lemma join_tags_collapsed s : collapsed s -> collapsed (join_tags s).
Proof.
  enough (collapsed s ->
          collapsed (join_tags s) /\
          forall d u, join_tags s = d :: u -> isspace d = true ->
                      exists u', s = d :: u')
    as H by (intros Hs; by apply H).
  unfold join_tags.
  apply (re_sub_ind tag_gap_pattern (lit "><")
           (fun s out => collapsed s ->
              collapsed out /\
              forall d u, out = d :: u -> isspace d = true ->
                          exists u', s = d :: u')).
  - done.
  - intros c t n g out Hm IH Hs.
    change (lit "><" ++ out) with (62%N :: 60%N :: out).
    destruct IH as [Hc _].
    { apply (collapsed_drop (S n) (c :: t) Hs). }
    split.
    + split; [by intros ?|]. split; [by intros ?|done].
    + by intros d u [= <- _] ?.
  - intros c t out Hm IH [Hc Ht]. destruct (IH Ht) as [Ho Hh].
    split.
    + split; [|done]. intros Hs. destruct (Hc Hs) as [-> Hn].
      split; [done|]. intros d u ->.
      destruct (isspace d) eqn:Ed; [|done].
      destruct (Hh d u eq_refl Ed) as (u' & ->).
      by rewrite (Hn d u' eq_refl) in Ed.
    + intros d u [= <- _] _. by exists t.
Qed.

(** *** Trimming *)

Lemma strip_collapsed z : collapsed z -> collapsed (strip z).
Proof.
  destruct (strip_decomp z) as (l & r & E & _ & _). rewrite E at 1.
  intros H. apply collapsed_app_r in H. by apply collapsed_app_l in H.
Qed.

Lemma strip_tag_free z : tag_free z -> tag_free (strip z).
Proof.
  destruct (strip_decomp z) as (l & r & E & _ & _).
  intros H i.
  destruct (match_here tag_gap_pattern (drop i (strip z))) as [[n g]|] eqn:Em;
    [|done].
  exfalso.
  apply match_here_tag_gap_Some in Em as (run & rest & Ed & Hne & Hb & _ & _).
  assert (i <= length (strip z)) as Hi.
  { destruct (decide (i <= length (strip z))); [done|].
    rewrite drop_ge in Ed by lia. done. }
  specialize (H (length l + i)). rewrite E in H.
  rewrite <- drop_drop, drop_app_length in H.
  rewrite drop_app_le in H by done. rewrite Ed in H.
  rewrite <- app_comm_cons, <- app_assoc, <- app_comm_cons in H.
  by rewrite (match_here_tag_gap_intro run (rest ++ r) Hne Hb) in H.
Qed.

(** *** The whitespace steps reach a fixed point at once *)

Lemma whitespace_steps_normal y :
  collapsed (strip (join_tags (collapse y))) /\
  tag_free (strip (join_tags (collapse y))) /\
  trimmed (strip (join_tags (collapse y))).
Proof.
  split; [|split].
  - apply strip_collapsed, join_tags_collapsed, collapse_collapsed.
  - apply strip_tag_free, join_tags_tag_free.
  - apply strip_trimmed.
Qed.

Lemma whitespace_steps_fixed z :
  collapsed z -> tag_free z -> trimmed z ->
  strip (join_tags (collapse z)) = z.
Proof.
  intros Hc Ht Hs.
  by rewrite (collapsed_fixed z Hc), (tag_free_fixed z Ht), strip_id.
Qed.

Lemma whitespace_steps_idemp y :
  strip (join_tags (collapse (strip (join_tags (collapse y))))) =
  strip (join_tags (collapse y)).
Proof.
  destruct (whitespace_steps_normal y) as (Hc & Ht & Hs).
  by apply whitespace_steps_fixed.
Qed.

(** *** Lengths *)

(** The rest of the pattern is only ever tried on what is left of the
    input. *)
Lemma rmatch_remaining r :
  forall A (k : str -> option str -> option A) (P : A -> Prop) bound,
    (forall t g' a, length t <= bound -> k t g' = Some a -> P a) ->
    forall s g a, length s <= bound -> rmatch r A s g k = Some a -> P a.
Proof.
  induction r as [w|p|p|p|r1 IH1 r2 IH2|r IH|r IH];
    intros A k P bound Hk s g a Hs; cbn [rmatch].
  - destruct (starts_with w s); [|done].
    apply Hk. rewrite length_drop. lia.
  - revert a Hs. induction s as [|c t IHs]; intros a Hs; cbn [greedy];
      [by apply Hk|].
    simpl in Hs. destruct (p c); [|by apply Hk].
    destruct (greedy p t _) eqn:E; [|by apply Hk].
    intros [= <-]. apply IHs; [lia|done].
  - revert a Hs. induction s as [|c t IHs]; intros a Hs; cbn [lazy].
    + destruct (k [] g) eqn:E; [intros [= <-]; by eapply Hk|done].
    + destruct (k (c :: t) g) eqn:E; [intros [= <-]; by eapply Hk|].
      simpl in Hs. destruct (p c); [apply IHs; lia|done].
  - destruct s as [|c t]; [done|]. destruct (p c); [|done].
    simpl in Hs. assert (length t <= bound) as Ht by lia.
    clear Hs. revert a Ht.
    induction t as [|d t IHs]; intros a Ht; cbn [greedy]; [by apply Hk|].
    simpl in Ht. destruct (p d); [|by apply Hk].
    destruct (greedy p t _) eqn:E; [|by apply Hk].
    intros [= <-]. apply IHs; [lia|done].
  - apply (IH1 A _ P bound); [|done]. intros t g' a'. by apply IH2.
  - destruct (rmatch r () s g _); [done|by apply Hk].
  - apply (IH A _ P bound); [|done]. intros t g' a' Ht. by apply Hk.
Qed.

Lemma match_here_length r s n g :
  match_here r s = Some (n, g) -> n <= length s.
Proof.
  unfold match_here.
  apply (rmatch_remaining r _ _ (fun a => a.1 <= length s) (length s));
    [|done].
  intros t g' a _ [= <-]. simpl. lia.
Qed.

(** A pattern that begins with literal text consumes that text. *)
Lemma match_here_Lit_first w r s n g :
  match_here (Lit w >> r) s = Some (n, g) -> length w <= n.
Proof.
  unfold match_here. cbn [rmatch].
  destruct (starts_with w s) eqn:E; [|done].
  apply starts_with_length in E.
  apply (rmatch_remaining r _ _ (fun a => length w <= a.1)
           (length s - length w)).
  - intros t g' a Ht [= <-]. simpl. lia.
  - rewrite length_drop. lia.
Qed.

(** The three patterns of [normalize_html] consume at least one
    character. *)
Lemma pattern_nonempty r s g :
  r = comment_pattern \/ r = whitespace_pattern \/ r = tag_gap_pattern ->
  match_here r s <> Some (0, g).
Proof.
  intros [->|[->| ->]] H.
  - apply match_here_Lit_first in H. simpl in H. lia.
  - destruct s as [|c t]; [done|].
    rewrite match_here_whitespace in H. by destruct (isspace c).
  - apply match_here_tag_gap_Some in H as (run & rest & _ & _ & _ & E & _).
    lia.
Qed.

Lemma re_sub_length r repl s :
  (forall c t n g, match_here r (c :: t) = Some (S n, g) ->
                   length repl <= S n) ->
  length (re_sub r repl s) <= length s.
Proof.
  intros Hr.
  apply (re_sub_ind r repl (fun s out => length out <= length s)).
  - done.
  - intros c t n g out Hm H.
    pose proof (match_here_length _ _ _ _ Hm) as Hn. apply Hr in Hm.
    rewrite length_app. rewrite length_drop in H. simpl in *. lia.
  - intros c t out _ H. simpl. lia.
Qed.

Lemma collapse_length s : length (collapse s) <= length s.
Proof.
  apply re_sub_length. intros c t n g _. simpl. lia.
Qed.

Lemma join_tags_length s : length (join_tags s) <= length s.
Proof.
  apply re_sub_length. intros c t n g Hm.
  apply match_here_tag_gap_Some in Hm as (run & rest & _ & Hne & _ & E & _).
  destruct run; [done|]. simpl in *. lia.
Qed.

Lemma strip_length s : length (strip s) <= length s.
Proof.
  destruct (strip_decomp s) as (l & r & E & _ & _).
  rewrite E at 2. rewrite !length_app. lia.
Qed.

Lemma strip_comments_length s : length (strip_comments s) <= length s.
Proof. apply re_sub_delete_length. Qed.

(** Normalising again changes nothing exactly when the comment step
    finds nothing to delete in the normalised text. *)
Lemma normalize_again x :
  normalize_html (normalize_html x) = normalize_html x <->
  strip_comments (normalize_html x) = normalize_html x.
Proof.
  destruct (normalize_html x) as [|c n] eqn:En; [done|].
  rewrite (normalize_html_steps (c :: n)).
  assert (c :: n = strip (join_tags (collapse (strip_comments x)))) as E.
  { rewrite <- En. rewrite normalize_html_steps. destruct x; [done|].
    reflexivity. }
  split.
  - intros H.
    apply re_sub_delete_fixed.
    pose proof (strip_comments_length (c :: n)) as H1.
    pose proof (collapse_length (strip_comments (c :: n))) as H2.
    pose proof (join_tags_length (collapse (strip_comments (c :: n)))) as H3.
    pose proof (strip_length (join_tags (collapse (strip_comments (c :: n)))))
      as H4.
    rewrite H in H4. unfold strip_comments in *. lia.
  - intros ->. rewrite E. apply whitespace_steps_idemp.
Qed.

(** *** The whitespace steps create no comment opener *)

Lemma starts_with_plain_head v c s :
  plain v -> (isspace c = true \/ c = 62%N) ->
  starts_with v (c :: s) = true -> v = [].
Proof.
  intros Hv Hc. destruct v as [|a v]; [done|]. simpl.
  intros [->%N.eqb_eq _]%andb_true_iff.
  inversion Hv as [|? ? [H1 H2] _]; subst. destruct Hc; congruence.
Qed.

Lemma occurs_at_cons w c s i : occurs_at w s i -> occurs_at w (c :: s) (S i).
Proof. done. Qed.

Lemma collapse_occurs w s i :
  plain w -> w <> [] -> occurs_at w (collapse s) i -> exists j, occurs_at w s j.
Proof.
  intros Hw Hne.
  enough ((forall v, plain v -> starts_with v (collapse s) = true ->
                     starts_with v s = true) /\
          forall i, occurs_at w (collapse s) i -> exists j, occurs_at w s j)
    as [_ H] by apply H.
  unfold collapse.
  apply (re_sub_ind whitespace_pattern [space]
           (fun s out =>
              (forall v, plain v -> starts_with v out = true ->
                         starts_with v s = true) /\
              forall i, occurs_at w out i -> exists j, occurs_at w s j)).
  - split; [done|]. intros j Ho. exists 0. unfold occurs_at in *.
    rewrite drop_nil in Ho. by destruct w.
  - intros c t n g out Hm [HP HQ].
    change ([space] ++ out) with (space :: out).
    split.
    + intros v Hv Hs.
      by rewrite (starts_with_plain_head v space out Hv (or_introl eq_refl) Hs).
    + intros [|j] Ho.
      * by destruct Hne;
          apply (starts_with_plain_head w space out Hw (or_introl eq_refl)).
      * destruct (HQ j Ho) as (j' & Hj'). exists (S (n + j')).
        apply occurs_at_cons. by apply occurs_at_drop.
  - intros c t out Hm [HP HQ].
    assert (forall v, plain v -> starts_with v (c :: out) = true ->
                      starts_with v (c :: t) = true) as HP'.
    { intros [|a v] Hv; [done|]. simpl.
      intros [-> Hs]%andb_true_iff. simpl. inversion Hv; subst.
      by apply HP. }
    split; [done|]. intros [|j] Ho.
    + exists 0. by apply HP'.
    + destruct (HQ j Ho) as (j' & Hj'). exists (S j').
      by apply occurs_at_cons.
Qed.

Lemma join_tags_occurs w s i :
  plain w -> w <> [] -> occurs_at w (join_tags s) i ->
  exists j, occurs_at w s j.
Proof.
  intros Hw Hne.
  enough ((forall v, plain v -> starts_with v (join_tags s) = true ->
                     starts_with v s = true) /\
          forall i, occurs_at w (join_tags s) i -> exists j, occurs_at w s j)
    as [_ H] by apply H.
  unfold join_tags.
  apply (re_sub_ind tag_gap_pattern (lit "><")
           (fun s out =>
              (forall v, plain v -> starts_with v out = true ->
                         starts_with v s = true) /\
              forall i, occurs_at w out i -> exists j, occurs_at w s j)).
  - split; [done|]. intros j Ho. exists 0. unfold occurs_at in *.
    rewrite drop_nil in Ho. by destruct w.
  - intros c t n g out Hm [HP HQ].
    change (lit "><" ++ out) with (62%N :: 60%N :: out).
    apply match_here_tag_gap_Some in Hm
      as (run & rest & [= -> ->] & Hrun & Hb & Hn & _).
    assert (n = length run + 1) as -> by lia. clear Hn.
    assert (drop (length run + 1) (run ++ 60%N :: rest) = rest) as Ed.
    { rewrite (cons_middle 60%N run rest), app_assoc.
      apply drop_app_length'. rewrite length_app. simpl. lia. }
    rewrite Ed in HP, HQ.
    split.
    + intros v Hv Hs.
      by rewrite (starts_with_plain_head v 62%N _ Hv (or_intror eq_refl) Hs).
    + intros [|[|j]] Ho.
      * by destruct Hne;
          apply (starts_with_plain_head w 62%N (60%N :: out) Hw
                   (or_intror eq_refl)).
      * exists (S (length run)). unfold occurs_at in *. cbn [drop] in *.
        rewrite drop_app_length.
        destruct w as [|a w']; [done|]. simpl in *.
        apply andb_true_iff in Ho as [-> Ho]. simpl.
        inversion Hw; subst. by apply HP.
      * destruct (HQ j Ho) as (j' & Hj'). exists (S (length run + 1 + j')).
        apply occurs_at_cons. apply occurs_at_drop. by rewrite Ed.
  - intros c t out Hm [HP HQ].
    assert (forall v, plain v -> starts_with v (c :: out) = true ->
                      starts_with v (c :: t) = true) as HP'.
    { intros [|a v] Hv; [done|]. simpl.
      intros [-> Hs]%andb_true_iff. simpl. inversion Hv; subst.
      by apply HP. }
    split; [done|]. intros [|j] Ho.
    + exists 0. by apply HP'.
    + destruct (HQ j Ho) as (j' & Hj'). exists (S j').
      by apply occurs_at_cons.
Qed.

Lemma strip_occurs w s i :
  w <> [] -> occurs_at w (strip s) i -> exists j, occurs_at w s j.
Proof.
  intros Hne Ho. destruct (strip_decomp s) as (l & r & E & _ & _).
  exists (length l + i). rewrite E. apply occurs_at_app_r.
  apply occurs_at_app_l; [|done]. by apply occurs_at_bound.
Qed.

Lemma plain_comment_open : plain comment_open.
Proof. by repeat constructor. Qed.

Lemma comment_open_nonempty : comment_open <> [].
Proof. done. Qed.

(** Without a comment opener the comment step has nothing to match. *)
Lemma strip_comments_no_opener s :
  absent_from comment_open s 0 -> strip_comments s = s.
Proof.
  intros Ha. apply re_sub_no_match. intros i.
  unfold match_here, comment_pattern. cbn [rmatch].
  fold comment_open.
  destruct (starts_with comment_open (drop i s)) eqn:E; [|done].
  by destruct (Ha i ltac:(lia)).
Qed.

Lemma normalize_no_opener x :
  absent_from comment_open x 0 -> absent_from comment_open (normalize_html x) 0.
Proof.
  intros Ha i _ Ho. rewrite normalize_html_steps in Ho.
  destruct x as [|c x]; [by destruct (Ha i ltac:(lia))|].
  rewrite (strip_comments_no_opener _ Ha) in Ho.
  apply strip_occurs in Ho as (j1 & Ho); [|done].
  apply join_tags_occurs in Ho as (j2 & Ho);
    [|apply plain_comment_open|done].
  apply collapse_occurs in Ho as (j3 & Ho);
    [|apply plain_comment_open|done].
  by destruct (Ha j3 ltac:(lia)).
Qed.

(** C5, amended: normalising already-normalised text is a no-op exactly
    when the comment-removal step finds no comment to delete in the
    normalised text; in particular it is a no-op for every text in which
    the comment-open delimiter does not occur. *)
Theorem normalize_html_idempotent_when x :
  (normalize_html (normalize_html x) = normalize_html x <->
   strip_comments (normalize_html x) = normalize_html x) /\
  (absent_from comment_open x 0 ->
   normalize_html (normalize_html x) = normalize_html x).
Proof.
  split; [apply normalize_again|]. intros Ha.
  apply normalize_again, strip_comments_no_opener.
  by apply normalize_no_opener.
Qed.

Lemma normalize_html_idempotent_when_witness :
  normalize_html (normalize_html (lit "<p> a </p>   <p>b</p> ")) =
  normalize_html (lit "<p> a </p>   <p>b</p> ").
Proof.
  apply (normalize_html_idempotent_when (lit "<p> a </p>   <p>b</p> ")).
  apply (find_missing_inv _ _ 0); [done|by vm_compute].
Defined.

(** C5 as stated fails: stripping the inner comment of [nested_comment]
    leaves a comment behind, which a second normalisation removes. *)
Lemma normalize_html_not_idempotent :
  normalize_html nested_comment = lit "<!-- y -->" /\
  normalize_html (normalize_html nested_comment) = [] /\
  normalize_html (normalize_html nested_comment) <>
    normalize_html nested_comment.
Proof. repeat split; by vm_compute. Qed.

(** C1: the comment [<!-- note -->] does not contain the sentinel text,
    yet the normalizer leaves it in place when the sentinel text occurs
    anywhere after it: the lookahead of the comment pattern scans to the
    end of the input, not to the end of the comment.  Here the whole
    input comes back unchanged. *)
Theorem normalize_html_keeps_note_before_sentinel :
  normalize_html note_before_sentinel = note_before_sentinel /\
  occurs_at (lit "<!-- note -->") (normalize_html note_before_sentinel) 0 /\
  normalize_html (lit "<!-- note --><p>x</p>") = lit "<p>x</p>".
Proof. repeat split; by vm_compute. Qed.

End NormalizeProofs.

(** * Further properties *)

(** ** The shape of normalised text *)

Module NormalForm.
Import SyncCheck NormalizeSteps NormalizeTokens NormalizeProofs.

Lemma collapsed_lookup z i c :
  collapsed z -> z !! i = Some c -> isspace c = true ->
  c = space /\ forall d, z !! S i = Some d -> isspace d = false.
Proof.
  revert i. induction z as [|b t IH]; intros i Hz; [done|].
  destruct Hz as [Hb Ht].
  destruct i as [|i]; simpl.
  - intros [= ->] Hc. destruct (Hb Hc) as [-> Hn]. split; [done|].
    intros d Hd. destruct t as [|d' u]; [done|]. simpl in Hd.
    injection Hd as ->. by apply (Hn d u).
  - intros Hi Hc. by apply IH.
Qed.

Lemma blank_no_opener x : blank x -> absent_from comment_open x 0.
Proof.
  intros Hb i _ Ho.
  pose proof (occurs_at_lookup _ _ _ 0 Ho ltac:(cbv; lia)) as Hl.
  rewrite Nat.add_0_r in Hl. by apply (blank_lookup _ _ _ Hb) in Hl.
Qed.

Lemma lstrip_blank t : blank t -> lstrip t = [].
Proof.
  intros Hb. rewrite <- (app_nil_r t). by rewrite lstrip_blank_app.
Qed.

(** X1: normalised text never begins or ends with whitespace, each of
    its whitespace characters is a single space with no whitespace
    after it, and no whitespace stands between a closing and an opening
    angle bracket. *)
Theorem normalize_html_normal_form x :
  trimmed (normalize_html x) /\
  (forall i c, normalize_html x !! i = Some c -> isspace c = true ->
     c = space /\
     forall d, normalize_html x !! S i = Some d -> isspace d = false) /\
  (forall a run b,
     normalize_html x = a ++ 62%N :: run ++ 60%N :: b -> blank run ->
     run = []).
Proof.
  rewrite normalize_html_steps. destruct x as [|c0 x].
  { split; [apply trimmed_nil|]. split; [done|].
    intros [|? ?] ? ? ?; done. }
  destruct (whitespace_steps_normal (strip_comments (c0 :: x)))
    as (Hc & Ht & Hs).
  split; [done|]. split.
  - intros i c. by apply collapsed_lookup.
  - intros a run b E Hb. destruct run as [|d run]; [done|]. exfalso.
    specialize (Ht (length a)). rewrite E, drop_app_length in Ht.
    by rewrite (match_here_tag_gap_intro (d :: run) b) in Ht.
Qed.

Lemma normalize_html_normal_form_witness :
  trimmed (normalize_html (lit "  <p>  a </p>  <p> ")).
Proof. apply (normalize_html_normal_form (lit "  <p>  a </p>  <p> ")). Defined.

(** X2: normalising never makes a text longer. *)
Theorem normalize_html_length x :
  length (normalize_html x) <= length x.
Proof.
  rewrite normalize_html_steps. destruct x as [|c0 x]; [done|].
  pose proof (strip_comments_length (c0 :: x)) as H1.
  pose proof (collapse_length (strip_comments (c0 :: x))) as H2.
  pose proof (join_tags_length (collapse (strip_comments (c0 :: x)))) as H3.
  pose proof (strip_length
                (join_tags (collapse (strip_comments (c0 :: x))))) as H4.
  lia.
Qed.

(** X3: a text made of whitespace only (the empty text included)
    normalises to the empty text. *)
Theorem normalize_html_blank x : blank x -> normalize_html x = [].
Proof.
  intros Hb. rewrite normalize_html_steps. destruct x as [|c0 x]; [done|].
  rewrite (strip_comments_no_opener _ (blank_no_opener _ Hb)).
  inversion Hb as [|? ? Hc Hx]; subst.
  rewrite collapse_cons, Hc, (lstrip_blank x Hx).
  reflexivity.
Qed.

Lemma normalize_html_blank_witness :
  normalize_html (lit "  " ++ [newline; 160%N; 8232%N]) = [].
Proof.
  apply normalize_html_blank. by repeat constructor.
Defined.

End NormalForm.

(** ** What the extractors return *)

Module ExtractMore.
Import SyncCheck ExtractorMatch ExtractProofs Samples.

Lemma find_lower_bound s w st : (-1 <= find s w st)%Z.
Proof.
  unfold find. destruct (_ <? _)%Z; [lia|].
  destruct (index_of _ _); lia.
Qed.

Lemma absent_from_take w s st n :
  w <> [] -> first_at w s st n -> absent_from w (take n s) st.
Proof.
  intros Hw (_ & _ & Hn) i Hi Ho.
  pose proof (occurs_at_bound _ _ _ Hw Ho) as Hb.
  rewrite length_take in Hb.
  assert (0 < length w) as Hlw by (destruct w; [done|simpl; lia]).
  apply (Hn i); [lia|].
  apply occurs_at_take in Ho; [done|lia].
Qed.

Lemma absent_from_substring w l t r :
  absent_from w (l ++ t ++ r) 0 -> absent_from w t 0.
Proof. apply absent_from_framed. Qed.

Lemma absent_from_strip w s : absent_from w s 0 -> absent_from w (strip s) 0.
Proof.
  destruct (strip_decomp s) as (l & r & E & _ & _). rewrite E at 1.
  apply absent_from_framed.
Qed.

Lemma absent_from_drop_take w s k n :
  absent_from w (take n s) 0 -> absent_from w (take (n - k) (drop k s)) 0.
Proof.
  intros Ha. destruct (decide (k <= n)) as [Hk|Hk].
  - rewrite take_drop_commute.
    replace (k + (n - k)) with n by lia.
    rewrite <- (take_drop k (take n s)) in Ha.
    rewrite <- (app_nil_r (drop k (take n s))) in Ha.
    by apply absent_from_framed in Ha.
  - replace (n - k) with 0 by lia. rewrite take_0.
    intros i _ Ho. unfold occurs_at in Ho. rewrite drop_nil in Ho.
    destruct w; [|done].
    apply (Ha 0); [lia|]. unfold occurs_at. by destruct (drop 0 (take n s)).
Qed.

(** X4: whatever the standalone extractor returns neither begins nor
    ends with whitespace and does not contain the end sentinel. *)
Theorem standalone_region_excludes_end_marker fs out html :
  extract_html_from_standalone fs = (out, Some html) ->
  trimmed html /\ absent_from end_marker html 0.
Proof.
  unfold extract_html_from_standalone.
  destruct (fs !! standalone_path) as [content|]; [|done].
  destruct (_ || _) eqn:Eor; [done|].
  apply orb_false_iff in Eor as [_ He%Z.eqb_neq].
  intros [= _ <-]. split; [apply strip_trimmed|].
  destruct (find_cases end_marker content 0 end_marker_nonempty)
    as [[E _]|(e & E & Hfirst)]; change (Z.of_nat 0) with 0%Z in E; [done|].
  rewrite E.
  pose proof (find_lower_bound content [newline]
                (find content start_marker 0)) as Hlb.
  set (a := (find content [newline] (find content start_marker 0) + 1)%Z)
    in *.
  replace a with (Z.of_nat (Z.to_nat a)) by lia.
  rewrite slice_nat. apply absent_from_strip, absent_from_drop_take.
  by apply absent_from_take.
Qed.

Lemma standalone_region_excludes_end_marker_witness :
  trimmed (lit "<p>new</p>") /\ absent_from end_marker (lit "<p>new</p>") 0.
Proof.
  apply (standalone_region_excludes_end_marker fs_sample []).
  by vm_compute.
Defined.

(** X5: whatever the firmware extractor returns neither begins nor ends
    with whitespace and does not contain the literal-closing token with
    its terminator. *)
Theorem ino_body_excludes_closing_token fs out html :
  extract_html_from_ino fs = (out, Some html) ->
  trimmed html /\ absent_from literal_close html 0.
Proof.
  unfold extract_html_from_ino.
  destruct (fs !! ino_path) as [content|]; [|done].
  destruct (search_pattern_cases content)
    as [[E _]|(a & b & body & rest & (Ho & _ & _ & Hc) & E)];
    rewrite E; [done|].
  intros [= _ <-]. split; [apply strip_trimmed|].
  unfold group1. cbn [m_group1 from_option id].
  do 2 apply absent_from_strip.
  unfold pattern_occurrence in Ho.
  set (pre := a ++ handler_open ++ b ++ literal_open).
  assert (content = pre ++ body ++ literal_close ++ rest) as Ec.
  { rewrite Ho. unfold pre. by rewrite <- !app_assoc. }
  assert (length pre = length a + length handler_open + length b +
                       length literal_open) as Hl.
  { unfold pre. rewrite !length_app. lia. }
  rewrite <- Hl in Hc. destruct Hc as (_ & _ & Hn).
  intros i _ Hi.
  pose proof (occurs_at_bound _ _ _ literal_close_nonempty Hi) as Hb.
  apply (Hn (length pre + i)); [simpl in Hb; lia|].
  rewrite Ec. apply occurs_at_app_r. by apply occurs_at_app_l.
Qed.

Lemma ino_body_excludes_closing_token_witness :
  trimmed (lit "<p>old</p>" ++ [newline] ++ end_marker) /\
  absent_from literal_close (lit "<p>old</p>" ++ [newline] ++ end_marker) 0.
Proof.
  apply (ino_body_excludes_closing_token fs_sample []).
  by vm_compute.
Defined.

End ExtractMore.

(** ** The check operation as a whole *)

Module CheckMore.
Import SyncCheck ExtractorMatch ExtractProofs Samples.

(** The standalone extractor by cases on the two [find]s. *)
Lemma extract_html_from_standalone_cases fs :
  (exists content,
     fs !! standalone_path = Some content /\
     find content start_marker 0 <> (-1)%Z /\
     find content end_marker 0 <> (-1)%Z /\
     extract_html_from_standalone fs =
       ([], Some (strip (slice content
                           (find content [newline]
                              (find content start_marker 0) + 1)
                           (find content end_marker 0))))) \/
  (exists out, extract_html_from_standalone fs = (out, None) /\
     (fs !! standalone_path = None \/
      exists content, fs !! standalone_path = Some content /\
        (find content start_marker 0 = (-1)%Z \/
         find content end_marker 0 = (-1)%Z))).
Proof.
  unfold extract_html_from_standalone.
  destruct (fs !! standalone_path) as [content|]; [|right; eauto].
  destruct (Z.eqb_spec (find content start_marker 0) (-1)) as [E1|E1].
  { right. eexists. split; [done|]. right. eauto. }
  destruct (Z.eqb_spec (find content end_marker 0) (-1)) as [E2|E2].
  { right. eexists. split; [done|]. right. eauto. }
  left. exists content. by repeat split.
Qed.

(** X6: the check operation exits with status 0 exactly when both
    files exist, the standalone document has both sentinels, the
    firmware document has an occurrence of the handler pattern, and
    the region after the start sentinel's line and the body of the
    first occurrence have the same normal form; in every other case it
    exits with status 1. *)
Theorem check_exit_status fs :
  ((main fs).2 = 0%Z <->
   exists content ino a b body rest,
     fs !! standalone_path = Some content /\
     fs !! ino_path = Some ino /\
     find content start_marker 0 <> (-1)%Z /\
     find content end_marker 0 <> (-1)%Z /\
     first_occurrence ino a b body rest /\
     normalize_html
       (strip (slice content
                 (find content [newline] (find content start_marker 0) + 1)
                 (find content end_marker 0))) =
     normalize_html (strip body)) /\
  ((main fs).2 = 0%Z \/ (main fs).2 = 1%Z).
Proof.
  unfold main, compare_html.
  destruct (extract_html_from_standalone_cases fs)
    as [(content & Hs & E1 & E2 & ->)|(out & -> & Hno)].
  - unfold extract_html_from_ino.
    destruct (fs !! ino_path) as [ino|] eqn:Hi; cycle 1.
    { split; [|by right]. split; [done|].
      by intros (? & ? & ? & ? & ? & ? & _ & ? & _). }
    destruct (search_pattern_cases ino)
      as [[E Hnone]|(a & b & body & rest & Hfirst & E)]; rewrite E.
    { split; [|by right]. split; [done|].
      intros (? & ino' & a & b & body & rest & _ & [= <-] & _ & _ & Ho & _).
      destruct Hnone. exists a, b, body, rest. by destruct Ho. }
    unfold group1. cbn [m_group1 from_option id]. rewrite strip_idemp.
    destruct (decide (_ = _)) as [Heq|Hne].
    + split; [|by left]. split; [|done]. intros _.
      exists content, ino, a, b, body, rest.
      do 5 (split; [done|]). done.
    + split; [|by right]. split; [done|].
      intros (content' & ino' & a' & b' & body' & rest' & Hs' & [= <-] &
              _ & _ & Hfirst' & Heq).
      rewrite Hs in Hs'. injection Hs' as <-.
      destruct Hne.
      destruct Hfirst as (Ho & Ha & Hb & Hc).
      destruct Hfirst' as (Ho' & Ha' & Hb' & Hc').
      pose proof (first_at_unique _ _ _ _ _ Ha Ha') as Ea.
      rewrite <- Ea in Hb', Hc'.
      pose proof (first_at_unique _ _ _ _ _ Hb Hb') as Eb.
      assert (length b = length b') as Eb' by lia.
      rewrite <- Eb' in Hc'.
      pose proof (first_at_unique _ _ _ _ _ Hc Hc') as Ec.
      assert (length body = length body') as Ec' by lia.
      unfold pattern_occurrence in Ho, Ho'. rewrite Ho in Ho'.
      apply app_inj_1 in Ho' as [_ Ho']; [|done].
      apply app_inv_head in Ho'.
      apply app_inj_1 in Ho' as [_ Ho']; [|done].
      apply app_inv_head in Ho'.
      apply app_inj_1 in Ho' as [<- _]; [|done]. done.
  - destruct (extract_html_from_ino fs) as [out2 r2].
    split; [|by right]. split; [done|].
    intros (content & ino & ? & ? & ? & ? & Hs & _ & E1 & E2 & _).
    destruct Hno as [Hn|(content' & Hs' & [E|E])]; congruence.
Qed.

Lemma check_exit_status_witness :
  (main fs_sample).2 = 0%Z \/ (main fs_sample).2 = 1%Z.
Proof. apply (check_exit_status fs_sample). Defined.

(** X7: when the standalone file is missing, the check still runs the
    firmware extractor and prints what it reports, and then fails with
    exit status 1. *)
Theorem check_without_standalone fs :
  fs !! standalone_path = None ->
  main fs =
  ([Banner; Rule; Checking; Rule; StandaloneNotFound] ++
   (extract_html_from_ino fs).1 ++ [NeedSync; Advice], 1%Z).
Proof.
  intros Hs. unfold main, compare_html, extract_html_from_standalone.
  rewrite Hs. destruct (extract_html_from_ino fs) as [out2 [r|]];
    cbn [fst snd]; by rewrite <- ?app_assoc.
Qed.

Lemma check_without_standalone_witness :
  main (∅ : files) =
  ([Banner; Rule; Checking; Rule; StandaloneNotFound] ++
   (extract_html_from_ino ∅).1 ++ [NeedSync; Advice], 1%Z).
Proof. apply check_without_standalone. reflexivity. Defined.

End CheckMore.

(** ** The update operation as a whole *)

Module UpdateMore.
Import UpdateEsp32Html UpdateStages UpdateFacts UpdateCases UpdateProofs.
Import Samples.

(** X8: a missing file stops the update before anything is written:
    without the standalone file the operation reports the missing file
    right after its first progress line; with the standalone file but
    without the firmware file it reports the firmware file as missing
    and does not create it.  Both times it returns 1 and the file
    system is as before. *)
Theorem update_with_missing_file fs :
  (fs !! standalone_path = None ->
   main fs =
   (fs, [Extracting; Error (FileNotFoundError standalone_path)], 1%Z)) /\
  (forall standalone,
     fs !! standalone_path = Some standalone ->
     fs !! ino_path = None ->
     main fs =
     (fs, [Extracting; Extracted (length (strip standalone)); Updating;
           Error (FileNotFoundError ino_path)], 1%Z)).
Proof.
  split.
  - intros Hs. unfold main, extract_html_content. by rewrite Hs.
  - intros standalone Hs Hi.
    unfold main, extract_html_content, update_esp32_html. by rewrite Hs, Hi.
Qed.

Lemma update_with_missing_file_witness :
  main ({[ standalone_path := lit "<p>x</p>" ]} : files) =
  ({[ standalone_path := lit "<p>x</p>" ]},
   [Extracting; Extracted 8; Updating; Error (FileNotFoundError ino_path)],
   1%Z).
Proof.
  apply (proj2 (update_with_missing_file
                  ({[ standalone_path := lit "<p>x</p>" ]} : files))
           (lit "<p>x</p>")); reflexivity.
Defined.

End UpdateMore.

(** ** Line ends *)

Section TextFiles.

Implicit Types raw text w : str.

Lemma decode_newlines_no_cr b raw : cr ∉ decode_newlines b raw.
Proof.
  revert b. induction raw as [|c t IH]; intros b; simpl.
  - apply not_elem_of_nil.
  - destruct (N.eqb_spec c cr) as [->|Hc].
    + apply not_elem_of_cons. split; [done|apply IH].
    + destruct ((c =? newline)%N && b); [apply IH|].
      apply not_elem_of_cons. split; [congruence|apply IH].
Qed.

Lemma universal_newlines_no_cr raw : cr ∉ universal_newlines raw.
Proof. apply decode_newlines_no_cr. Qed.

(** A text without carriage returns is read as it is stored. *)
Lemma universal_newlines_plain text :
  cr ∉ text -> universal_newlines text = text.
Proof.
  unfold universal_newlines. induction text as [|c t IH]; [done|].
  intros [Hc Ht]%not_elem_of_cons. simpl.
  destruct (N.eqb_spec c cr) as [->|_]; [done|].
  rewrite andb_false_r. f_equal. by apply IH.
Qed.

Lemma write_newlines_app p a b :
  write_newlines p (a ++ b) = write_newlines p a ++ write_newlines p b.
Proof.
  induction a as [|c t IH]; [done|]. simpl. by rewrite IH, app_assoc.
Qed.

Lemma write_newlines_posix text : write_newlines Posix text = text.
Proof.
  induction text as [|c t IH]; [done|]. simpl. rewrite IH.
  by destruct (N.eqb_spec c newline) as [->|_].
Qed.

(** A token without a line feed is stored as it is. *)
Lemma write_newlines_plain p w : newline ∉ w -> write_newlines p w = w.
Proof.
  induction w as [|c t IH]; [done|].
  intros [Hc Ht]%not_elem_of_cons. simpl.
  destruct (N.eqb_spec c newline) as [->|_]; [done|].
  by rewrite IH.
Qed.

Lemma write_newlines_newline p : write_newlines p [newline] = linesep p.
Proof. simpl. by rewrite app_nil_r. Qed.

(** What the script writes, it reads back. *)
Lemma read_back p text :
  cr ∉ text -> universal_newlines (write_newlines p text) = text.
Proof.
  unfold universal_newlines. induction text as [|c t IH]; [done|].
  intros [Hc Ht]%not_elem_of_cons. specialize (IH Ht). simpl.
  destruct (N.eqb_spec c newline) as [->|Hn].
  - destruct p; simpl; by rewrite IH.
  - simpl. destruct (N.eqb_spec c cr) as [->|_]; [done|].
    destruct (N.eqb_spec c newline); [done|]. simpl. by rewrite IH.
Qed.

Lemma strip_no_cr text : cr ∉ text -> cr ∉ strip text.
Proof.
  intros H Hin. destruct (strip_decomp text) as (l & r & E & _ & _).
  apply H. rewrite E. rewrite !elem_of_app. auto.
Qed.

Lemma prefix_take (a l : str) : a `prefix_of` l -> take (length a) l = a.
Proof. intros [k ->]. by rewrite take_app_length. Qed.

Lemma suffix_drop (a l : str) :
  a `suffix_of` l -> drop (length l - length a) l = a.
Proof.
  intros [k ->]. rewrite length_app, Nat.add_sub. by rewrite drop_app_length.
Qed.

Lemma take_no_cr n text : cr ∉ text -> cr ∉ take n text.
Proof.
  intros H Hin. apply H. rewrite <- (take_drop n text), elem_of_app. auto.
Qed.

Lemma drop_no_cr n text : cr ∉ text -> cr ∉ drop n text.
Proof.
  intros H Hin. apply H. rewrite <- (take_drop n text), elem_of_app. auto.
Qed.

End TextFiles.

(** ** The update operation on the stored files *)

Module UpdateOnDiskFacts.
Import UpdateEsp32Html UpdateStages UpdateFacts UpdateCases UpdateProofs.
Import UpdateOnDisk.

(** The function on the files does what the function on the text does,
    up to the write. *)
Lemma update_on_text env ino_file html d raw fs :
  d !! ino_file = Some raw ->
  fs !! ino_file = Some (universal_newlines raw) ->
  update_esp32_html env ino_file html d =
  match UpdateEsp32Html.update_esp32_html ino_file html fs with
  | (fs', Return _) =>
      match fs' !! ino_file with
      | Some text => write_text env ino_file text d
      | None => (d, Return tt)
      end
  | (_, Raise e) => (d, Raise e)
  end.
Proof.
  intros Hd Hf.
  unfold update_esp32_html, UpdateEsp32Html.update_esp32_html, read_text.
  rewrite Hd, Hf.
  destruct (re_search start_pattern (universal_newlines raw)); [|done].
  destruct (_ =? -1)%Z; [done|]. destruct (_ =? -1)%Z; [done|].
  by rewrite lookup_insert_eq.
Qed.

Lemma update_on_disk_cases env ino_file html d raw :
  d !! ino_file = Some raw ->
  exists new r,
    splice (universal_newlines raw) html new r /\
    update_esp32_html env ino_file html d =
    match new with
    | Some text => write_text env ino_file text d
    | None => (d, r)
    end.
Proof.
  intros Hd.
  set (fs := {[ ino_file := universal_newlines raw ]} : files).
  assert (fs !! ino_file = Some (universal_newlines raw)) as Hf
    by apply lookup_singleton_eq.
  rewrite (update_on_text env _ html _ _ fs Hd Hf).
  destruct (update_cases ino_file html fs _ Hf) as (new & r & Hs & ->).
  exists new, r. split; [done|].
  inversion Hs; subst; cbn [written]; try done.
  by rewrite lookup_insert_eq.
Qed.

(** The write raises no pattern error. *)
Lemma write_text_outcome env path text d :
  (write_text env path text d).2 = Return tt \/
  exists msg, (write_text env path text d).2 = Raise (OSError msg).
Proof.
  unfold write_text. destruct (io_fault env); cbn [snd]; eauto.
Qed.

Lemma write_text_frame env path text d q :
  q <> path -> (write_text env path text d).1 !! q = d !! q.
Proof.
  intros Hq. unfold write_text.
  destruct (io_fault env); cbn [fst]; by rewrite ?lookup_insert_ne.
Qed.

Lemma update_on_disk_frame env ino_file html d q :
  q <> ino_file -> (update_esp32_html env ino_file html d).1 !! q = d !! q.
Proof.
  intros Hq. destruct (d !! ino_file) as [raw|] eqn:Hd.
  - destruct (update_on_disk_cases env ino_file html d raw Hd)
      as (new & r & _ & ->).
    destruct new; [by apply write_text_frame|done].
  - unfold update_esp32_html, read_text. by rewrite Hd.
Qed.

(** A run whose write goes through is, on the text of the files, the
    run of [UpdateEsp32Html.main]: the same lines, the same value, and
    files that read as the files [UpdateEsp32Html.main] leaves. *)
Lemma main_on_text p d :
  text_view (main (IO p NoFault) d).1.1 =
    (UpdateEsp32Html.main (text_view d)).1.1 /\
  (main (IO p NoFault) d).1.2 = (UpdateEsp32Html.main (text_view d)).1.2 /\
  (main (IO p NoFault) d).2 = (UpdateEsp32Html.main (text_view d)).2.
Proof.
  assert (forall path,
            text_view d !! path = universal_newlines <$> d !! path) as Hv
    by (intros; apply lookup_fmap).
  unfold main, UpdateEsp32Html.main, extract_html_content,
    UpdateEsp32Html.extract_html_content, read_text.
  rewrite !Hv.
  destruct (d !! standalone_path) as [raw_s|];
    cbn [fmap option_fmap option_map]; [|done].
  set (html := strip (universal_newlines raw_s)).
  assert (cr ∉ html) as Hh
    by apply strip_no_cr, universal_newlines_no_cr.
  destruct (d !! ino_path) as [raw|] eqn:Hd; cycle 1.
  { unfold update_esp32_html, UpdateEsp32Html.update_esp32_html, read_text.
    by rewrite !Hv, Hd. }
  assert (text_view d !! ino_path = Some (universal_newlines raw)) as Hf
    by (by rewrite Hv, Hd).
  rewrite (update_on_text (IO p NoFault) ino_path html d raw _ Hd Hf).
  destruct (update_cases ino_path html (text_view d) _ Hf)
    as (new & r & Hs & ->).
  inversion Hs; subst; cbn [written]; try done.
  rewrite lookup_insert_eq. unfold write_text.
  cbn [io_fault io_platform fst snd].
  split; [|done]. unfold text_view. rewrite fmap_insert. f_equal.
  apply read_back. rewrite !not_elem_of_app. repeat split.
  - apply take_no_cr, universal_newlines_no_cr.
  - by intros ?%list_elem_of_singleton.
  - done.
  - by intros ?%list_elem_of_singleton.
  - apply drop_no_cr, universal_newlines_no_cr.
Qed.

End UpdateOnDiskFacts.

Module UpdateOnDiskProofs.
Import UpdateEsp32Html UpdateStages UpdateFacts UpdateCases UpdateProofs.
Import Samples MoreSamples.
Import UpdateOnDisk UpdateOnDiskFacts.

(** C6, amended: on a firmware file that exists, the splicer raises its
    pattern-not-found error exactly when the text of the file lacks the
    literal-opening token, or lacks the end marker at or after the end
    of that token, or lacks, at or after the end marker, a
    literal-closing token with its statement terminator immediately
    followed by a line end; and whenever it raises that error the files
    are left as they were: the write comes after the three searches. *)
Theorem update_fails_exactly env ino_file html d raw :
  d !! ino_file = Some raw ->
  ((exists msg,
      (update_esp32_html env ino_file html d).2 = Raise (ValueError msg)) <->
   find (universal_newlines raw) literal_open 0 = (-1)%Z \/
   find (universal_newlines raw) end_marker
     (literal_start (universal_newlines raw)) = (-1)%Z \/
   find (universal_newlines raw) (literal_close ++ [newline])
     (marker_pos (universal_newlines raw)) = (-1)%Z) /\
  (forall msg,
     (update_esp32_html env ino_file html d).2 = Raise (ValueError msg) ->
     (update_esp32_html env ino_file html d).1 = d).
Proof.
  intros Hd.
  destruct (update_on_disk_cases env ino_file html d raw Hd)
    as (new & r & Hs & ->).
  set (ino := universal_newlines raw) in *.
  fold (marker_pos ino). fold (closing_pos ino).
  inversion Hs
    as [Ha E0|j Hj Es Ha Em|j em Hj Es Hem Em Ha Ec
       |j em cp Hj Es Hem Em Hcp Ec]; subst; cbn [fst snd].
  - split; [|done]. split; [by left|by eexists].
  - split; [|done]. split; [by right; left|by eexists].
  - split; [|done]. split; [by right; right|by eexists].
  - assert (forall msg, (write_text env ino_file
              (take (j + length literal_open) ino ++ [newline] ++ html ++
               [newline] ++ drop cp ino) d).2 <> Raise (ValueError msg)) as Hw.
    { intros msg. destruct (write_text_outcome env ino_file
        (take (j + length literal_open) ino ++ [newline] ++ html ++
         [newline] ++ drop cp ino) d) as [->|[m ->]]; done. }
    split; [|by intros msg ?%Hw]. split; [by intros [msg ?%Hw]|].
    unfold closing_pos, marker_pos, literal_start in *.
    intros [?|[?|?]]; lia.
Qed.

Lemma update_fails_exactly_witness :
  ((exists msg,
      (update_esp32_html (IO Posix NoFault) ino_path (lit "x")
         fs_no_newline).2 = Raise (ValueError msg)) <->
   find (universal_newlines ino_no_newline) literal_open 0 = (-1)%Z \/
   find (universal_newlines ino_no_newline) end_marker
     (literal_start (universal_newlines ino_no_newline)) = (-1)%Z \/
   find (universal_newlines ino_no_newline) (literal_close ++ [newline])
     (marker_pos (universal_newlines ino_no_newline)) = (-1)%Z) /\
  (forall msg,
     (update_esp32_html (IO Posix NoFault) ino_path (lit "x")
        fs_no_newline).2 = Raise (ValueError msg) ->
     (update_esp32_html (IO Posix NoFault) ino_path (lit "x")
        fs_no_newline).1 = fs_no_newline).
Proof.
  apply (update_fails_exactly (IO Posix NoFault) ino_path (lit "x")
           fs_no_newline ino_no_newline).
  reflexivity.
Defined.

(** C6 as stated fails: the file [ino_no_newline], which is read as it
    is stored, has the opening token, the end marker after it and the
    closing token (with its terminator) after the marker, and the
    splicer still raises the pattern-not-found error. *)
Lemma update_fails_with_closing_token_present :
  universal_newlines ino_no_newline = ino_no_newline /\
  (update_esp32_html (IO Posix NoFault) ino_path (lit "x")
     fs_no_newline).2 =
    Raise (ValueError "Could not find HTML string end in ESP32 file") /\
  ~ (find ino_no_newline literal_open 0 = (-1)%Z \/
     find ino_no_newline end_marker (literal_start ino_no_newline) = (-1)%Z \/
     find ino_no_newline literal_close (marker_pos ino_no_newline) = (-1)%Z \/
     find ino_no_newline raw_close (marker_pos ino_no_newline) = (-1)%Z).
Proof.
  split; [by vm_compute|]. split; [by vm_compute|].
  vm_compute. intros [H|[H|[H|H]]]; discriminate.
Qed.

Lemma update_on_disk_success_inv env ino_file html d raw d' :
  d !! ino_file = Some raw ->
  update_esp32_html env ino_file html d = (d', Return tt) ->
  exists j em cp,
    first_at literal_open (universal_newlines raw) 0 j /\
    first_at end_marker (universal_newlines raw) (j + length literal_open) em /\
    first_at (literal_close ++ [newline]) (universal_newlines raw) em cp /\
    io_fault env = NoFault /\
    d' = <[ino_file :=
             write_newlines (io_platform env)
               (take (j + length literal_open) (universal_newlines raw) ++
                [newline] ++ html ++ [newline] ++
                drop cp (universal_newlines raw))]> d.
Proof.
  intros Hd Hu.
  destruct (update_on_disk_cases env ino_file html d raw Hd)
    as (new & r & Hs & E).
  rewrite E in Hu. inversion Hs; subst; try done.
  exists j, em, cp. do 3 (split; [done|]).
  unfold write_text in Hu. destruct (io_fault env); [|done..].
  by injection Hu as <-.
Qed.

Lemma read_text_inv path d text :
  read_text path d = Return text ->
  exists raw, d !! path = Some raw /\ text = universal_newlines raw.
Proof.
  unfold read_text. destruct (d !! path) as [raw|]; [|done].
  intros [= <-]. by exists raw.
Qed.

Lemma main_on_disk_success_inv env d standalone d' out :
  read_text standalone_path d = Return standalone ->
  main env d = (d', out, 0%Z) ->
  update_esp32_html env ino_path (strip standalone) d = (d', Return tt).
Proof.
  intros Hs. unfold main, extract_html_content. rewrite Hs.
  destruct (update_esp32_html env ino_path (strip standalone) d)
    as [d1 [[]|e]]; by intros [= <- _].
Qed.

Lemma newline_not_in_open : newline ∉ literal_open.
Proof.
  intros H. repeat (apply elem_of_cons in H as [H|H]; [done|]).
  by apply elem_of_nil in H.
Qed.

(** The characters the write stores for a document of the firmware's
    shape. *)
Lemma write_newlines_document p a body rest :
  write_newlines p
    (a ++ literal_open ++ body ++ literal_close ++ [newline] ++ rest) =
  write_newlines p a ++ literal_open ++ write_newlines p body ++
  literal_close ++ linesep p ++ write_newlines p rest.
Proof.
  rewrite !write_newlines_app, write_newlines_newline.
  rewrite (write_newlines_plain p literal_open) by apply newline_not_in_open.
  by rewrite (write_newlines_plain p literal_close)
    by apply newline_not_in_close.
Qed.

(** C4, amended: when the update succeeds, the text of the firmware
    document (its line ends read as line feeds) is rewritten to the
    original prefix up to the end of the first literal-opening token, a
    line feed, the text of the whole standalone document with its
    leading and trailing whitespace trimmed, a line feed, and the
    original suffix from the literal-closing token on (the first one
    that a line feed follows, at or after the first end marker inside
    the literal).  In the file every line end of that text, those of the
    prefix and the suffix too, is stored as the line separator of the
    platform: the characters outside the splice are those the file had
    when its line ends were the platform's already.  No other file
    changes. *)
Theorem main_splices_trimmed_standalone env d standalone ino d' out :
  read_text standalone_path d = Return standalone ->
  read_text ino_path d = Return ino ->
  main env d = (d', out, 0%Z) ->
  exists a body rest em,
    ino = a ++ literal_open ++ body ++ literal_close ++ [newline] ++ rest /\
    first_at literal_open ino 0 (length a) /\
    first_at end_marker ino (length a + length literal_open) em /\
    first_at (literal_close ++ [newline]) ino em
      (length a + length literal_open + length body) /\
    d' = <[ino_path :=
             write_newlines (io_platform env) a ++ literal_open ++
             linesep (io_platform env) ++
             write_newlines (io_platform env) (strip standalone) ++
             linesep (io_platform env) ++
             literal_close ++ linesep (io_platform env) ++
             write_newlines (io_platform env) rest]> d /\
    (d !! ino_path = Some (write_newlines (io_platform env) ino) ->
     d !! ino_path =
       Some (write_newlines (io_platform env) a ++ literal_open ++
             write_newlines (io_platform env) body ++
             literal_close ++ linesep (io_platform env) ++
             write_newlines (io_platform env) rest)).
Proof.
  intros Hs Hi Hm.
  pose proof (main_on_disk_success_inv _ _ _ _ _ Hs Hm) as Hu.
  apply read_text_inv in Hi as (raw & Hd & ->).
  apply (update_on_disk_success_inv _ _ _ _ _ _ Hd) in Hu
    as (j & em & cp & Hj & Hem & Hcp & _ & ->).
  set (ino := universal_newlines raw) in *.
  destruct (splice_frame ino j em cp Hj Hem Hcp) as (E1 & E2 & E3 & E4 & E5).
  assert (length (take j ino) = j) as Hlen.
  { rewrite length_take. destruct Hj as (_ & Ho & _).
    apply occurs_at_bound in Ho; [lia|done]. }
  eexists (take j ino), _, _, em. rewrite Hlen.
  split; [exact E3|]. split; [done|]. split; [done|]. split; [|split].
  - rewrite E4. by replace (j + length literal_open +
      (cp - (j + length literal_open))) with cp by lia.
  - rewrite E1, E2. f_equal.
    rewrite <- (app_assoc (take j ino)).
    rewrite (app_assoc [newline] (strip standalone)).
    rewrite (app_assoc ([newline] ++ strip standalone) [newline]).
    rewrite write_newlines_document.
    by rewrite !write_newlines_app, write_newlines_newline, <- !app_assoc.
  - intros ->. f_equal. rewrite E3 at 1. apply write_newlines_document.
Qed.

Lemma main_splices_trimmed_standalone_witness :
  exists a body rest em,
    ino_sample =
      a ++ literal_open ++ body ++ literal_close ++ [newline] ++ rest /\
    first_at literal_open ino_sample 0 (length a) /\
    first_at end_marker ino_sample (length a + length literal_open) em /\
    first_at (literal_close ++ [newline]) ino_sample em
      (length a + length literal_open + length body) /\
    (main (IO Windows NoFault) disk_crlf).1.1 =
      <[ino_path :=
          write_newlines Windows a ++ literal_open ++ linesep Windows ++
          write_newlines Windows (strip standalone_tight) ++
          linesep Windows ++ literal_close ++ linesep Windows ++
          write_newlines Windows rest]> disk_crlf /\
    (disk_crlf !! ino_path = Some (write_newlines Windows ino_sample) ->
     disk_crlf !! ino_path =
       Some (write_newlines Windows a ++ literal_open ++
             write_newlines Windows body ++
             literal_close ++ linesep Windows ++
             write_newlines Windows rest)).
Proof.
  apply (main_splices_trimmed_standalone (IO Windows NoFault) disk_crlf
           standalone_tight ino_sample _
           (main (IO Windows NoFault) disk_crlf).1.2).
  - by vm_compute.
  - by vm_compute.
  - by vm_compute.
Defined.

(** C4 as stated fails twice over.  The standalone document
    [standalone_sample] ends with a line feed, the update succeeds, and
    the rewritten firmware document is not the prefix, a line feed, the
    standalone content verbatim, a line feed and the suffix.  And the
    firmware file [ino_crlf], whose lines end with a carriage return and
    a line feed, is rewritten on a platform whose line separator is the
    line feed with a standalone document that has nothing to trim: the
    update succeeds, and what the file had up to the end of the
    literal-opening token is no longer how it begins, what it had from
    the closing token on is no longer how it ends. *)
Lemma main_does_not_splice_verbatim :
  ((main (IO Posix NoFault) fs_sample).2 = 0%Z /\
   read_text standalone_path fs_sample = Return standalone_sample /\
   read_text ino_path fs_sample = Return ino_sample /\
   (main (IO Posix NoFault) fs_sample).1.1 !! ino_path <>
     Some (slice_to ino_sample (literal_start ino_sample) ++ [newline] ++
           standalone_sample ++ [newline] ++
           slice_from ino_sample (closing_pos ino_sample))) /\
  ((main (IO Posix NoFault) disk_crlf).2 = 0%Z /\
   strip standalone_tight = standalone_tight /\
   exists new,
     (main (IO Posix NoFault) disk_crlf).1.1 !! ino_path = Some new /\
     ~ slice_to ino_crlf (literal_start ino_crlf) `prefix_of` new /\
     ~ slice_from ino_crlf
         (find ino_crlf literal_close (marker_pos ino_crlf)) `suffix_of` new).
Proof.
  split.
  - split; [by vm_compute|]. split; [by vm_compute|].
    split; [by vm_compute|]. vm_compute. discriminate.
  - split; [by vm_compute|]. split; [by vm_compute|].
    eexists. split; [by vm_compute|]. split.
    + intros H%prefix_take. revert H. vm_compute. discriminate.
    + intros H%suffix_drop. revert H. vm_compute. discriminate.
Qed.

(** How the update operation ends, by what the splicer did. *)
Lemma main_on_disk_cases d :
  (exists e, forall env, main env d = (d, [Extracting; Error e], 1%Z)) \/
  (exists html, forall env,
     main env d =
     match update_esp32_html env ino_path html d with
     | (d', Return _) =>
         (d', [Extracting; Extracted (length html); Updating;
               Updated; ShouldBeSynchronized], 0%Z)
     | (d', Raise e) =>
         (d', [Extracting; Extracted (length html); Updating; Error e], 1%Z)
     end).
Proof.
  unfold main.
  destruct (extract_html_content standalone_path d) as [html|e]; eauto.
Qed.

(** The splicer either raises before the write, whatever the write
    would do, or ends as the write of one text ends. *)
Lemma update_on_disk_shape ino_file html d :
  (exists e, forall env,
     update_esp32_html env ino_file html d = (d, Raise e)) \/
  (exists text, forall env,
     update_esp32_html env ino_file html d = write_text env ino_file text d).
Proof.
  unfold update_esp32_html.
  destruct (read_text ino_file d) as [ino|e]; [|by left; exists e].
  destruct (re_search start_pattern ino); [|by left; eexists].
  destruct (_ =? -1)%Z; [by left; eexists|].
  destruct (_ =? -1)%Z; [by left; eexists|].
  right. by eexists.
Qed.

(** X9: the update operation returns 0 or 1 and leaves every file other
    than the firmware document as it was.  It returns 0 only when the
    write went through.  When it returns 1 and the write did not fail
    after the firmware file was opened (a file is missing, a pattern is
    not found, or the file cannot be opened for writing), no file has
    changed.  When the write does fail after the file was opened, in a
    run that would have returned 0 without the fault, the operation
    returns 1, its last line reports the error, and the firmware file
    holds only the characters that reached it: the old content is not
    put back. *)
Theorem update_main_frame env d :
  ((main env d).2 = 0%Z \/ (main env d).2 = 1%Z) /\
  (forall path, path <> ino_path -> (main env d).1.1 !! path = d !! path) /\
  ((main env d).2 = 0%Z -> io_fault env = NoFault) /\
  ((main env d).2 = 1%Z ->
   (forall reached msg, io_fault env <> WriteFault reached msg) ->
   (main env d).1.1 = d) /\
  (forall reached msg,
     io_fault env = WriteFault reached msg ->
     (main (IO (io_platform env) NoFault) d).2 = 0%Z ->
     (main env d).2 = 1%Z /\
     last (main env d).1.2 = Some (Error (OSError msg)) /\
     (main env d).1.1 !! ino_path =
       take reached <$>
         (main (IO (io_platform env) NoFault) d).1.1 !! ino_path).
Proof.
  destruct (main_on_disk_cases d) as [[e E]|(html & E)]; rewrite !E.
  { cbn [fst snd]. by repeat split; auto. }
  destruct (update_on_disk_shape ino_path html d) as [[e Hu]|[text Hu]];
    rewrite !Hu; [by repeat split; auto|].
  unfold write_text. cbn [io_fault io_platform].
  destruct (io_fault env) as [|msg|reached msg] eqn:Hf; cbn [fst snd].
  - split; [by left|]. split; [by intros; rewrite lookup_insert_ne|].
    by repeat split.
  - split; [by right|]. by repeat split.
  - split; [by right|]. split; [by intros; rewrite lookup_insert_ne|].
    split; [done|]. split; [by intros _ Hn; destruct (Hn reached msg)|].
    intros reached' msg' [= <- <-] _.
    split; [done|]. split; [done|]. by rewrite !lookup_insert_eq.
Qed.

Lemma update_main_frame_witness :
  (main (IO Posix (WriteFault 0 "No space left on device")) fs_sample).2
    = 1%Z /\
  last (main (IO Posix (WriteFault 0 "No space left on device"))
          fs_sample).1.2
    = Some (Error (OSError "No space left on device")) /\
  (main (IO Posix (WriteFault 0 "No space left on device")) fs_sample).1.1
    !! ino_path
    = take 0 <$> (main (IO Posix NoFault) fs_sample).1.1 !! ino_path.
Proof.
  apply (update_main_frame
           (IO Posix (WriteFault 0 "No space left on device")) fs_sample).
  - reflexivity.
  - by vm_compute.
Defined.

End UpdateOnDiskProofs.

(** ** Comments and the sentinel text *)

Module CommentStep.
Import SyncCheck NormalizeSteps NormalizeTokens NormalizeProofs.

Lemma re_sub_app_no_match r repl a x :
  (forall i, i < length a -> match_here r (drop i (a ++ x)) = None) ->
  re_sub r repl (a ++ x) = a ++ re_sub r repl x.
Proof.
  induction a as [|c a IH]; intros H; [done|].
  rewrite <- app_comm_cons, re_sub_cons.
  rewrite (H 0 ltac:(simpl; lia) : match_here r (c :: a ++ x) = None).
  rewrite <- app_comm_cons. f_equal.
  apply IH. intros i Hi. apply (H (S i)). simpl. lia.
Qed.

Lemma greedy_any_is_Some {A} (K : str -> option A) t i :
  is_Some (K (drop i t)) -> is_Some (greedy anychar t K).
Proof.
  revert i. induction t as [|c t IH]; intros i; cbn [greedy anychar].
  - by rewrite drop_nil.
  - destruct i as [|i]; cbn [drop].
    + intros H. by destruct (greedy anychar t K).
    + intros H. apply IH in H as [a ->]. by eexists.
Qed.

(** The comment pattern at the head of [s], continuation by
    continuation. *)
Lemma match_here_comment s :
  match_here comment_pattern s =
  if starts_with comment_open s then
    match greedy anychar (drop (length comment_open) s)
            (fun t => if starts_with sentinel_text t then Some tt else None)
    with
    | Some _ => None
    | None =>
        lazy anychar (drop (length comment_open) s)
          (fun t => if starts_with comment_close t
                    then Some (length s - length (drop (length comment_close) t),
                               None)
                    else None)
    end
  else None.
Proof. reflexivity. Qed.

(** The lookahead fails the match when the sentinel text occurs
    anywhere after the opener. *)
Lemma comment_blocked s p m :
  occurs_at sentinel_text s m -> p + length comment_open <= m ->
  match_here comment_pattern (drop p s) = None.
Proof.
  intros Hm Hp. rewrite match_here_comment.
  destruct (starts_with comment_open (drop p s)); [|done].
  rewrite drop_drop.
  destruct (greedy_any_is_Some
              (fun t => if starts_with sentinel_text t then Some tt else None)
              (drop (p + length comment_open) s)
              (m - (p + length comment_open))) as [[] ->]; [|done].
  rewrite drop_drop.
  replace (p + length comment_open + (m - (p + length comment_open)))
    with m by lia.
  unfold occurs_at in Hm. by rewrite Hm.
Qed.

Lemma opener_sentinel_disjoint c : c ∈ comment_open -> c ∈ sentinel_text -> False.
Proof.
  intros Ho Hs.
  repeat (apply elem_of_cons in Ho as [->|Ho];
          [revert Hs; clear; intros Hs;
           repeat (apply elem_of_cons in Hs as [Hs|Hs]; [done|]);
           by apply elem_of_nil in Hs|]).
  by apply elem_of_nil in Ho.
Qed.

(** No comment opener overlaps an occurrence of the sentinel text. *)
Lemma opener_off_sentinel s p m :
  occurs_at sentinel_text s m -> occurs_at comment_open s p ->
  p + length comment_open <= m \/ m + length sentinel_text <= p.
Proof.
  intros Hm Hp.
  destruct (decide (p + length comment_open <= m)); [by left|].
  destruct (decide (m + length sentinel_text <= p)); [by right|].
  exfalso.
  assert (length comment_open = 4) as Hlo by done.
  assert (length sentinel_text = 11) as Hls by done.
  pose proof (occurs_at_lookup _ _ _ (p `max` m - p) Hp ltac:(lia)) as E1.
  pose proof (occurs_at_lookup _ _ _ (p `max` m - m) Hm ltac:(lia)) as E2.
  replace (p + (p `max` m - p)) with (p `max` m) in E1 by lia.
  replace (m + (p `max` m - m)) with (p `max` m) in E2 by lia.
  rewrite E1 in E2.
  destruct (comment_open !! (p `max` m - p)) as [c|] eqn:Ec.
  - apply (opener_sentinel_disjoint c).
    + by eapply list_elem_of_lookup_2.
    + symmetry in E2. by eapply list_elem_of_lookup_2.
  - apply lookup_ge_None in Ec. lia.
Qed.

(** Nothing is deleted up to the end of an occurrence of the sentinel
    text. *)
Lemma strip_comments_split_at_sentinel s m :
  occurs_at sentinel_text s m ->
  strip_comments s =
  take (m + length sentinel_text) s ++
  strip_comments (drop (m + length sentinel_text) s).
Proof.
  intros Hm. unfold strip_comments.
  pose proof (occurs_at_bound sentinel_text s m ltac:(done) Hm) as Hb.
  rewrite <- (take_drop (m + length sentinel_text) s) at 1.
  apply re_sub_app_no_match. intros i Hi. rewrite length_take in Hi.
  rewrite take_drop.
  destruct (decide (i + length comment_open <= m)) as [Hle|Hgt].
  { by apply (comment_blocked s i m). }
  rewrite match_here_comment.
  destruct (starts_with comment_open (drop i s)) eqn:E; [|done].
  destruct (opener_off_sentinel s i m Hm E); lia.
Qed.

(** X10: the comment-removal step deletes nothing up to the end of any
    occurrence of the sentinel text: every comment that begins before
    such an occurrence stays, whatever its own content. *)
Theorem strip_comments_keeps_up_to_sentinel s m :
  occurs_at sentinel_text s m ->
  re_sub comment_pattern [] s =
  take (m + length sentinel_text) s ++
  re_sub comment_pattern [] (drop (m + length sentinel_text) s).
Proof. apply strip_comments_split_at_sentinel. Qed.

Lemma strip_comments_keeps_up_to_sentinel_witness :
  re_sub comment_pattern [] note_before_sentinel =
  take (26 + length sentinel_text) note_before_sentinel ++
  re_sub comment_pattern []
    (drop (26 + length sentinel_text) note_before_sentinel).
Proof.
  apply (strip_comments_keeps_up_to_sentinel note_before_sentinel 26).
  by vm_compute.
Defined.

(** An occurrence of the opener that begins before another opener lies
    wholly before it. *)
Lemma opener_before_opener a x i :
  occurs_at comment_open (a ++ comment_open ++ x) i -> i < length a ->
  i + length comment_open <= length a.
Proof.
  intros Ho Hi.
  destruct (decide (i + length comment_open <= length a)); [done|].
  exfalso. assert (length comment_open = 4) as Hl by done.
  pose proof (occurs_at_lookup _ _ _ (length a - i) Ho ltac:(lia)) as E.
  replace (i + (length a - i)) with (length a) in E by lia.
  rewrite lookup_app_r in E by lia. rewrite Nat.sub_diag in E.
  destruct (length a - i) as [|[|[|[|k]]]] eqn:Ek; try lia; done.
Qed.

(** An occurrence of the closer that begins before another closer lies
    wholly before it. *)
Lemma closer_before_closer body x i :
  occurs_at comment_close (body ++ comment_close ++ x) i ->
  i < length body -> occurs_at comment_close body i.
Proof.
  intros Ho Hi. assert (length comment_close = 3) as Hl by done.
  destruct (decide (i + length comment_close <= length body)) as [Hle|Hgt].
  { by apply occurs_at_app_l in Ho. }
  exfalso.
  pose proof (occurs_at_lookup _ _ _ 2 Ho ltac:(lia)) as E.
  rewrite lookup_app_r in E by lia.
  destruct (i + 2 - length body) as [|[|k]] eqn:Ek; try lia; done.
Qed.

(** A comment with no sentinel text after its opener is matched up to
    its first closer. *)
Lemma comment_matched body b :
  absent_from sentinel_text (body ++ comment_close ++ b) 0 ->
  absent_from comment_close body 0 ->
  match_here comment_pattern (comment_open ++ body ++ comment_close ++ b) =
  Some (length comment_open + length body + length comment_close, None).
Proof.
  intros Hs Hc. rewrite match_here_comment.
  rewrite starts_with_app, drop_app_length.
  rewrite greedy_miss; cycle 1.
  { intros i _.
    destruct (starts_with sentinel_text (drop i _)) eqn:E; [|done].
    by destruct (Hs i ltac:(lia)). }
  apply (lazy_any_first _ _ (length body)).
  - rewrite length_app. lia.
  - intros i Hi.
    destruct (starts_with comment_close (drop i _)) eqn:E; [|done].
    apply closer_before_closer in E; [|done]. by destruct (Hc i ltac:(lia)).
  - rewrite drop_app_length, starts_with_app, drop_app_length.
    rewrite !length_app. do 2 f_equal. lia.
Qed.

Lemma strip_comments_comment body b :
  absent_from sentinel_text (body ++ comment_close ++ b) 0 ->
  absent_from comment_close body 0 ->
  strip_comments (comment_open ++ body ++ comment_close ++ b) =
  strip_comments b.
Proof.
  intros Hs Hc. unfold strip_comments.
  change (comment_open ++ body ++ comment_close ++ b)
    with (60%N :: lit "!--" ++ body ++ comment_close ++ b).
  rewrite re_sub_cons.
  change (60%N :: lit "!--" ++ body ++ comment_close ++ b)
    with (comment_open ++ body ++ comment_close ++ b).
  rewrite (comment_matched body b Hs Hc).
  change (length comment_open + length body + length comment_close)
    with (S (length (lit "!--") + length body + length comment_close)).
  cbn [app]. f_equal.
  rewrite (app_assoc body), (app_assoc (lit "!--")).
  apply drop_app_length'. rewrite !length_app. lia.
Qed.

Lemma strip_comments_prefix a x :
  (forall i, i < length a -> ~ occurs_at comment_open (a ++ x) i) ->
  strip_comments (a ++ x) = a ++ strip_comments x.
Proof.
  intros H. apply re_sub_app_no_match. intros i Hi.
  rewrite match_here_comment.
  destruct (starts_with comment_open (drop i (a ++ x))) eqn:E; [|done].
  by destruct (H i Hi).
Qed.

(** X11: a comment is invisible to the normalizer when no sentinel text
    occurs anywhere after its opener, its content holds no closer, and
    no comment opener begins in the text before it, not even one that
    its removal would complete: the text normalises as if the comment
    were not there. *)
Theorem normalize_html_drops_comment a body b :
  (forall i, i < length a -> ~ occurs_at comment_open (a ++ b) i) ->
  absent_from sentinel_text (body ++ comment_close ++ b) 0 ->
  absent_from comment_close body 0 ->
  normalize_html (a ++ comment_open ++ body ++ comment_close ++ b) =
  normalize_html (a ++ b).
Proof.
  intros Ha Hs Hc.
  assert (strip_comments (a ++ comment_open ++ body ++ comment_close ++ b) =
          a ++ strip_comments b) as E1.
  { rewrite strip_comments_prefix; [by rewrite strip_comments_comment|].
    intros i Hi Ho.
    pose proof (opener_before_opener _ _ _ Ho Hi) as Hle.
    apply (Ha i Hi). apply occurs_at_app_l; [done|].
    by apply occurs_at_app_l in Ho. }
  assert (strip_comments (a ++ b) = a ++ strip_comments b) as E2
    by by apply strip_comments_prefix.
  rewrite !normalize_html_steps, E1.
  destruct (a ++ comment_open ++ body ++ comment_close ++ b) eqn:E.
  { apply (f_equal length) in E. rewrite !length_app in E. simpl in E. lia. }
  destruct (a ++ b) eqn:Eab; [|by rewrite E2].
  apply app_eq_nil in Eab as [-> ->]. reflexivity.
Qed.

Lemma normalize_html_drops_comment_witness :
  normalize_html (lit "<p>a</p> " ++ comment_open ++ lit " note " ++
                  comment_close ++ lit " <p>b</p>") =
  normalize_html (lit "<p>a</p> " ++ lit " <p>b</p>").
Proof.
  apply (normalize_html_drops_comment (lit "<p>a</p> ") (lit " note ")
           (lit " <p>b</p>")).
  - intros i _.
    apply (find_missing_inv comment_open
             (lit "<p>a</p> " ++ lit " <p>b</p>") 0 ltac:(done)
             ltac:(by vm_compute) i). lia.
  - apply (find_missing_inv _ _ 0); [done|by vm_compute].
  - apply (find_missing_inv _ _ 0); [done|by vm_compute].
Defined.

End CommentStep.

(** ** Whitespace runs *)

Module WhitespaceRuns.
Import SyncCheck NormalizeSteps NormalizeTokens NormalizeProofs NormalForm.
Import CommentStep.

Lemma lstrip_app_nonblank a x : lstrip a <> [] -> lstrip (a ++ x) = lstrip a ++ x.
Proof.
  induction a as [|c a IH]; [done|]. simpl.
  destruct (isspace c); [apply IH|done].
Qed.

Lemma lstrip_nil_blank a : lstrip a = [] -> blank a.
Proof.
  induction a as [|c a IH]; [constructor|]. simpl.
  destruct (isspace c) eqn:E; [|done]. intros H. constructor; [done|].
  by apply IH.
Qed.

Lemma collapse_blank_head r b :
  r <> [] -> blank r -> collapse (r ++ b) = space :: collapse (lstrip b).
Proof.
  intros Hne Hb. destruct r as [|c r]; [done|].
  inversion Hb; subst. rewrite <- app_comm_cons, collapse_cons.
  replace (isspace c) with true by done.
  by rewrite lstrip_blank_app.
Qed.

Lemma blank_space : blank [space].
Proof. by repeat constructor. Qed.

(** Which whitespace characters make up a run, and how many, does not
    matter to the collapsing step. *)
Lemma collapse_run a r b :
  r <> [] -> blank r ->
  collapse (a ++ r ++ b) = collapse (a ++ [space] ++ b).
Proof.
  intros Hne Hb.
  assert (forall n a, length a <= n ->
            collapse (a ++ r ++ b) = collapse (a ++ [space] ++ b)) as H;
    [|by apply (H (length a))].
  clear a. induction n as [|n IH]; intros a Hn.
  - destruct a; [|simpl in Hn; lia]. rewrite !app_nil_l.
    rewrite (collapse_blank_head r b Hne Hb).
    by rewrite (collapse_blank_head [space] b ltac:(done) blank_space).
  - destruct a as [|c a].
    { rewrite !app_nil_l. rewrite (collapse_blank_head r b Hne Hb).
      by rewrite (collapse_blank_head [space] b ltac:(done) blank_space). }
    simpl in Hn. rewrite <- !(app_comm_cons a), !collapse_cons.
    destruct (isspace c); [|f_equal; apply IH; lia].
    f_equal. destruct (lstrip a) as [|d u] eqn:El.
    + pose proof (lstrip_nil_blank a El) as Ha.
      rewrite !(lstrip_blank_app a) by done.
      rewrite (lstrip_blank_app r b Hb).
      by rewrite (lstrip_blank_app [space] b blank_space).
    + rewrite !lstrip_app_nonblank by by rewrite El.
      rewrite El. apply IH.
      pose proof (lstrip_length a) as Hl. rewrite El in Hl. lia.
Qed.

(** A token without whitespace does not reach across a run of
    whitespace. *)
Lemma occurs_across_blank w a r b i :
  w <> [] -> Forall (fun c => isspace c = false) w ->
  r <> [] -> blank r ->
  occurs_at w (a ++ r ++ b) i ->
  occurs_at w a i \/ exists j, occurs_at w b j.
Proof.
  intros Hw Hplain Hne Hb. revert a i.
  induction r as [|c r IH]; [done|]. intros a i Ho.
  inversion Hb as [|? ? Hc Hr]; subst.
  assert (c ∉ w) as Hcw.
  { intros Hin. rewrite Forall_forall in Hplain.
    apply Hplain in Hin. congruence. }
  rewrite <- app_comm_cons in Ho.
  apply occurs_at_sep in Ho as [[_ Ho]|[_ Ho]]; [by left|right|done..].
  destruct r as [|d r]; [by eexists|].
  destruct (IH ltac:(done) Hr [] _ Ho) as [Hnil|Hj]; [|done].
  apply occurs_at_bound in Hnil; [|done].
  destruct w; [done|simpl in Hnil; lia].
Qed.

Lemma comment_open_visible : Forall (fun c => isspace c = false) comment_open.
Proof. by repeat constructor. Qed.

(** X12: in a text without comment openers, replacing one run of
    whitespace by any other run of whitespace, of whatever characters
    and length, does not change the normal form. *)
Theorem normalize_html_whitespace_run a r1 r2 b :
  absent_from comment_open a 0 -> absent_from comment_open b 0 ->
  r1 <> [] -> blank r1 -> r2 <> [] -> blank r2 ->
  normalize_html (a ++ r1 ++ b) = normalize_html (a ++ r2 ++ b).
Proof.
  intros Ha Hb Hn1 Hb1 Hn2 Hb2.
  assert (forall r, r <> [] -> blank r ->
            normalize_html (a ++ r ++ b) =
            strip (join_tags (collapse (a ++ [space] ++ b)))) as H.
  { intros r Hn Hr. rewrite normalize_html_steps.
    destruct (a ++ r ++ b) eqn:E.
    { apply (f_equal length) in E. rewrite !length_app in E.
      destruct r; [done|simpl in E; lia]. }
    rewrite <- E. rewrite strip_comments_no_opener.
    - by rewrite (collapse_run a r b Hn Hr).
    - intros i _ Ho.
      apply occurs_across_blank in Ho as [Ho|[j Ho]];
        [by apply (Ha i); [lia|]|by apply (Hb j); [lia|]|done
        |apply comment_open_visible|done..]. }
  by rewrite (H r1 Hn1 Hb1), (H r2 Hn2 Hb2).
Qed.

Lemma normalize_html_whitespace_run_witness :
  normalize_html (lit "<p>a" ++ (lit " " ++ [newline; 9%N]) ++ lit "b</p>") =
  normalize_html (lit "<p>a" ++ [160%N] ++ lit "b</p>").
Proof.
  apply (normalize_html_whitespace_run (lit "<p>a") _ _ (lit "b</p>")).
  - apply (find_missing_inv _ _ 0); [done|by vm_compute].
  - apply (find_missing_inv _ _ 0); [done|by vm_compute].
  - done.
  - by repeat constructor.
  - done.
  - by repeat constructor.
Defined.

End WhitespaceRuns.

(** ** The sentinel text survives normalisation *)

Module SentinelKept.
Import SyncCheck NormalizeSteps NormalizeTokens NormalizeProofs NormalForm.
Import CommentStep WhitespaceRuns.

Lemma collapse_nonspace c t :
  isspace c = false -> collapse (c :: t) = c :: collapse t.
Proof. intros Hc. by rewrite collapse_cons, Hc. Qed.

Lemma collapse_app_nonspace a c t :
  isspace c = false ->
  collapse (a ++ c :: t) = collapse a ++ collapse (c :: t).
Proof.
  intros Hc.
  assert (forall n a, length a <= n ->
            collapse (a ++ c :: t) = collapse a ++ collapse (c :: t)) as H;
    [|by apply (H (length a))].
  clear a. induction n as [|n IH]; intros a Hn.
  - by destruct a; [|simpl in Hn; lia].
  - destruct a as [|d a]; [done|]. simpl in Hn.
    rewrite <- app_comm_cons, !(collapse_cons d).
    destruct (isspace d); [|rewrite <- app_comm_cons; f_equal; apply IH; lia].
    rewrite <- app_comm_cons. f_equal.
    destruct (lstrip a) as [|d' u] eqn:El.
    + rewrite lstrip_blank_app by by apply lstrip_nil_blank.
      by rewrite lstrip_head_nonspace.
    + rewrite lstrip_app_nonblank by by rewrite El.
      rewrite El. apply IH.
      pose proof (lstrip_length a) as Hl. rewrite El in Hl. lia.
Qed.

Lemma collapse_sentinel b :
  collapse (sentinel_text ++ b) = sentinel_text ++ collapse b.
Proof.
  change (sentinel_text ++ b)
    with (lit "SYNC" ++ space :: lit "MARKER" ++ b).
  cbn [lit map String.list_ascii_of_string app].
  rewrite !collapse_nonspace by done.
  rewrite collapse_cons.
  change (isspace space) with true. cbn iota.
  rewrite lstrip_head_nonspace by done.
  by rewrite !collapse_nonspace by done.
Qed.

Lemma match_here_tag_gap_head c t :
  c <> 62%N -> match_here tag_gap_pattern (c :: t) = None.
Proof.
  intros Hc. rewrite match_here_tag_gap. destruct t as [|d t]; [done|].
  by destruct (N.eqb_spec 62 c).
Qed.

Lemma join_tags_plain_prefix a x :
  62%N ∉ a -> join_tags (a ++ x) = a ++ join_tags x.
Proof.
  intros Ha. apply re_sub_app_no_match. intros i Hi.
  rewrite drop_app_le by lia.
  destruct (drop i a) as [|c u] eqn:E.
  { apply (f_equal length) in E. rewrite length_drop in E. simpl in E. lia. }
  rewrite <- app_comm_cons. apply match_here_tag_gap_head.
  intros ->. apply Ha.
  apply (list_elem_of_lookup_2 _ i). rewrite <- (Nat.add_0_r i).
  by rewrite <- lookup_drop, E.
Qed.

Lemma join_tags_app_visible a c t :
  isspace c = false -> c <> 60%N ->
  join_tags (a ++ c :: t) = join_tags a ++ join_tags (c :: t).
Proof.
  intros Hc Hlt.
  assert (forall n a, length a <= n ->
            join_tags (a ++ c :: t) = join_tags a ++ join_tags (c :: t)) as H;
    [|by apply (H (length a))].
  clear a. induction n as [|n IH]; intros a Hn.
  - by destruct a; [|simpl in Hn; lia].
  - destruct a as [|d a]; [done|]. simpl in Hn.
    destruct (match_here tag_gap_pattern (d :: a)) as [[k g]|] eqn:Em.
    + apply match_here_tag_gap_Some in Em
        as (run & rest & E & Hne & Hb & _ & _).
      rewrite E. rewrite <- app_comm_cons, <- app_assoc, <- app_comm_cons.
      rewrite !join_tags_gap by done.
      rewrite <- !app_comm_cons. do 2 f_equal. apply IH.
      injection E as _ E. apply (f_equal length) in E.
      rewrite length_app in E. simpl in E. lia.
    + assert (match_here tag_gap_pattern (d :: a ++ c :: t) = None) as Em'.
      { destruct (match_here tag_gap_pattern (d :: a ++ c :: t))
          as [[k g]|] eqn:Em'; [|done].
        exfalso.
        apply match_here_tag_gap_Some in Em'
          as (run & rest & [= -> E] & Hne & Hb & _ & _).
        pose proof (list_lookup_middle a t c (length a) eq_refl) as Hl.
        rewrite E in Hl.
        destruct (decide (length a < length run)) as [Hlt1|Hge].
        { rewrite lookup_app_l in Hl by done.
          apply (blank_lookup _ _ _ Hb) in Hl. congruence. }
        destruct (decide (length a = length run)) as [Heq|Hne2].
        { rewrite Heq, list_lookup_middle in Hl by done. congruence. }
        assert (run ++ 60%N :: take (length a - length run - 1) rest = a)
          as Ea.
        { pose proof (take_app_length a (c :: t)) as Ht. rewrite E in Ht.
          rewrite take_app_ge in Ht by lia.
          replace (length a - length run)
            with (S (length a - length run - 1)) in Ht by lia.
          exact Ht. }
        rewrite <- Ea in Em.
        by rewrite (match_here_tag_gap_intro run _ Hne Hb) in Em. }
      unfold join_tags. rewrite <- app_comm_cons.
      rewrite (re_sub_cons _ _ d (a ++ c :: t)), (re_sub_cons _ _ d a).
      rewrite Em, Em'. rewrite <- app_comm_cons. f_equal. apply IH. lia.
Qed.

Lemma gt_not_in_sentinel : 62%N ∉ sentinel_text.
Proof.
  intros H. repeat (apply elem_of_cons in H as [H|H]; [done|]).
  by apply elem_of_nil in H.
Qed.

Lemma trimmed_sentinel : trimmed sentinel_text.
Proof.
  split; intros c u E.
  - by injection E as <- _.
  - change sentinel_text with (lit "SYNC MARKE" ++ [82%N]) in E.
    apply app_inj_tail in E as [_ <-]. done.
Qed.

Lemma collapse_keeps_sentinel y m :
  occurs_at sentinel_text y m ->
  exists m', occurs_at sentinel_text (collapse y) m'.
Proof.
  intros [E _]%occurs_at_split; [|done]. rewrite E.
  exists (length (collapse (take m y))).
  change (sentinel_text ++ drop (m + length sentinel_text) y)
    with (83%N :: lit "YNC MARKER" ++ drop (m + length sentinel_text) y).
  rewrite collapse_app_nonspace by done.
  change (83%N :: lit "YNC MARKER" ++ drop (m + length sentinel_text) y)
    with (sentinel_text ++ drop (m + length sentinel_text) y).
  rewrite collapse_sentinel. apply occurs_at_app.
Qed.

Lemma join_tags_keeps_sentinel y m :
  occurs_at sentinel_text y m ->
  exists m', occurs_at sentinel_text (join_tags y) m'.
Proof.
  intros [E _]%occurs_at_split; [|done]. rewrite E.
  exists (length (join_tags (take m y))).
  change (sentinel_text ++ drop (m + length sentinel_text) y)
    with (83%N :: lit "YNC MARKER" ++ drop (m + length sentinel_text) y).
  rewrite join_tags_app_visible by done.
  change (83%N :: lit "YNC MARKER" ++ drop (m + length sentinel_text) y)
    with (sentinel_text ++ drop (m + length sentinel_text) y).
  rewrite (join_tags_plain_prefix sentinel_text) by apply gt_not_in_sentinel.
  apply occurs_at_app.
Qed.

Lemma strip_keeps_sentinel y m :
  occurs_at sentinel_text y m ->
  exists m', occurs_at sentinel_text (strip y) m'.
Proof.
  intros Ho. destruct (strip_decomp y) as (l & r & E & Hl & Hr).
  rewrite E in Ho.
  apply occurs_at_framed in Ho as [_ Ho];
    [by eexists|done|apply trimmed_sentinel|done..].
Qed.

Lemma strip_comments_keeps_sentinel y m :
  occurs_at sentinel_text y m ->
  occurs_at sentinel_text (strip_comments y) m.
Proof.
  intros Ho. rewrite (strip_comments_split_at_sentinel y m Ho).
  pose proof (occurs_at_bound sentinel_text y m ltac:(done) Ho) as Hb.
  apply occurs_at_app_l; [rewrite length_take; lia|].
  by apply occurs_at_take.
Qed.

(** X13: a text in which the sentinel text occurs normalises to a text
    in which the sentinel text occurs. *)
Theorem normalize_html_keeps_sentinel x m :
  occurs_at sentinel_text x m ->
  exists m', occurs_at sentinel_text (normalize_html x) m'.
Proof.
  intros Ho. rewrite normalize_html_steps.
  destruct x as [|c x].
  { apply occurs_at_bound in Ho; [|done]. simpl in Ho. lia. }
  apply strip_comments_keeps_sentinel in Ho.
  apply collapse_keeps_sentinel in Ho as [m1 Ho].
  apply join_tags_keeps_sentinel in Ho as [m2 Ho].
  by apply strip_keeps_sentinel in Ho.
Qed.

Lemma normalize_html_keeps_sentinel_witness :
  exists m', occurs_at sentinel_text (normalize_html note_before_sentinel) m'.
Proof.
  apply (normalize_html_keeps_sentinel note_before_sentinel 26).
  by vm_compute.
Defined.

End SentinelKept.

(** ** Update, then check *)

Module UpdateThenCheck.
Import UpdateEsp32Html UpdateStages UpdateFacts UpdateCases UpdateProofs.
Import SyncCheck ExtractorMatch ExtractProofs RoundTrip Samples.
Import NormalizeSteps NormalizeTokens NormalizeProofs NormalForm.
Import CommentStep WhitespaceRuns SentinelKept SentinelWord.

(** A token inside a token that occurs. *)
Lemma occurs_at_within v w s i k :
  w <> [] -> v <> [] ->
  occurs_at w s i -> occurs_at v w k -> occurs_at v s (i + k).
Proof.
  intros Hw Hv Ho Hk.
  apply occurs_at_split in Ho as [E Hi]; [|done].
  pose proof (occurs_at_bound _ _ _ Hv Hk) as Hb.
  rewrite E.
  replace (i + k) with (length (take i s) + k)
    by (rewrite length_take; lia).
  apply occurs_at_app_r. by apply occurs_at_app_l.
Qed.

Lemma plain_marker_word : plain marker_word.
Proof. by repeat constructor. Qed.

(** Without comment openers, normalising creates no [marker_word]. *)
Lemma normalize_creates_no_marker_word region :
  absent_from comment_open region 0 ->
  absent_from marker_word region 0 ->
  absent_from marker_word (normalize_html region) 0.
Proof.
  intros Hc Hm i _ Ho. rewrite normalize_html_steps in Ho.
  destruct region as [|c region]; [by destruct (Hm i ltac:(lia))|].
  rewrite (strip_comments_no_opener _ Hc) in Ho.
  apply strip_occurs in Ho as (j1 & Ho); [|done].
  apply join_tags_occurs in Ho as (j2 & Ho); [|apply plain_marker_word|done].
  apply collapse_occurs in Ho as (j3 & Ho); [|apply plain_marker_word|done].
  by destruct (Hm j3 ltac:(lia)).
Qed.

(** The sentinel text stays in the normal form of a trimmed document
    that holds the end marker. *)
Lemma normalize_keeps_end_marker_text standalone :
  find standalone end_marker 0 <> (-1)%Z ->
  exists m, occurs_at marker_word (normalize_html (strip standalone)) m.
Proof.
  intros Hf.
  destruct (find_cases end_marker standalone 0 end_marker_nonempty)
    as [[E _]|(e & _ & He)]; [done|].
  apply first_at_occurs in He.
  destruct (strip_decomp standalone) as (l & r & E & Hl & Hr).
  rewrite E in He.
  apply occurs_at_framed in He as [_ He];
    [|done|apply trimmed_end_marker|done..].
  assert (occurs_at sentinel_text end_marker 16) as Hs by by vm_compute.
  pose proof (occurs_at_within sentinel_text end_marker _ _ _
                ltac:(done) ltac:(done) He Hs) as Ho.
  destruct (strip standalone) as [|c t] eqn:Et.
  { apply occurs_at_bound in Ho; [|done]. simpl in Ho. lia. }
  rewrite normalize_html_steps.
  apply strip_comments_keeps_sentinel in Ho.
  apply collapse_keeps_sentinel in Ho as [m1 Ho].
  apply join_tags_keeps_sentinel in Ho as [m2 Ho].
  apply strip_keeps_sentinel in Ho as [m3 Ho].
  exists (m3 + 5).
  apply (occurs_at_within marker_word sentinel_text); [done..|by vm_compute].
Qed.

(** X14: after a successful update the check operation reports the two
    files as not synchronised (exit status 1), whenever the region
    between the standalone document's sentinels holds no comment opener
    and not the word MARKER: the update puts the whole standalone
    document, sentinel lines included, into the firmware literal, and
    the check compares that literal with the region between the
    sentinels only. *)
Theorem check_fails_after_update fs standalone ino fs1 out region :
  fs !! standalone_path = Some standalone ->
  fs !! ino_path = Some ino ->
  find standalone raw_close 0 = (-1)%Z ->
  (0 <= find ino handler_open 0 < find ino literal_open 0)%Z ->
  UpdateEsp32Html.main fs = (fs1, out, 0%Z) ->
  extract_html_from_standalone fs = ([], Some region) ->
  absent_from comment_open region 0 ->
  absent_from marker_word region 0 ->
  (SyncCheck.main fs1).2 = 1%Z.
Proof.
  intros Hs Hi Hc Hh Hrun Hreg Hno Hnm.
  (* the firmware extractor returns the whole standalone document *)
  assert (extract_html_from_ino fs1 = ([], Some (strip standalone))) as Eino.
  { destruct (find_cases handler_open ino 0 handler_open_nonempty)
      as [[E _]|(h & Eh & Hh')]; change (Z.of_nat 0) with 0%Z in *; [lia|].
    destruct (find_cases literal_open ino 0 literal_open_nonempty)
      as [[E _]|(j & Ej & Hj')]; change (Z.of_nat 0) with 0%Z in *; [lia|].
    apply (round_trip_general fs standalone ino fs1 out h j);
      try done; [|lia].
    apply absent_raw_close. by apply (find_missing_inv _ _ 0). }
  (* the standalone document is as before *)
  assert (fs1 !! standalone_path = Some standalone) as Hs1.
  { pose proof (main_success_inv _ _ _ _ _ Hs Hi Hrun) as Hu.
    apply (update_success_inv _ _ _ _ _ Hi) in Hu
      as (j & em & cp & _ & _ & _ & ->).
    by rewrite lookup_insert_ne by apply paths_differ. }
  assert (extract_html_from_standalone fs1 = ([], Some region)) as Esa.
  { unfold extract_html_from_standalone in *. by rewrite Hs1, Hs in *. }
  assert (find standalone end_marker 0 <> (-1)%Z) as Hend.
  { unfold extract_html_from_standalone in Hreg. rewrite Hs in Hreg.
    destruct (_ || _) eqn:Eor; [done|].
    by apply orb_false_iff in Eor as [_ He%Z.eqb_neq]. }
  unfold SyncCheck.main, compare_html. rewrite Esa, Eino.
  destruct (decide (normalize_html region = normalize_html (strip standalone)))
    as [Heq|Hne]; [|done].
  exfalso.
  destruct (normalize_keeps_end_marker_text standalone Hend) as [m Hm].
  rewrite <- Heq in Hm.
  by apply (normalize_creates_no_marker_word region Hno Hnm m ltac:(lia)).
Qed.

Lemma check_fails_after_update_witness :
  (SyncCheck.main (UpdateEsp32Html.main fs_sample).1.1).2 = 1%Z.
Proof.
  apply (check_fails_after_update fs_sample standalone_sample ino_sample _
           (UpdateEsp32Html.main fs_sample).1.2 (lit "<p>new</p>")).
  - reflexivity.
  - reflexivity.
  - by vm_compute.
  - by vm_compute.
  - by vm_compute.
  - by vm_compute.
  - apply (find_missing_inv _ _ 0); [done|by vm_compute].
  - apply (find_missing_inv _ _ 0); [done|by vm_compute].
Defined.

End UpdateThenCheck.

(** ** Edge cases of the standalone extractor *)

Module ExtractEdge.
Import SyncCheck ExtractorMatch ExtractProofs Samples.

(** X15: when both sentinels occur but no newline follows the start
    sentinel's first occurrence, the search for the newline answers -1,
    the slice starts at offset 0, and the standalone extractor returns
    the document from its very beginning (start sentinel included) up
    to the end sentinel, trimmed. *)
Theorem extract_html_from_standalone_without_newline fs content s e :
  fs !! standalone_path = Some content ->
  first_at start_marker content 0 s ->
  first_at end_marker content 0 e ->
  absent_from [newline] content s ->
  extract_html_from_standalone fs = ([], Some (strip (take e content))).
Proof.
  intros Hf Hs He Hn. unfold extract_html_from_standalone. rewrite Hf.
  rewrite (find_first_at_0 _ _ s start_marker_nonempty Hs).
  rewrite (find_first_at_0 _ _ e end_marker_nonempty He).
  destruct (Z.eqb_spec (Z.of_nat s) (-1)); [lia|].
  destruct (Z.eqb_spec (Z.of_nat e) (-1)); [lia|].
  cbn [orb]. rewrite (find_absent _ _ s newline_nonempty Hn).
  change (-1 + 1)%Z with (Z.of_nat 0).
  by rewrite slice_nat, drop_0, Nat.sub_0_r.
Qed.

Lemma extract_html_from_standalone_without_newline_witness :
  extract_html_from_standalone
    {[ standalone_path := lit "<b>" ++ start_marker ++ lit "x" ++ end_marker ]}
  = ([], Some (lit "<b>" ++ start_marker ++ lit "x")).
Proof.
  apply (extract_html_from_standalone_without_newline _
           (lit "<b>" ++ start_marker ++ lit "x" ++ end_marker) 3 64).
  - reflexivity.
  - apply find_found_inv_0; [done|by vm_compute].
  - apply find_found_inv_0; [done|by vm_compute].
  - apply find_missing_inv; [done|by vm_compute].
Defined.

(** X16: when the end sentinel's first occurrence does not lie after
    the newline that follows the start sentinel (the sentinels share a
    line, or the end sentinel comes first), the standalone extractor
    succeeds and returns the empty text. *)
Theorem extract_html_from_standalone_end_first fs content s e n :
  fs !! standalone_path = Some content ->
  first_at start_marker content 0 s ->
  first_at end_marker content 0 e ->
  first_at [newline] content s n ->
  e <= n + 1 ->
  extract_html_from_standalone fs = ([], Some []).
Proof.
  intros Hf Hs He Hn Hle. unfold extract_html_from_standalone. rewrite Hf.
  rewrite (find_first_at_0 _ _ s start_marker_nonempty Hs).
  rewrite (find_first_at_0 _ _ e end_marker_nonempty He).
  destruct (Z.eqb_spec (Z.of_nat s) (-1)); [lia|].
  destruct (Z.eqb_spec (Z.of_nat e) (-1)); [lia|].
  cbn [orb]. rewrite (find_first_at _ _ s n newline_nonempty Hn).
  replace (Z.of_nat n + 1)%Z with (Z.of_nat (n + 1)) by lia.
  rewrite slice_nat. by replace (e - (n + 1)) with 0 by lia.
Qed.

Lemma extract_html_from_standalone_end_first_witness :
  extract_html_from_standalone
    {[ standalone_path :=
         end_marker ++ lit "<p>x</p>" ++ start_marker ++ [newline] ]}
  = ([], Some []).
Proof.
  apply (extract_html_from_standalone_end_first _
           (end_marker ++ lit "<p>x</p>" ++ start_marker ++ [newline])
           66 0 126).
  - reflexivity.
  - apply find_found_inv_0; [done|by vm_compute].
  - apply find_found_inv_0; [done|by vm_compute].
  - apply find_found_inv; [done|by vm_compute].
  - lia.
Defined.

End ExtractEdge.
